(** * RITA beacon-proxy analyzer: a shallow embedding of
      [pkg/beaconproxy/analyzer.go] and the properties of its scoring
      kernel, host-max reconciler and worker loop. *)

From Stdlib Require Import ZArith Lia Bool PrimFloat SpecFloat FloatOps.
From stdpp Require Import prelude sorting gmap strings.

Local Open Scope Z_scope.

(** ** Go's [int64]: integers modulo 2^64, read in two's complement *)

Module Int64.

Definition min_int : Z := - 2 ^ 63.
Definition max_int : Z := 2 ^ 63 - 1.

Definition in_range (z : Z) : Prop := min_int <= z <= max_int.

(** the two's complement representative of [z] *)
Definition wrap (z : Z) : Z := (z + 2 ^ 63) mod 2 ^ 64 - 2 ^ 63.

Definition add (x y : Z) : Z := wrap (x + y).
Definition sub (x y : Z) : Z := wrap (x - y).
Definition mul (x y : Z) : Z := wrap (x * y).

End Int64.

(** ** Go's [float64]: IEEE 754 binary64, round to nearest, ties to even

    Every finite binary64 value is an integer multiple of 2^-1074 (the
    smallest subnormal), so a finite value is kept as that integer:
    [FFin n] stands for n * 2^-1074.  The negative zero is a value of its
    own.  Every operation computes the exact rational result and rounds it
    once, as IEEE 754 prescribes. *)

Inductive float64 : Type :=
  | FFin (n : Z)
  | FNegZero
  | FInf (neg : bool)
  | FNaN.

Module F64.

(** the value 1.0, in units of 2^-1074 *)
Definition one_u : Z := 2 ^ 1074.
(** 2^1024, the first magnitude that is no longer finite *)
Definition huge : Z := 2 ^ 2098.

(** nearest integer to [a / b], ties to the even one ([0 <= a], [0 < b]) *)
Definition rne (a b : Z) : Z :=
  let q := a / b in
  match 2 * (a mod b) ?= b with
  | Lt => q
  | Gt => q + 1
  | Eq => if Z.even q then q else q + 1
  end.

(** magnitudes below 2^53 units have spacing one unit (subnormals and the
    first normal binade); each binade above doubles the spacing *)
Definition binade_shift (q : Z) : Z := Z.max 0 (Z.log2 q - 52).

(** the binary64 magnitude nearest to [a / b] units, exponent unbounded *)
Definition rnd_pos (a b : Z) : Z :=
  let j := binade_shift (a / b) in
  2 ^ j * rne a (b * 2 ^ j).

Definition zero (neg : bool) : float64 := if neg then FNegZero else FFin 0.

(** rounding of the rational [a / b] units with sign [neg] *)
Definition round (neg : bool) (a b : Z) : float64 :=
  let n := rnd_pos a b in
  if huge <=? n then FInf neg
  else if n =? 0 then zero neg
  else FFin (if neg then - n else n).

Definition val (x : float64) : Z :=
  match x with FFin n => n | _ => 0 end.

Definition sign (x : float64) : bool :=
  match x with
  | FFin n => n <? 0
  | FNegZero => true
  | FInf s => s
  | FNaN => false
  end.

Definition is_finite (x : float64) : bool :=
  match x with FFin _ | FNegZero => true | _ => false end.

(** [float64(z)] for an int64 [z] *)
Definition of_int64 (z : Z) : float64 := round (z <? 0) (Z.abs z * one_u) 1.

(** a decimal literal [a / b], converted as the compiler does: rounded once *)
Definition lit (a b : Z) : float64 := round (a <? 0) (Z.abs a * one_u) b.

Definition neg (x : float64) : float64 :=
  match x with
  | FFin 0 => FNegZero
  | FFin n => FFin (- n)
  | FNegZero => FFin 0
  | FInf s => FInf (negb s)
  | FNaN => FNaN
  end.

(** [math.Abs] *)
Definition abs (x : float64) : float64 :=
  match x with
  | FFin n => FFin (Z.abs n)
  | FNegZero => FFin 0
  | FInf _ => FInf false
  | FNaN => FNaN
  end.

Definition add (x y : float64) : float64 :=
  match x, y with
  | FNaN, _ | _, FNaN => FNaN
  | FInf s, FInf t => if Bool.eqb s t then FInf s else FNaN
  | FInf s, _ => FInf s
  | _, FInf t => FInf t
  | _, _ =>
      let s := val x + val y in
      if s =? 0 then zero (sign x && sign y)
      else round (s <? 0) (Z.abs s) 1
  end.

Definition sub (x y : float64) : float64 := add x (neg y).

Definition mul (x y : float64) : float64 :=
  match x, y with
  | FNaN, _ | _, FNaN => FNaN
  | FInf s, FInf t => FInf (xorb s t)
  | FInf s, _ => if val y =? 0 then FNaN else FInf (xorb s (sign y))
  | _, FInf t => if val x =? 0 then FNaN else FInf (xorb (sign x) t)
  | _, _ => round (xorb (sign x) (sign y)) (Z.abs (val x) * Z.abs (val y)) one_u
  end.

Definition div (x y : float64) : float64 :=
  match x, y with
  | FNaN, _ | _, FNaN => FNaN
  | FInf _, FInf _ => FNaN
  | FInf s, _ => FInf (xorb s (sign y))
  | _, FInf t => zero (xorb (sign x) t)
  | _, _ =>
      if val y =? 0 then
        if val x =? 0 then FNaN else FInf (xorb (sign x) (sign y))
      else round (xorb (sign x) (sign y)) (Z.abs (val x) * one_u) (Z.abs (val y))
  end.

(** [x < y]; false as soon as one side is NaN *)
Definition lt (x y : float64) : bool :=
  match x, y with
  | FNaN, _ | _, FNaN => false
  | FInf s, FInf t => s && negb t
  | FInf s, _ => s
  | _, FInf t => negb t
  | _, _ => val x <? val y
  end.

(** [x == y]: the two zeros are equal, NaN equals nothing *)
Definition eq (x y : float64) : bool :=
  match x, y with
  | FNaN, _ | _, FNaN => false
  | FInf s, FInf t => Bool.eqb s t
  | FInf _, _ | _, FInf _ => false
  | _, _ => val x =? val y
  end.

Definition le (x y : float64) : bool := lt x y || eq x y.

(** [math.Ceil] *)
Definition ceil (x : float64) : float64 :=
  match x with
  | FFin n =>
      let k := - ((- n) / one_u) in
      if k =? 0 then zero (n <? 0) else FFin (k * one_u)
  | _ => x
  end.

(** reading of a value of the machine's binary64 *)
Definition of_prim (f : PrimFloat.float) : float64 :=
  match Prim2SF f with
  | S754_zero s => zero s
  | S754_infinity s => FInf s
  | S754_nan => FNaN
  | S754_finite s m e =>
      FFin ((if s then - Z.pos m else Z.pos m) * 2 ^ (e + 1074))
  end.

(** magnitudes that binary64 holds exactly, exponent range apart *)
Definition Rep (c : Z) : Prop :=
  exists m e, 0 <= m < 2 ^ 53 /\ 0 <= e /\ c = m * 2 ^ e.

(** a finite value, not the negative zero, between two bounds *)
Definition fin_in (lo hi : Z) (x : float64) : Prop :=
  exists n, x = FFin n /\ lo <= n <= hi.

End F64.

(** ** Go slices and loops

    An index expression panics outside [0, len); [make] panics on a negative
    length.  A panic is [None]. *)

Module Go.

Definition index {A} (s : list A) (i : Z) : option A :=
  if i <? 0 then None else s !! Z.to_nat i.

Definition store {A} (s : list A) (i : Z) (v : A) : option (list A) :=
  if (0 <=? i) && (i <? Z.of_nat (length s))
  then Some (<[Z.to_nat i := v]> s) else None.

Definition make (n : Z) : option (list Z) :=
  if n <? 0 then None else Some (replicate (Z.to_nat n) 0).

Definition len {A} (s : list A) : Z := Z.of_nat (length s).

(** the most int64 elements a slice can hold: the runtime of a 64-bit
    platform allocates at most 2^48 bytes (maxAlloc), eight for each *)
Definition maxElems : Z := 2 ^ 45.

Fixpoint for_up {S} (n : nat) (i : Z) (body : Z -> S -> option S) (s : S)
  : option S :=
  match n with
  | O => Some s
  | S n' => s' ← body i s; for_up n' (i + 1) body s'
  end.

(** [for i, x := range s { body }], counting from [i] *)
Fixpoint for_each_from {A S} (i : Z) (s : list A)
    (body : Z -> A -> S -> option S) (st : S) : option S :=
  match s with
  | [] => Some st
  | x :: s' => st' ← body i x st; for_each_from (i + 1) s' body st'
  end.

(** [m[k]] on a map with int64 values: the zero value when [k] is absent *)
Definition map_get (m : gmap Z Z) (k : Z) : Z := default 0 (m !! k).

(** [for i := lo; i < hi; i++ { body }] *)
Definition for_range {S} (lo hi : Z) (body : Z -> S -> option S) (s : S)
  : option S :=
  for_up (Z.to_nat (hi - lo)) lo body s.

End Go.

(** ** Package util and the standard sort (outside this source tree) *)

Module util.

(** Modelled from the spec: util.Round is not part of the sources at hand;
    the specification fixes it as rounding to the nearest integer, half away
    from zero.  The result is converted to int64. *)
Definition Round (f : float64) : Z :=
  match f with
  | FFin n => Int64.wrap (Z.sgn n * ((2 * Z.abs n + F64.one_u) / (2 * F64.one_u)))
  | _ => 0
  end.

(** Modelled from the spec: util.Abs is not part of the sources at hand; the
    specification uses it as the absolute value, here on int64. *)
Definition Abs (a : Z) : Z := Int64.wrap (Z.abs a).

(** [sort.Sort(util.SortableInt64(s))]: the ascending rearrangement of [s] *)
Definition SortInt64 (s : list Z) : list Z := merge_sort Z.le s.

End util.

(** ** Data model *)

(** Modelled from the spec: the declarations of package data and of
    uconnproxy.Input are not part of the sources at hand; the fields are
    the ones [analyzer.go] reads. *)
Record UniqueIP := mkUniqueIP {
  IP : string;
  NetworkName : string
}.

Record UniqueSrcFQDNPair := mkPair {
  UniqueSrcIP : UniqueIP;
  FQDN : string
}.

Definition SrcNetworkName (h : UniqueSrcFQDNPair) : string :=
  NetworkName (UniqueSrcIP h).

Record Input := mkInput {
  Hosts : UniqueSrcFQDNPair;
  TsList : option (list Z);        (* [None] is the nil slice *)
  ConnectionCount : Z;
  Proxy : string
}.

(** one element of the [dat] array of a host document *)
Record datElem := mkDat {
  max_beacon_proxy_score : float64;
  mbproxy : string;
  cid : Z
}.

(** the [$set] document of the pair record, lines 175-192 *)
Record beaconSet := mkBeaconSet {
  bs_connection_count : Z;
  bs_proxy : string;
  bs_src_network_name : string;
  ts_range : Z;
  ts_mode : Z;
  ts_mode_count : Z;
  ts_intervals : list Z;
  ts_interval_counts : list Z;
  ts_dispersion : Z;
  ts_skew : float64;
  ts_conns_score : float64;
  ts_score : float64;
  bs_tslist : list Z;
  bs_score : float64;
  bs_cid : Z;
  bs_strobeFQDN : bool
}.

Inductive cmp_op := Lte | Gte.

(** the selector documents the analyzer builds *)
Inductive selector :=
  | SelPair (hosts : UniqueSrcFQDNPair)           (* entry.Hosts.BSONKey() *)
  | SelHost (src : UniqueIP)                      (* src.BSONKey() *)
  | SelHostMbproxy (src : UniqueIP) (fqdn : string)
      (* src.BSONKey() with "dat.mbproxy": fqdn *)
  | SelHostElemMatch (src : UniqueIP) (chunk : Z) (op : cmp_op) (score : float64).
      (* src.BSONKey() with "dat": {$elemMatch: {cid, max_beacon_proxy_score: {op: score}}} *)

(** the update documents the analyzer builds *)
Inductive query :=
  | SetStrobeFQDN (b : bool)     (* {"$set": {"strobeFQDN": b}} *)
  | SetBeacon (r : beaconSet)    (* {"$set": {... pair record ...}} *)
  | SetDat (e : datElem)         (* {"$set": {"dat.$.<field>": ...}} *)
  | PushDat (e : datElem).       (* {"$push": {"dat": {...}}} *)

Record updateInfo := mkUpdateInfo {
  ui_selector : option selector;
  ui_query : option query
}.

(** the zero value [updateInfo{}] *)
Definition noUpdate : updateInfo := mkUpdateInfo None None.

Record update := mkUpdate {
  beacon : updateInfo;
  hostBeacon : updateInfo;
  uconnproxy : updateInfo
}.

(** a counted query either returns a count or an error *)
Inductive countResult := CountOk (n : Z) | CountErr (msg : string).

(** the store session, as far as the analyzer uses it:
    [ssn.DB(..).C(HostTable).Find(sel).Count()] *)
Definition session := selector -> countResult.

Record analyzer := mkAnalyzer {
  tsMin : Z;
  tsMax : Z;
  chunk : Z;
  db : session
}.

(** ** The analyzer, [pkg/beaconproxy/analyzer.go] *)

(** lines 236-253 *)
Definition countAndRemoveConsecutiveDuplicates (numberList : list Z)
  : option (list Z * gmap Z Z) :=
  let result : list Z := [] in
  let counts : gmap Z Z := ∅ in
  last ← Go.index numberList 0;
  let result := result ++ [last] in
  let counts := <[last := Int64.add (Go.map_get counts last) 1]> counts in
  '(result, counts, _) ←
    Go.for_range 1 (Go.len numberList)
      (fun idx '(result, counts, last) =>
         x ← Go.index numberList idx;
         let result := if bool_decide (last ≠ x) then result ++ [x] else result in
         let last := x in
         Some (result, <[last := Int64.add (Go.map_get counts last) 1]> counts, last))
      (result, counts, last);
  Some (result, counts).

(** lines 214-229 *)
Definition createCountMap (sortedIn : list Z)
  : option (list Z * list Z * Z * Z) :=
  '(distinct, countsMap) ← countAndRemoveConsecutiveDuplicates sortedIn;
  countsArr ← Go.make (Go.len distinct);
  mode ← Go.index distinct 0;
  let max := Go.map_get countsMap mode in
  '(countsArr, mode, max) ←
    Go.for_each_from 0 distinct
      (fun i datum '(countsArr, mode, max) =>
         let count := Go.map_get countsMap datum in
         countsArr ← Go.store countsArr i count;
         Some (if max <? count then (countsArr, datum, count)
               else (countsArr, mode, max)))
      (countsArr, mode, max);
  Some (distinct, countsArr, mode, max).

(** the local variables of the statistics part of [start], lines 103-148 *)
Record tsStats := mkStats {
  diff : list Z;
  tsLow : Z;
  tsMid : Z;
  tsHigh : Z;
  tsSkew : float64;
  devs : list Z;
  tsMadm : Z;
  tsIntervalRange : Z;
  intervals : list Z;
  intervalCounts : list Z;
  tsMode : Z;
  tsModeCount : Z
}.

(** the index [util.Round(p * float64(tsLength-1))] of lines 117-119, 140 *)
Definition quantileIndex (p : float64) (tsLength : Z) : Z :=
  util.Round (F64.mul p (F64.of_int64 (Int64.sub tsLength 1))).

(** lines 103-148 of [start], for a non-nil [entry.TsList] *)
Definition statistics (tsList : list Z) : option tsStats :=
  let tsLength := Go.len tsList - 1 in
  diff ← Go.make tsLength;
  diff ← Go.for_range 0 tsLength
            (fun i diff =>
               a ← Go.index tsList (i + 1);
               b ← Go.index tsList i;
               Go.store diff i (Int64.sub a b))
            diff;
  let diff := util.SortInt64 diff in
  let tsSkew := F64.of_int64 0 in
  tsLow ← Go.index diff (quantileIndex (F64.lit 25 100) tsLength);
  tsMid ← Go.index diff (quantileIndex (F64.lit 5 10) tsLength);
  tsHigh ← Go.index diff (quantileIndex (F64.lit 75 100) tsLength);
  let tsBowleyNum := Int64.sub (Int64.add tsLow tsHigh) (Int64.mul 2 tsMid) in
  let tsBowleyDen := Int64.sub tsHigh tsLow in
  let tsSkew :=
    if bool_decide (tsBowleyDen ≠ 0) && bool_decide (tsMid ≠ tsLow)
       && bool_decide (tsMid ≠ tsHigh)
    then F64.div (F64.of_int64 tsBowleyNum) (F64.of_int64 tsBowleyDen)
    else tsSkew in
  devs ← Go.make tsLength;
  devs ← Go.for_range 0 tsLength
            (fun i devs =>
               d ← Go.index diff i;
               Go.store devs i (util.Abs (Int64.sub d tsMid)))
            devs;
  let devs := util.SortInt64 devs in
  tsMadm ← Go.index devs (quantileIndex (F64.lit 5 10) tsLength);
  hi ← Go.index diff (tsLength - 1);
  lo ← Go.index diff 0;
  let tsIntervalRange := Int64.sub hi lo in
  '(intervals, intervalCounts, tsMode, tsModeCount) ← createCountMap diff;
  Some (mkStats diff tsLow tsMid tsHigh tsSkew devs tsMadm tsIntervalRange
                intervals intervalCounts tsMode tsModeCount).

(** lines 152, 155-158, 161-165: the three component scores *)
Definition skewScore (tsSkew : float64) : float64 :=
  F64.sub (F64.lit 1 1) (F64.abs tsSkew).

Definition madmScore (tsMadm : Z) : float64 :=
  let tsMadmScore :=
    F64.sub (F64.lit 1 1) (F64.div (F64.of_int64 tsMadm) (F64.lit 30 1)) in
  if F64.lt tsMadmScore (F64.of_int64 0) then F64.of_int64 0 else tsMadmScore.

Definition connCountScore (a : analyzer) (connectionCount : Z) : float64 :=
  let tsConnDiv :=
    F64.div (F64.sub (F64.of_int64 (tsMax a)) (F64.of_int64 (tsMin a)))
            (F64.lit 10 1) in
  let tsConnCountScore := F64.div (F64.of_int64 connectionCount) tsConnDiv in
  if F64.lt (F64.lit 1 1) tsConnCountScore then F64.lit 1 1
  else tsConnCountScore.

(** lines 168-172 *)
Definition combine (tsSkewScore tsMadmScore tsConnCountScore : float64)
  : float64 :=
  let tsSum := F64.add (F64.add tsSkewScore tsMadmScore) tsConnCountScore in
  F64.div (F64.ceil (F64.mul (F64.div tsSum (F64.lit 3 1)) (F64.lit 1000 1)))
          (F64.lit 1000 1).

(** lines 255-405; the second component is what the logger receives *)
Definition hostBeaconQuery (a : analyzer) (score : float64) (src : UniqueIP)
    (fqdn : string) : updateInfo * list string :=
  let set := SetDat (mkDat score fqdn (chunk a)) in
  let maxBeaconMatchExactQuery := SelHostMbproxy src fqdn in
  match db a maxBeaconMatchExactQuery with
  | CountErr _ =>
      (noUpdate,
       ["Could not check for existing max proxy beacon in hosts collection. Refusing to update source's max proxy beacon."%string])
  | CountOk nExactMatches =>
      if 0 <? nExactMatches then
        (mkUpdateInfo (Some maxBeaconMatchExactQuery) (Some set), [])
      else
        let maxBeaconMatchLowerQuery := SelHostElemMatch src (chunk a) Lte score in
        match db a maxBeaconMatchLowerQuery with
        | CountErr _ =>
            (noUpdate,
             ["Could not check for lower scoring max proxy beacon in hosts collection. Refusing to update source's max proxy beacon."%string])
        | CountOk nLowerMatches =>
            if nLowerMatches =? 0 then
              let maxBeaconMatchUpperQuery :=
                SelHostElemMatch src (chunk a) Gte score in
              match db a maxBeaconMatchUpperQuery with
              | CountErr _ =>
                  (noUpdate,
                   ["Could not check for higher scoring max proxy beacon in hosts collection. Refusing to update source's max proxy beacon."%string])
              | CountOk nUpperMatches =>
                  let newFlag := nUpperMatches =? 0 in
                  if newFlag then
                    (mkUpdateInfo (Some (SelHost src))
                       (Some (PushDat (mkDat score fqdn (chunk a)))), [])
                  else (noUpdate, [])
              end
            else
              (* updateFlag *)
              (mkUpdateInfo (Some maxBeaconMatchLowerQuery) (Some set), [])
        end
  end.

(** the body of the receive loop of [start], lines 72-205: the envelope
    handed to [analyzedCallback] for one entry, and the log lines; [None]
    when the body panics *)
Definition analyze (a : analyzer) (entry : Input) : option (update * list string) :=
  match TsList entry with
  | None =>
      Some (mkUpdate noUpdate noUpdate
              (mkUpdateInfo (Some (SelPair (Hosts entry)))
                            (Some (SetStrobeFQDN true))), [])
  | Some tsList =>
      let selectorPair := SelPair (Hosts entry) in
      st ← statistics tsList;
      let tsSkewScore := skewScore (tsSkew st) in
      let tsMadmScore := madmScore (tsMadm st) in
      let tsConnCountScore := connCountScore a (ConnectionCount entry) in
      let tsScore := combine tsSkewScore tsMadmScore tsConnCountScore in
      let score := combine tsSkewScore tsMadmScore tsConnCountScore in
      let query :=
        SetBeacon (mkBeaconSet (ConnectionCount entry) (Proxy entry)
                     (SrcNetworkName (Hosts entry))
                     (tsIntervalRange st) (tsMode st) (tsModeCount st)
                     (intervals st) (intervalCounts st) (tsMadm st) (tsSkew st)
                     tsConnCountScore tsScore tsList score (chunk a) false) in
      let hostBeacon :=
        hostBeaconQuery a score (UniqueSrcIP (Hosts entry)) (FQDN (Hosts entry)) in
      Some (mkUpdate (mkUpdateInfo (Some selectorPair) (Some query))
                     (fst hostBeacon) noUpdate, snd hostBeacon)
  end.

(** the score of the pair record [analyze] emits *)
Definition emitted_score (a : analyzer) (entry : Input) : option float64 :=
  '(u, _) ← analyze a entry;
  match ui_query (beacon u) with
  | Some (SetBeacon r) => Some (bs_score r)
  | _ => None
  end.

(** ** The statistics kernel in the words of the specification (4.A) *)

Module Spec.

(** Deltas: diff[i] = tsList[i+1] - tsList[i], in int64 arithmetic *)
Definition deltas (tsList : list Z) : list Z :=
  zip_with (fun a b => Int64.sub b a) tsList (drop 1 tsList).

(** nearest integer to [a / b], ties away from zero ([0 < b]) *)
Definition round_half_away (a b : Z) : Z :=
  Z.sgn a * ((2 * Z.abs a + b) / (2 * b)).

(** nearest-rank index round(p * (m - 1)) for p = quarters / 4 *)
Definition rank (quarters m : Z) : Z := round_half_away (quarters * (m - 1)) 4.

(** devs[i] = |diff[i] - Q2| *)
Definition deviations (q2 : Z) (diff : list Z) : list Z :=
  (fun d => util.Abs (Int64.sub d q2)) <$> diff.

End Spec.

(** number of occurrences of [x] in [l] *)
Definition freq (x : Z) (l : list Z) : Z :=
  Z.of_nat (length (filter (fun y => y = x) l)).

Definition sumZ (l : list Z) : Z := foldr Z.add 0 l.

(** number of negative elements *)
Definition negs (l : list Z) : nat := length (filter (fun d => d < 0) l).

(** the state of [countAndRemoveConsecutiveDuplicates] after the first [i]
    elements of [l] *)
Definition dedup_inv (l : list Z) (i : Z) (st : list Z * gmap Z Z * Z) : Prop :=
  let '(result, counts, lst) := st in
  1 <= i <= Go.len l /\
  l !! Z.to_nat (i - 1) = Some lst /\
  last result = Some lst /\
  (forall x, x ∈ result <-> x ∈ take (Z.to_nat i) l) /\
  (Sorted Z.le l -> StronglySorted Z.lt result) /\
  (forall x, Go.map_get counts x = freq x (take (Z.to_nat i) l)).

(** the state of the loop of [createCountMap] after [i] rounds *)
Definition mode_inv (distinct : list Z) (c : Z -> Z) (i : nat)
    (st : list Z * Z * Z) : Prop :=
  let '(countsArr, mode, max) := st in
  length countsArr = length distinct /\
  (forall j : nat, (j < i)%nat -> countsArr !! j = c <$> (distinct !! j)) /\
  exists p : nat,
    distinct !! p = Some mode /\ c mode = max /\ (p <= Nat.pred i)%nat /\
    (forall (j : nat) y, (j < i)%nat -> distinct !! j = Some y ->
       c y <= max /\ (c y = max -> (p <= j)%nat)).

(** what lines 103-148 compute, as equations between the local variables *)
Definition kernel_facts (tsList : list Z) (st : tsStats) : Prop :=
  let m := Go.len tsList - 1 in
  diff st = util.SortInt64 (Spec.deltas tsList) /\
  diff st !! Z.to_nat (Spec.rank 1 m) = Some (tsLow st) /\
  diff st !! Z.to_nat (Spec.rank 2 m) = Some (tsMid st) /\
  diff st !! Z.to_nat (Spec.rank 3 m) = Some (tsHigh st) /\
  tsSkew st =
    (if bool_decide (Int64.sub (tsHigh st) (tsLow st) ≠ 0)
        && bool_decide (tsMid st ≠ tsLow st) && bool_decide (tsMid st ≠ tsHigh st)
     then F64.div
            (F64.of_int64 (Int64.sub (Int64.add (tsLow st) (tsHigh st))
                                     (Int64.mul 2 (tsMid st))))
            (F64.of_int64 (Int64.sub (tsHigh st) (tsLow st)))
     else FFin 0) /\
  devs st = util.SortInt64 ((fun d => util.Abs (Int64.sub d (tsMid st))) <$> diff st) /\
  devs st !! Z.to_nat (Spec.rank 2 m) = Some (tsMadm st) /\
  (exists lo hi, diff st !! 0%nat = Some lo /\ diff st !! Z.to_nat (m - 1) = Some hi /\
                 tsIntervalRange st = Int64.sub hi lo) /\
  createCountMap (diff st)
    = Some (intervals st, intervalCounts st, tsMode st, tsModeCount st).

(** ** The hosts collection, as far as the reconciler's queries read it *)

#[global] Instance UniqueIP_eq_dec : EqDecision UniqueIP.
Proof. solve_decision. Defined.

Record hostDoc := mkHostDoc {
  host_key : UniqueIP;
  dat : list datElem
}.

Definition store := list hostDoc.

Definition cmp_score (op : cmp_op) (stored score : float64) : bool :=
  match op with
  | Lte => F64.le stored score
  | Gte => F64.le score stored
  end.

(** whether a host document satisfies a selector: equality on the key
    fields, "dat.mbproxy" on some element of the array, [$elemMatch] on one
    element that satisfies all its conditions together *)
Definition matches (q : selector) (d : hostDoc) : bool :=
  match q with
  | SelPair _ => false
  | SelHost src => bool_decide (host_key d = src)
  | SelHostMbproxy src fqdn =>
      bool_decide (host_key d = src)
      && existsb (fun e => bool_decide (mbproxy e = fqdn)) (dat d)
  | SelHostElemMatch src c op score =>
      bool_decide (host_key d = src)
      && existsb (fun e => bool_decide (cid e = c)
                           && cmp_score op (max_beacon_proxy_score e) score)
                 (dat d)
  end.

(** [Find(q).Count()] on a store that answers *)
Definition count (st : store) (q : selector) : Z :=
  Z.of_nat (length (filter (fun d => matches q d = true) st)).

Definition answering (st : store) : session := fun q => CountOk (count st q).

(** the dat elements of the documents of host [src] *)
Definition dat_of (st : store) (src : UniqueIP) : list datElem :=
  d ← filter (fun d => host_key d = src) st; dat d.

Module Reconciler.

(** the outcomes of section 4.C *)
Inductive outcome :=
  | ReplaceExact
  | ReplaceLower
  | InsertNew
  | Noop.

(** section 4.C, in its words: the three questions asked in order *)
Definition decide_outcome (st : store) (score : float64) (src : UniqueIP)
    (fqdn : string) (chunkID : Z) : outcome :=
  if existsb (fun e => bool_decide (mbproxy e = fqdn)) (dat_of st src)
  then ReplaceExact
  else if existsb (fun e => bool_decide (cid e = chunkID)
                            && F64.le (max_beacon_proxy_score e) score
                            && bool_decide (mbproxy e ≠ fqdn))
                  (dat_of st src)
  then ReplaceLower
  else if existsb (fun e => bool_decide (cid e = chunkID)
                            && F64.le score (max_beacon_proxy_score e))
                  (dat_of st src)
  then Noop
  else InsertNew.

(** the update each outcome stands for *)
Definition update_of (o : outcome) (score : float64) (src : UniqueIP)
    (fqdn : string) (chunkID : Z) : updateInfo :=
  match o with
  | ReplaceExact =>
      mkUpdateInfo (Some (SelHostMbproxy src fqdn))
                   (Some (SetDat (mkDat score fqdn chunkID)))
  | ReplaceLower =>
      mkUpdateInfo (Some (SelHostElemMatch src chunkID Lte score))
                   (Some (SetDat (mkDat score fqdn chunkID)))
  | InsertNew =>
      mkUpdateInfo (Some (SelHost src))
                   (Some (PushDat (mkDat score fqdn chunkID)))
  | Noop => noUpdate
  end.

End Reconciler.

(** some query the reconciler issues comes back with an error *)
Definition query_fails (a : analyzer) (score : float64) (src : UniqueIP)
    (fqdn : string) : Prop :=
  (exists msg, db a (SelHostMbproxy src fqdn) = CountErr msg) \/
  (exists n msg, db a (SelHostMbproxy src fqdn) = CountOk n /\ n <= 0 /\
     db a (SelHostElemMatch src (chunk a) Lte score) = CountErr msg) \/
  (exists n msg, db a (SelHostMbproxy src fqdn) = CountOk n /\ n <= 0 /\
     db a (SelHostElemMatch src (chunk a) Lte score) = CountOk 0 /\
     db a (SelHostElemMatch src (chunk a) Gte score) = CountErr msg).

(** ** The worker pool: [collect], [close], [start] (lines 53-210)

    A client goroutine calls the three methods one after the other; every
    [start] adds a worker goroutine.  The goroutines interleave freely; a
    step is one of their atomic actions on the channel, the wait group or a
    callback.  The channel is unbuffered: a send completes together with the
    receive that takes its value. *)

Module Pool.

Inductive call :=
  | Start
  | Collect (x : Input)
  | Close.

(** where the client stands *)
Inductive phase :=
  | Idle                  (* between two calls *)
  | Sending (x : Input)   (* in collect, blocked on the send, line 54 *)
  | Waiting               (* in close, channel closed, in Wait, line 60 *)
  | Calling.              (* in close, Wait returned, before line 61 *)

(** where a worker stands *)
Inductive worker :=
  | Receiving             (* at the range clause, line 69 *)
  | Busy (x : Input)      (* holds an entry, lines 72-204 *)
  | Leaving               (* left the loop, before Done, line 208 *)
  | Exited.

Inductive event :=
  | Analyzed (x : Input) (u : update)   (* analyzedCallback(u), for entry x *)
  | Closed.                             (* closedCallback() *)

Record state := mkState {
  prog : list call;         (* the calls the client has still to make *)
  ph : phase;
  chan_closed : bool;
  wg : Z;                   (* the counter of analysisWg *)
  workers : list worker;
  accepted : list Input;    (* the inputs whose collect has returned *)
  events : list event;      (* the callbacks made so far, oldest first *)
  returned : nat;           (* how many calls of close have returned *)
  crashed : bool            (* a goroutine has panicked *)
}.

Definition init (p : list call) : state :=
  mkState p Idle false 0 [] [] [] 0 false.

Definition with_db (a : analyzer) (ssn : session) : analyzer :=
  mkAnalyzer (tsMin a) (tsMax a) (chunk a) ssn.

Definition crash (s : state) : state :=
  mkState (prog s) (ph s) (chan_closed s) (wg s) (workers s) (accepted s)
          (events s) (returned s) true.

Inductive step (a : analyzer) : state -> state -> Prop :=
  (* start: Add(1), then the go statement, lines 66-67 *)
  | step_start p c g ws acc ev r :
      step a (mkState (Start :: p) Idle c g ws acc ev r false)
             (mkState p Idle c (g + 1) (ws ++ [Receiving]) acc ev r false)
  (* collect reaches the send; a send on a closed channel panics *)
  | step_collect p x g ws acc ev r :
      step a (mkState (Collect x :: p) Idle false g ws acc ev r false)
             (mkState p (Sending x) false g ws acc ev r false)
  | step_collect_closed p x g ws acc ev r :
      step a (mkState (Collect x :: p) Idle true g ws acc ev r false)
             (crash (mkState p Idle true g ws acc ev r false))
  (* the send meets a receiving worker; collect returns *)
  | step_rendezvous p x c g ws i acc ev r :
      ws !! i = Some Receiving ->
      step a (mkState p (Sending x) c g ws acc ev r false)
             (mkState p Idle c g (<[i := Busy x]> ws) (acc ++ [x]) ev r false)
  (* a worker analyses its entry against whatever the store answers now and
     hands the envelope to the callback, lines 72-204 *)
  | step_analyze p f c g ws i x ssn u logs acc ev r :
      ws !! i = Some (Busy x) ->
      analyze (with_db a ssn) x = Some (u, logs) ->
      step a (mkState p f c g ws acc ev r false)
             (mkState p f c g (<[i := Receiving]> ws) acc (ev ++ [Analyzed x u]) r false)
  | step_analyze_panic p f c g ws i x ssn acc ev r :
      ws !! i = Some (Busy x) ->
      analyze (with_db a ssn) x = None ->
      step a (mkState p f c g ws acc ev r false)
             (crash (mkState p f c g ws acc ev r false))
  (* the range loop ends on a closed channel *)
  | step_leave p f g ws i acc ev r :
      ws !! i = Some Receiving ->
      step a (mkState p f true g ws acc ev r false)
             (mkState p f true g (<[i := Leaving]> ws) acc ev r false)
  (* Done, line 208 *)
  | step_done p f c g ws i acc ev r :
      ws !! i = Some Leaving ->
      step a (mkState p f c g ws acc ev r false)
             (mkState p f c (g - 1) (<[i := Exited]> ws) acc ev r false)
  (* close: close(channel), line 59; closing a closed channel panics *)
  | step_close p g ws acc ev r :
      step a (mkState (Close :: p) Idle false g ws acc ev r false)
             (mkState p Waiting true g ws acc ev r false)
  | step_close_closed p g ws acc ev r :
      step a (mkState (Close :: p) Idle true g ws acc ev r false)
             (crash (mkState p Idle true g ws acc ev r false))
  (* Wait returns once the counter is zero, line 60 *)
  | step_wait p c ws acc ev r :
      step a (mkState p Waiting c 0 ws acc ev r false)
             (mkState p Calling c 0 ws acc ev r false)
  (* closedCallback(), line 61, and close returns *)
  | step_closed_callback p c g ws acc ev r :
      step a (mkState p Calling c g ws acc ev r false)
             (mkState p Idle c g ws acc (ev ++ [Closed]) (S r) false).

(** the inputs of the analyzed callbacks, oldest first *)
Definition analyzed (ev : list event) : list Input :=
  omap (fun e => match e with Analyzed x _ => Some x | Closed => None end) ev.

(** how many times the closed callback was called *)
Definition closed_calls (ev : list event) : nat :=
  length (omap (fun e => match e with Closed => Some () | _ => None end) ev).

(** the entries the workers hold *)
Definition held (ws : list worker) : list Input :=
  omap (fun w => match w with Busy x => Some x | _ => None end) ws.

(** the workers that have not called Done *)
Definition running (ws : list worker) : nat :=
  length (omap (fun w => match w with Exited => None | _ => Some () end) ws).

(** the envelope of an analyzed callback is the analysis of its entry *)
Definition envelope_ok (a : analyzer) (e : event) : Prop :=
  match e with
  | Analyzed x u => exists ssn logs, analyze (with_db a ssn) x = Some (u, logs)
  | Closed => True
  end.

(** what the phase of the client tells about the callbacks made so far *)
Definition phase_inv (s : state) : Prop :=
  match chan_closed s, ph s with
  | false, Idle | false, Sending _ | true, Waiting => closed_calls (events s) = 0%nat
  | true, Calling => closed_calls (events s) = 0%nat /\ held (workers s) = []
  | true, Idle =>
      held (workers s) = [] /\
      exists evs, events s = evs ++ [Closed] /\ closed_calls evs = 0%nat
  | _, _ => False
  end.

(** what every reachable state satisfies *)
Definition inv (a : analyzer) (s : state) : Prop :=
  wg s = Z.of_nat (running (workers s)) /\
  accepted s ≡ₚ analyzed (events s) ++ held (workers s) /\
  returned s = closed_calls (events s) /\
  Forall (envelope_ok a) (events s) /\
  phase_inv s.

End Pool.

(** ** Inputs of the scenarios of section 8 *)

Module Scenario.

Definition window (ssn : session) : analyzer := mkAnalyzer 0 36000 0 ssn.

Definition quiet : session := fun _ => CountOk 0.
Definition failing : session := fun _ => CountErr "connection reset".

Definition hosts : UniqueSrcFQDNPair :=
  mkPair (mkUniqueIP "10.0.0.7" "lan") "update.example.com".

Definition s1_tsList : list Z := [0; 60; 120; 180; 240; 300].
Definition s1 : Input := mkInput hosts (Some s1_tsList) 6 "10.0.0.1".
Definition s4 : Input := mkInput hosts None 50000 "10.0.0.1".

(** the envelope of S4 and the pool after start, collect(S4), close *)
Definition s4_envelope : update :=
  mkUpdate noUpdate noUpdate
    (mkUpdateInfo (Some (SelPair hosts)) (Some (SetStrobeFQDN true))).

Definition pool_final : Pool.state :=
  Pool.mkState [] Pool.Idle true 0 [Pool.Exited] [s4]
    [Pool.Analyzed s4 s4_envelope; Pool.Closed] 1 false.

End Scenario.

(** ** The client of the contract of section 4.D, and the length of a run *)

Module Client.










End Client.

(** ** The scenario S1 run through the pool *)

Module RunS1.

(** the envelope of S1 against a store without host documents *)
Definition envelope : update :=
  match analyze (Scenario.window Scenario.quiet) Scenario.s1 with
  | Some (u, _) => u
  | None => mkUpdate noUpdate noUpdate noUpdate
  end.



End RunS1.

(** ** The log reader, [parser/files/reading.go]

    Strings are byte strings, as in Go.  What the functions ask of the
    operating system and of the packages path, strings and strconv is left
    open: the reader is modelled for every behaviour of those calls.  A
    panic is [None]; what the logger receives is returned beside the
    result. *)

Module strings.

(** [len(s)] *)
Definition len (s : string) : Z := Z.of_nat (String.length s).

(** the slice expression [s[lo:]]; it panics outside [0, len(s)] *)
Definition from (s : string) (lo : Z) : option string :=
  if (lo <? 0) || (len s <? lo) then None
  else Some (String.substring (Z.to_nat lo) (String.length s - Z.to_nat lo) s).

(** the index expression [s[0]]; it panics on the empty string *)
Definition first (s : string) : option Ascii.ascii :=
  match s with
  | String c _ => Some c
  | EmptyString => None
  end.

(** the number sign and the double quote *)
Definition hash : Ascii.ascii := Ascii.ascii_of_nat 35.
Definition quote : Ascii.ascii := Ascii.ascii_of_nat 34.

(** [strings.HasSuffix] of the standard library:
    [len(s) >= len(suffix) && s[len(s)-len(suffix):] == suffix] *)
Definition HasSuffix (s suffix : string) : bool :=
  (len suffix <=? len s)
  && bool_decide (from s (len s - len suffix) = Some suffix).

End strings.

Module files.

(** an [os.FileInfo], as far as [gatherDir] reads it *)
Record FileInfo := mkFileInfo {
  Name : string;
  IsDir : bool
}.

(** the calls that leave the package: [util.IsDir], [ioutil.ReadDir] with
    its two results, [path.Join] of two elements, [strings.Fields], and
    [strconv.Unquote] with its two results *)
Record world := mkWorld {
  util_IsDir : string -> bool;
  ioutil_ReadDir : string -> list FileInfo * option string;
  path_Join : string -> string -> string;
  strings_Fields : string -> list string;
  strconv_Unquote : string -> string * option string
}.

(** what the logger receives *)
Inductive logLine :=
  | Warn (msg : string) (path : string)
  | Error (msg : string) (err : string) (path : string)
  | Info (msg : string) (missing_field : string).

(** lines 42-65.  In the condition of line 59 the conjunction binds
    tighter than the alternative, as Go parses it. *)
Definition gatherDir (w : world) (cpath : string) : list string * list logLine :=
  let toReturn : list string := [] in
  let '(files, err) := ioutil_ReadDir w cpath in
  let logs :=
    match err with
    | Some e => [Error "Error when reading directory" e cpath]
    | None => []
    end in
  (foldl (fun toReturn file =>
            if (negb (IsDir file) && strings.HasSuffix (Name file) ".gz")
               || strings.HasSuffix (Name file) ".log"
            then toReturn ++ [path_Join w cpath (Name file)]
            else toReturn)
         toReturn files,
   logs).

(** lines 22-39 *)
Definition GatherLogFiles (w : world) (paths : list string)
  : list string * list logLine :=
  foldl (fun '(toReturn, logs) path =>
           if util_IsDir w path then
             (toReturn ++ fst (gatherDir w path), logs ++ snd (gatherDir w path))
           else if strings.HasSuffix path ".gz" || strings.HasSuffix path ".log"
           then (toReturn ++ [path], logs)
           else (toReturn, logs ++ [Warn "Ignoring non .log or .gz file" path]))
        ([], []) paths.

(** which reader the scanner of [GetFileScanner] is built on *)
Inductive scannerSource := GzipReader | FileHandle.

(** lines 68-87, for a file handle of name [name]; [gzipErr] is the error
    of [gzip.NewReader], if it returns one *)
Definition GetFileScanner (name : string) (gzipErr : option string)
  : option (scannerSource + string) :=
  ftype ← strings.from name (strings.len name - 3);
  if bool_decide (ftype ≠ ".gz") && bool_decide (ftype ≠ "log")
  then Some (inr "filetype not recognized")
  else if bool_decide (ftype = ".gz") then
    match gzipErr with
    | Some err => Some (inr err)
    | None => Some (inl GzipReader)
    end
  else Some (inl FileHandle).

(** The declaration of BroHeader is not part of the sources at hand; the
    fields are the ones [reading.go] reads and assigns. *)
Record BroHeader := mkBroHeader {
  Names : list string;
  Types : list string;
  Separator : string;
  SetSep : string;
  Empty : string;
  Unset : string;
  ObjType : string
}.

(** [new(BroHeader)] *)
Definition newBroHeader : BroHeader :=
  mkBroHeader [] [] EmptyString EmptyString EmptyString EmptyString EmptyString.

(** a [bufio.Scanner]: the tokens [Scan] has still to deliver, each with
    whether [Err] is non-nil once it is delivered *)
Definition scanner := list (string * bool).

(** lines 131-134 *)
Definition checkHeader (toReturn : BroHeader) : BroHeader * option string :=
  if bool_decide (length (Names toReturn) ≠ length (Types toReturn))
  then (toReturn, Some "name / type mismatch")
  else (toReturn, None).

(** the switch of lines 105-124 on one comment line: the header after it
    and the error of an early return *)
Definition headerLine (w : world) (toReturn : BroHeader) (text : string)
  : option (BroHeader * option string) :=
  let line := strings_Fields w text in
  l0 ← Go.index line 0;
  key ← strings.from l0 1;
  if bool_decide (key = "separator") then
    l1 ← Go.index line 1;
    let '(v, err) :=
      strconv_Unquote w (String.append (String strings.quote l1) (String strings.quote EmptyString)) in
    Some (mkBroHeader (Names toReturn) (Types toReturn) v (SetSep toReturn)
                      (Empty toReturn) (Unset toReturn) (ObjType toReturn), err)
  else if bool_decide (key = "set_separator") then
    l1 ← Go.index line 1;
    Some (mkBroHeader (Names toReturn) (Types toReturn) (Separator toReturn) l1
                      (Empty toReturn) (Unset toReturn) (ObjType toReturn), None)
  else if bool_decide (key = "empty_field") then
    l1 ← Go.index line 1;
    Some (mkBroHeader (Names toReturn) (Types toReturn) (Separator toReturn)
                      (SetSep toReturn) l1 (Unset toReturn) (ObjType toReturn), None)
  else if bool_decide (key = "unset_field") then
    l1 ← Go.index line 1;
    Some (mkBroHeader (Names toReturn) (Types toReturn) (Separator toReturn)
                      (SetSep toReturn) (Empty toReturn) l1 (ObjType toReturn), None)
  else if bool_decide (key = "fields") then
    rest ← (match line with [] => None | _ :: rest => Some rest end);
    Some (mkBroHeader rest (Types toReturn) (Separator toReturn)
                      (SetSep toReturn) (Empty toReturn) (Unset toReturn)
                      (ObjType toReturn), None)
  else if bool_decide (key = "types") then
    rest ← (match line with [] => None | _ :: rest => Some rest end);
    Some (mkBroHeader (Names toReturn) rest (Separator toReturn)
                      (SetSep toReturn) (Empty toReturn) (Unset toReturn)
                      (ObjType toReturn), None)
  else if bool_decide (key = "path") then
    l1 ← Go.index line 1;
    Some (mkBroHeader (Names toReturn) (Types toReturn) (Separator toReturn)
                      (SetSep toReturn) (Empty toReturn) (Unset toReturn) l1, None)
  else Some (toReturn, None).

(** the loop of lines 95-129 and the check after it: the header, the error
    and the tokens left in the scanner *)
Fixpoint scanLoop (w : world) (toReturn : BroHeader) (fileScanner : scanner)
  : option (BroHeader * option string * scanner) :=
  match fileScanner with
  | [] => Some (checkHeader toReturn, [])
  | (text, err) :: rest =>
      if err then Some (checkHeader toReturn, rest)
      else if strings.len text <? 1 then scanLoop w toReturn rest
      else
        c ← strings.first text;
        if bool_decide (c = strings.hash) then
          r ← headerLine w toReturn text;
          match r with
          | (toReturn, Some e) => Some (toReturn, Some e, rest)
          | (toReturn, None) => scanLoop w toReturn rest
          end
        else Some (checkHeader toReturn, rest)
  end.

(** lines 93-135 *)
Definition scanTSVHeader (w : world) (fileScanner : scanner)
  : option (BroHeader * option string * scanner) :=
  scanLoop w newBroHeader fileScanner.

(** the tags [bro] and [brotype] of a field of the struct behind a
    [pt.BroData]; [Tag.Get] gives the empty string for a tag that is not
    there *)
Record structField := mkStructField {
  bro : string;
  brotype : string
}.

(** the local type [lookup] of lines 143-146 *)
Record lookupT := mkLookup {
  broType : string;
  offset : Z
}.

(** the loop of lines 162-177 *)
Fixpoint walkFields (i : Z) (fields : list structField)
    (fieldTypes : gmap string lookupT) (toReturn : gmap string Z)
  : (gmap string lookupT * gmap string Z) + string :=
  match fields with
  | [] => inl (fieldTypes, toReturn)
  | structField :: fields =>
      let broName := bro structField in
      let broType := brotype structField in
      if (strings.len broName =? 0) && (strings.len broType =? 0)
      then walkFields (i + 1) fields fieldTypes toReturn
      else if (strings.len broName =? 0) || (strings.len broType =? 0)
      then inr "incomplete bro variable"%string
      else walkFields (i + 1) fields
             (<[broName := mkLookup broType i]> fieldTypes)
             (<[broName := i]> toReturn)
  end.

(** the loop of lines 181-202: the error it returns, if any, and the log *)
Fixpoint walkNames (header : BroHeader) (fieldTypes : gmap string lookupT)
    (index : Z) (names : list string) (logs : list logLine)
  : option (option string * list logLine) :=
  match names with
  | [] => Some (None, logs)
  | name :: names =>
      match fieldTypes !! name with
      | None =>
          walkNames header fieldTypes (index + 1) names
            (logs ++ [Info "the log contains a field with no candidate in the data structure" name])
      | Some lu =>
          t ← Go.index (Types header) index;
          if bool_decide (t ≠ broType lu)
          then Some (Some "type mismatch found in log"%string, logs)
          else walkNames header fieldTypes (index + 1) names logs
      end
  end.

(** lines 140-205, for a data struct with the fields [fields] *)
Definition mapBroHeaderToParserType (header : BroHeader)
    (fields : list structField)
  : option ((gmap string Z + string) * list logLine) :=
  match walkFields 0 fields ∅ ∅ with
  | inr e => Some (inr e, [])
  | inl (fieldTypes, toReturn) =>
      r ← walkNames header fieldTypes 0 (Names header) [];
      match r with
      | (Some e, logs) => Some (inr e, logs)
      | (None, logs) => Some (inl toReturn, logs)
      end
  end.

End files.

(** ** Inputs for the reader *)

Module Sample.

(** a world without directories, whose Fields returns the line as its one
    field and whose Unquote returns its argument *)
Definition world : files.world :=
  files.mkWorld (fun _ => false) (fun _ => ([], None))
                (fun a b => String.append a b) (fun s => [s])
                (fun s => (s, None)).

Definition paths : list string := ["conn.log"; "notes.txt"; "dns.log.gz"]%string.

Definition tokens : files.scanner :=
  [("#close", false); ("1.5 a", false); ("2.5 b", false)]%string.

Definition header : files.BroHeader :=
  files.mkBroHeader ["ts"; "uid"; "extra"]%string ["time"; "string"; "count"]%string
                    EmptyString EmptyString EmptyString EmptyString EmptyString.

Definition fields : list files.structField :=
  [files.mkStructField "ts" "time"; files.mkStructField EmptyString EmptyString;
   files.mkStructField "uid" "string"].

Definition index_map : gmap string Z := <["uid"%string := 2]> (<["ts"%string := 0]> ∅).

Definition unmatched : list files.logLine :=
  [files.Info "the log contains a field with no candidate in the data structure"
              "extra"].

(** Fields for lines whose fields are separated by spaces *)
Fixpoint split_spaces (cur s : string) : list string :=
  match s with
  | EmptyString => if bool_decide (cur = EmptyString) then [] else [cur]
  | String c s' =>
      if bool_decide (c = Ascii.ascii_of_nat 32) then
        if bool_decide (cur = EmptyString) then split_spaces EmptyString s'
        else cur :: split_spaces EmptyString s'
      else split_spaces (String.append cur (String c EmptyString)) s'
  end.

(** the same world with that Fields *)
Definition spaced : files.world :=
  files.mkWorld (fun _ => false) (fun _ => ([], None))
                (fun a b => String.append a b) (split_spaces EmptyString)
                (fun s => (s, None)).

(** a log with the header of [header] and one entry *)
Definition log_tokens : files.scanner :=
  [("#fields ts uid extra", false); ("#types time string count", false);
   ("1.5 a 7", false)]%string.

End Sample.

(** * Facts about the binary64 model *)

Module F64Facts.
Import F64.

Ltac divmod a b :=
  let H := fresh "Hdm" in let H' := fresh "Hdm" in
  pose proof (Z.div_mod a b) as H;
  pose proof (Z.mod_pos_bound a b) as H'.

Lemma rne_bounds a b : 0 < b -> a / b <= rne a b <= a / b + 1.
Proof.
  intros Hb. unfold rne.
  destruct (2 * (a mod b) ?= b); [destruct (Z.even (a / b))|..]; lia.
Qed.

Lemma rne_le a b c : 0 < b -> a <= c * b -> rne a b <= c.
Proof.
  intros Hb Hc. unfold rne. divmod a b.
  assert (a / b <= c) by nia.
  destruct (Z.compare_spec (2 * (a mod b)) b) as [E|E|E];
    [destruct (Z.even (a / b))|..]; try lia; nia.
Qed.

Lemma rne_ge a b c : 0 < b -> c * b <= a -> c <= rne a b.
Proof.
  intros Hb Hc. pose proof (rne_bounds a b Hb).
  assert (c <= a / b) by (apply Z.div_le_lower_bound; lia). lia.
Qed.

Lemma rne_exact c b : 0 < b -> rne (c * b) b = c.
Proof.
  intros Hb. apply Z.le_antisymm; [apply rne_le|apply rne_ge]; lia.
Qed.

Lemma rne_mono a1 a2 b : 0 < b -> a1 <= a2 -> rne a1 b <= rne a2 b.
Proof.
  intros Hb Ha.
  assert (Hq : a1 / b <= a2 / b) by (apply Z.div_le_mono; lia).
  destruct (Z.eq_dec (a1 / b) (a2 / b)) as [E|E].
  - unfold rne. rewrite <- E. divmod a1 b. divmod a2 b.
    destruct (Z.compare_spec (2 * (a1 mod b)) b), (Z.compare_spec (2 * (a2 mod b)) b);
      destruct (Z.even (a1 / b)); try lia; nia.
  - pose proof (rne_bounds a1 b Hb). pose proof (rne_bounds a2 b Hb). lia.
Qed.

Lemma binade_shift_nonneg q : 0 <= binade_shift q.
Proof. unfold binade_shift. lia. Qed.

Lemma pow2_pos e : 0 <= e -> 0 < 2 ^ e.
Proof. intros. apply Z.pow_pos_nonneg; lia. Qed.

Lemma pow2_split e j : 0 <= j <= e -> 2 ^ e = 2 ^ (e - j) * 2 ^ j.
Proof. intros. rewrite <- Z.pow_add_r by lia. f_equal. lia. Qed.

(** above the first binades the quotient has at least 53 significant bits *)
Lemma binade_shift_pos_lower q :
  0 < binade_shift q -> 2 ^ (52 + binade_shift q) <= q.
Proof.
  unfold binade_shift. intros Hj.
  assert (Hl : 52 < Z.log2 q) by lia.
  assert (Hq : 0 < q).
  { destruct (Z.lt_ge_cases 0 q) as [|Hn]; [done|].
    rewrite (Z.log2_nonpos q) in Hl by lia. lia. }
  replace (52 + Z.max 0 (Z.log2 q - 52)) with (Z.log2 q) by lia.
  apply (Z.log2_spec q Hq).
Qed.

Lemma binade_shift_upper q : 0 <= q -> q < 2 ^ (53 + binade_shift q).
Proof.
  intros Hq. unfold binade_shift.
  destruct (Z.eq_dec q 0) as [->|Hn].
  { apply pow2_pos. lia. }
  pose proof (Z.log2_spec q ltac:(lia)) as [_ Hu].
  eapply Z.lt_le_trans; [exact Hu|].
  apply Z.pow_le_mono_r; lia.
Qed.

Lemma binade_shift_mono q1 q2 : q1 <= q2 -> binade_shift q1 <= binade_shift q2.
Proof.
  intros H. unfold binade_shift. pose proof (Z.log2_le_mono _ _ H). lia.
Qed.

Lemma rnd_pos_nonneg a b : 0 <= a -> 0 < b -> 0 <= rnd_pos a b.
Proof.
  intros Ha Hb. unfold rnd_pos.
  pose proof (binade_shift_nonneg (a / b)) as Hj.
  pose proof (pow2_pos _ Hj).
  assert (0 <= rne a (b * 2 ^ binade_shift (a / b))).
  { apply (rne_ge _ _ 0); lia. }
  lia.
Qed.

(** a representable upper bound survives rounding *)
Lemma rnd_pos_le a b m e :
  0 <= a -> 0 < b -> 0 <= m < 2 ^ 53 -> 0 <= e ->
  a <= m * 2 ^ e * b -> rnd_pos a b <= m * 2 ^ e.
Proof.
  intros Ha Hb Hm He Hab. unfold rnd_pos.
  set (j := binade_shift (a / b)).
  assert (Hj : 0 <= j) by apply binade_shift_nonneg.
  pose proof (pow2_pos j Hj) as Hpj.
  destruct (Z.le_gt_cases j e) as [Hje|Hje].
  - rewrite (pow2_split e j) by lia.
    pose proof (pow2_pos (e - j) ltac:(lia)).
    assert (rne a (b * 2 ^ j) <= m * 2 ^ (e - j)).
    { apply rne_le; [lia|]. rewrite (pow2_split e j) in Hab by lia. lia. }
    nia.
  - exfalso.
    pose proof (binade_shift_pos_lower (a / b) ltac:(fold j; lia)) as Hlow.
    fold j in Hlow.
    assert (Hq : a / b <= m * 2 ^ e).
    { apply Z.div_le_upper_bound; lia. }
    assert (2 ^ (53 + e) <= 2 ^ (52 + j)) by (apply Z.pow_le_mono_r; lia).
    rewrite Z.pow_add_r in H by lia.
    pose proof (pow2_pos e He). nia.
Qed.

(** a representable lower bound survives rounding *)
Lemma rnd_pos_ge a b m e :
  0 <= a -> 0 < b -> 0 <= m < 2 ^ 53 -> 0 <= e ->
  m * 2 ^ e * b <= a -> m * 2 ^ e <= rnd_pos a b.
Proof.
  intros Ha Hb Hm He Hab. unfold rnd_pos.
  set (j := binade_shift (a / b)).
  assert (Hj : 0 <= j) by apply binade_shift_nonneg.
  pose proof (pow2_pos j Hj) as Hpj.
  destruct (Z.le_gt_cases j e) as [Hje|Hje].
  - rewrite (pow2_split e j) by lia.
    pose proof (pow2_pos (e - j) ltac:(lia)).
    assert (m * 2 ^ (e - j) <= rne a (b * 2 ^ j)).
    { apply rne_ge; [lia|]. rewrite (pow2_split e j) in Hab by lia. lia. }
    nia.
  - pose proof (binade_shift_pos_lower (a / b) ltac:(fold j; lia)) as Hlow.
    fold j in Hlow.
    assert (2 ^ 52 <= rne a (b * 2 ^ j)).
    { apply rne_ge; [lia|].
      rewrite Z.pow_add_r in Hlow by lia.
      pose proof (Z.mul_div_le a b Hb). nia. }
    assert (2 ^ (53 + e) <= 2 ^ (52 + j)) by (apply Z.pow_le_mono_r; lia).
    rewrite !Z.pow_add_r in H0 by lia.
    pose proof (pow2_pos e He). nia.
Qed.

Lemma rnd_pos_exact b m e :
  0 < b -> 0 <= m < 2 ^ 53 -> 0 <= e -> rnd_pos (m * 2 ^ e * b) b = m * 2 ^ e.
Proof.
  intros Hb Hm He. pose proof (pow2_pos e He).
  apply Z.le_antisymm; [apply rnd_pos_le|apply rnd_pos_ge]; nia.
Qed.

Lemma rnd_pos_mono a1 a2 b :
  0 <= a1 -> a1 <= a2 -> 0 < b -> rnd_pos a1 b <= rnd_pos a2 b.
Proof.
  intros Ha1 Ha Hb.
  assert (Hq : a1 / b <= a2 / b) by (apply Z.div_le_mono; lia).
  pose proof (binade_shift_mono _ _ Hq) as Hj.
  pose proof (binade_shift_nonneg (a1 / b)) as Hj1.
  destruct (Z.eq_dec (binade_shift (a1 / b)) (binade_shift (a2 / b))) as [E|E].
  - unfold rnd_pos. rewrite <- E.
    pose proof (pow2_pos _ Hj1).
    apply Z.mul_le_mono_nonneg_l; [lia|]. apply rne_mono; lia.
  - set (j1 := binade_shift (a1 / b)) in *. set (j2 := binade_shift (a2 / b)) in *.
    transitivity (2 ^ 52 * 2 ^ (j1 + 1)).
    + apply rnd_pos_le; try lia.
      pose proof (binade_shift_upper (a1 / b) ltac:(apply Z.div_pos; lia)) as Hu.
      fold j1 in Hu.
      replace (53 + j1) with (52 + (j1 + 1)) in Hu by lia.
      rewrite Z.pow_add_r in Hu by lia.
      pose proof (Z.div_mod a1 b ltac:(lia)). pose proof (Z.mod_pos_bound a1 b Hb).
      nia.
    + transitivity (2 ^ 52 * 2 ^ j2).
      * apply Z.mul_le_mono_nonneg_l; [lia|]. apply Z.pow_le_mono_r; lia.
      * apply rnd_pos_ge; try lia.
        pose proof (binade_shift_pos_lower (a2 / b) ltac:(fold j2; lia)) as Hlow.
        fold j2 in Hlow. rewrite Z.pow_add_r in Hlow by lia.
        pose proof (Z.mul_div_le a2 b Hb). nia.
Qed.

Lemma one_u_eq : one_u = 2 ^ 1074.
Proof. reflexivity. Qed.

Lemma huge_eq : huge = one_u * 2 ^ 1024.
Proof. vm_compute. reflexivity. Qed.

Lemma one_u_pos : 0 < one_u.
Proof. rewrite one_u_eq. apply pow2_pos. lia. Qed.

#[local] Opaque one_u huge.

Lemma Rep_nonneg c : Rep c -> 0 <= c.
Proof. intros (m & e & Hm & He & ->). pose proof (pow2_pos e He). nia. Qed.

Lemma Rep_int k : 0 <= k < 2 ^ 53 -> Rep (k * one_u).
Proof. intros. exists k, 1074. rewrite one_u_eq. lia. Qed.

Lemma Rep_quarters k : 0 <= k < 2 ^ 53 -> Rep (k * 2 ^ 1072).
Proof. intros. exists k, 1072. lia. Qed.

Lemma int_lt_huge k : 0 <= k < 2 ^ 1024 -> k * one_u < huge.
Proof. intros. rewrite huge_eq. pose proof one_u_pos. nia. Qed.

Lemma rnd_pos_range a b lo hi :
  0 <= a -> 0 < b -> Rep lo -> Rep hi -> lo * b <= a <= hi * b ->
  lo <= rnd_pos a b <= hi.
Proof.
  intros Ha Hb (ml & el & Hml & Hel & ->) (mh & eh & Hmh & Heh & ->) [H1 H2].
  split; [apply rnd_pos_ge|apply rnd_pos_le]; lia.
Qed.

Lemma round_finite neg a b :
  rnd_pos a b < huge ->
  is_finite (round neg a b) = true /\
  val (round neg a b) = (if neg then - rnd_pos a b else rnd_pos a b).
Proof.
  intros H. unfold round. cbv zeta.
  destruct (Z.leb_spec huge (rnd_pos a b)); [lia|].
  destruct (Z.eqb_spec (rnd_pos a b) 0) as [E|E]; destruct neg; simpl; auto; lia.
Qed.

Lemma round_false_cases a b :
  0 <= a -> 0 < b ->
  round false a b = FInf false \/ exists n, 0 <= n /\ round false a b = FFin n.
Proof.
  intros Ha Hb. pose proof (rnd_pos_nonneg a b Ha Hb). unfold round. cbv zeta.
  destruct (Z.leb_spec huge (rnd_pos a b)); [by left|right].
  destruct (Z.eqb_spec (rnd_pos a b) 0) as [E|E]; simpl;
    [exists 0|exists (rnd_pos a b)]; split; auto; lia.
Qed.

Lemma finite_sign_nonneg x : is_finite x = true -> 0 < val x -> sign x = false.
Proof. destruct x; simpl; try done; intros; lia. Qed.

Lemma finite_zero_cases x :
  is_finite x = true -> val x = 0 -> x = FFin 0 \/ x = FNegZero.
Proof. destruct x; simpl; try done; intros; subst; auto. Qed.

(** ** Conversion from int64 *)

Lemma of_int64_val z :
  Z.abs z <= 2 ^ 63 ->
  is_finite (of_int64 z) = true /\
  val (of_int64 z) = Z.sgn z * rnd_pos (Z.abs z * one_u) 1.
Proof.
  intros Hz. pose proof one_u_pos as HU.
  assert (Hr : rnd_pos (Z.abs z * one_u) 1 <= 2 ^ 63 * one_u).
  { rewrite one_u_eq. replace (2 ^ 63 * 2 ^ 1074) with (1 * 2 ^ (63 + 1074)).
    2:{ rewrite Z.pow_add_r by lia. lia. }
    apply rnd_pos_le; lia. }
  assert (2 ^ 63 * one_u < huge) by (apply int_lt_huge; split; [lia|]; apply Z.pow_lt_mono_r; lia).
  destruct (round_finite (z <? 0) (Z.abs z * one_u) 1) as [Hf Hv]; [lia|].
  unfold of_int64. split; [done|]. rewrite Hv.
  destruct (Z.ltb_spec z 0).
  - rewrite Z.sgn_neg by lia. lia.
  - destruct (Z.eq_dec z 0) as [->|].
    + simpl. assert (rnd_pos 0 1 <= 0 * 2 ^ 0) by (apply rnd_pos_le; lia). 
      pose proof (rnd_pos_nonneg 0 1 ltac:(lia) ltac:(lia)).
      replace (Z.abs 0 * one_u) with 0 by lia. lia.
    + rewrite Z.sgn_pos by lia. lia.
Qed.

Lemma of_int64_exact z : Z.abs z < 2 ^ 53 -> of_int64 z = FFin (z * one_u).
Proof.
  intros Hz. pose proof one_u_pos as HU. unfold of_int64, round. cbv zeta.
  assert (E : rnd_pos (Z.abs z * one_u) 1 = Z.abs z * one_u).
  { rewrite one_u_eq.
    replace (Z.abs z * 2 ^ 1074) with (Z.abs z * 2 ^ 1074 * 1) at 1 by lia.
    apply rnd_pos_exact; lia. }
  rewrite E.
  assert (Z.abs z * one_u < huge) by (apply int_lt_huge; split; [lia|];
    eapply Z.lt_trans; [exact Hz|]; apply Z.pow_lt_mono_r; lia).
  destruct (Z.leb_spec huge (Z.abs z * one_u)); [lia|].
  destruct (Z.eqb_spec (Z.abs z * one_u) 0) as [E0|E0].
  - assert (z = 0) by nia. subst. reflexivity.
  - destruct (Z.ltb_spec z 0); f_equal; lia.
Qed.

Lemma of_int64_mono z1 z2 :
  Z.abs z1 <= 2 ^ 63 -> Z.abs z2 <= 2 ^ 63 -> z1 <= z2 ->
  val (of_int64 z1) <= val (of_int64 z2).
Proof.
  intros H1 H2 Hle. pose proof one_u_pos as HU.
  destruct (of_int64_val z1 H1) as [_ ->]. destruct (of_int64_val z2 H2) as [_ ->].
  pose proof (rnd_pos_nonneg (Z.abs z1 * one_u) 1 ltac:(nia) ltac:(lia)).
  pose proof (rnd_pos_nonneg (Z.abs z2 * one_u) 1 ltac:(nia) ltac:(lia)).
  destruct (Z.lt_trichotomy z1 0) as [N1|[->|P1]];
    destruct (Z.lt_trichotomy z2 0) as [N2|[->|P2]]; try lia;
    rewrite ?(Z.sgn_neg z1), ?(Z.sgn_neg z2), ?(Z.sgn_pos z1), ?(Z.sgn_pos z2) by lia;
    simpl; try lia.
  - assert (rnd_pos (Z.abs z2 * one_u) 1 <= rnd_pos (Z.abs z1 * one_u) 1)
      by (apply rnd_pos_mono; nia). lia.
  - assert (rnd_pos (Z.abs z1 * one_u) 1 <= rnd_pos (Z.abs z2 * one_u) 1)
      by (apply rnd_pos_mono; nia). lia.
Qed.

(** ** Literals *)

Lemma lit_int k : 0 <= k < 2 ^ 53 -> lit k 1 = FFin (k * one_u).
Proof.
  intros Hk. unfold lit. change (round (k <? 0) (Z.abs k * one_u) 1) with (of_int64 k).
  apply of_int64_exact. lia.
Qed.

Lemma lit_quarter : lit 25 100 = FFin (1 * 2 ^ 1072).
Proof. vm_compute. reflexivity. Qed.
Lemma lit_half : lit 5 10 = FFin (2 * 2 ^ 1072).
Proof. vm_compute. reflexivity. Qed.
Lemma lit_three_quarters : lit 75 100 = FFin (3 * 2 ^ 1072).
Proof. vm_compute. reflexivity. Qed.

(** ** Operations on finite values *)

Lemma round_fin a b lo hi :
  0 <= a -> 0 < b -> Rep lo -> Rep hi -> hi < huge -> lo * b <= a <= hi * b ->
  fin_in lo hi (round false a b).
Proof.
  intros Ha Hb Hlo Hhi Hh Hab.
  pose proof (rnd_pos_range a b lo hi Ha Hb Hlo Hhi Hab).
  unfold round. cbv zeta.
  destruct (Z.leb_spec huge (rnd_pos a b)); [lia|].
  destruct (Z.eqb_spec (rnd_pos a b) 0) as [E|E]; simpl.
  - exists 0. split; [done|lia].
  - exists (rnd_pos a b). split; [done|lia].
Qed.

Lemma add_fin a b lo hi :
  Rep lo -> Rep hi -> hi < huge -> lo <= a + b <= hi ->
  fin_in lo hi (add (FFin a) (FFin b)).
Proof.
  intros Hlo Hhi Hh Hab. pose proof (Rep_nonneg _ Hlo).
  unfold add. cbv zeta. simpl val.
  destruct (Z.eqb_spec (a + b) 0) as [E|E].
  - replace (sign (FFin a) && sign (FFin b)) with false.
    + exists 0. split; [done|lia].
    + simpl. destruct (Z.ltb_spec a 0), (Z.ltb_spec b 0); try done. lia.
  - destruct (Z.ltb_spec (a + b) 0); [lia|].
    apply round_fin; try done; lia.
Qed.

Lemma neg_fin_val b : is_finite (neg (FFin b)) = true /\ val (neg (FFin b)) = - b.
Proof. destruct b; simpl; auto. Qed.

Lemma add_finite_unfold x y :
  is_finite x = true -> is_finite y = true ->
  add x y = (let s := val x + val y in
             if s =? 0 then zero (sign x && sign y)
             else round (s <? 0) (Z.abs s) 1).
Proof. destruct x, y; simpl; try done. Qed.

Lemma sub_fin a b lo hi :
  Rep lo -> Rep hi -> hi < huge -> lo <= a - b <= hi ->
  fin_in lo hi (sub (FFin a) (FFin b)).
Proof.
  intros Hlo Hhi Hh Hab. pose proof (Rep_nonneg _ Hlo).
  unfold sub. destruct (neg_fin_val b) as [Hf Hv].
  rewrite add_finite_unfold by done. cbv zeta. rewrite Hv. simpl val.
  replace (a + - b) with (a - b) by lia.
  destruct (Z.eqb_spec (a - b) 0) as [E|E].
  - replace (sign (FFin a) && sign (neg (FFin b))) with false.
    + exists 0. split; [done|lia].
    + destruct b; simpl; destruct (Z.ltb_spec a 0); try done; lia.
  - destruct (Z.ltb_spec (a - b) 0); [lia|].
    apply round_fin; try done; lia.
Qed.

Lemma sub_neg_lt0 a b :
  a < b -> lt (sub (FFin a) (FFin b)) (FFin 0) = true.
Proof.
  intros Hab. unfold sub. destruct (neg_fin_val b) as [Hf Hv].
  rewrite add_finite_unfold by done. cbv zeta. rewrite Hv. simpl val.
  destruct (Z.eqb_spec (a + - b) 0) as [E|E]; [lia|].
  destruct (Z.ltb_spec (a + - b) 0); [|lia].
  unfold round. cbv zeta.
  assert (1 * 2 ^ 0 <= rnd_pos (Z.abs (a + - b)) 1) by (apply rnd_pos_ge; lia).
  destruct (Z.leb_spec huge (rnd_pos (Z.abs (a + - b)) 1)); [done|].
  destruct (Z.eqb_spec (rnd_pos (Z.abs (a + - b)) 1) 0); [lia|].
  simpl. apply Z.ltb_lt. lia.
Qed.

Lemma div_fin a b lo hi :
  0 <= a -> 0 < b -> Rep lo -> Rep hi -> hi < huge ->
  lo * b <= a * one_u <= hi * b ->
  fin_in lo hi (div (FFin a) (FFin b)).
Proof.
  intros Ha Hb Hlo Hhi Hh Hab. pose proof one_u_pos.
  unfold div. simpl val. simpl sign.
  destruct (Z.eqb_spec b 0); [lia|].
  destruct (Z.ltb_spec a 0); [lia|]. destruct (Z.ltb_spec b 0); [lia|].
  simpl xorb. rewrite !Z.abs_eq by lia.
  apply round_fin; try done; nia.
Qed.

Lemma mul_fin a b lo hi :
  0 <= a -> 0 <= b -> Rep lo -> Rep hi -> hi < huge ->
  lo * one_u <= a * b <= hi * one_u ->
  fin_in lo hi (mul (FFin a) (FFin b)).
Proof.
  intros Ha Hb Hlo Hhi Hh Hab. pose proof one_u_pos.
  unfold mul. simpl val. simpl sign.
  destruct (Z.ltb_spec a 0); [lia|]. destruct (Z.ltb_spec b 0); [lia|].
  simpl xorb. rewrite !Z.abs_eq by lia.
  apply round_fin; try done; nia.
Qed.

Lemma ceil_fin n k :
  0 <= n <= k * one_u ->
  exists j, 0 <= j <= k /\ ceil (FFin n) = FFin (j * one_u).
Proof.
  intros Hn. pose proof one_u_pos as HU. unfold ceil. cbv zeta.
  set (j := - (- n / one_u)).
  assert (Hj : 0 <= j <= k).
  { subst j. pose proof (Z.div_mod (- n) one_u ltac:(lia)).
    pose proof (Z.mod_pos_bound (- n) one_u HU). nia. }
  exists j. split; [done|].
  destruct (Z.eqb_spec j 0) as [->|]; [|done].
  destruct (Z.ltb_spec n 0); [lia|]. reflexivity.
Qed.

(** the quotient of two finite values is at most one in magnitude when the
    dividend is at most the divisor in magnitude *)
Lemma abs_div_le_one a b :
  b <> 0 -> Z.abs a <= Z.abs b ->
  fin_in 0 one_u (abs (div (FFin a) (FFin b))).
Proof.
  intros Hb Hab. pose proof one_u_pos as HU.
  unfold div. simpl val.
  destruct (Z.eqb_spec b 0); [lia|].
  set (s := xorb _ _).
  assert (Hr : 0 <= rnd_pos (Z.abs a * one_u) (Z.abs b) <= one_u).
  { rewrite one_u_eq at 3. replace (2 ^ 1074) with (1 * 2 ^ 1074) by lia.
    split; [apply rnd_pos_nonneg; nia|].
    apply rnd_pos_le; try lia. rewrite <- one_u_eq. nia. }
  assert (one_u < huge).
  { replace one_u with (1 * one_u) by lia. apply int_lt_huge. split; [lia|].
    apply (Z.pow_lt_mono_r 2 0 1024); lia. }
  unfold round. cbv zeta.
  destruct (Z.leb_spec huge (rnd_pos (Z.abs a * one_u) (Z.abs b))); [lia|].
  destruct (Z.eqb_spec (rnd_pos (Z.abs a * one_u) (Z.abs b)) 0) as [E|E].
  - exists 0. split; [|lia]. destruct s; reflexivity.
  - exists (rnd_pos (Z.abs a * one_u) (Z.abs b)). split; [|lia].
    destruct s; simpl; f_equal; lia.
Qed.

Lemma of_int64_fin z :
  Z.abs z <= 2 ^ 63 -> of_int64 z = FFin (val (of_int64 z)).
Proof.
  intros Hz. pose proof one_u_pos as HU.
  unfold of_int64, round. cbv zeta.
  destruct (Z.leb_spec huge (rnd_pos (Z.abs z * one_u) 1)) as [Hh|Hh].
  { exfalso. destruct (of_int64_val z Hz) as [Hf _].
    unfold of_int64, round in Hf. cbv zeta in Hf.
    destruct (Z.leb_spec huge (rnd_pos (Z.abs z * one_u) 1)); [done|lia]. }
  destruct (Z.eqb_spec (rnd_pos (Z.abs z * one_u) 1) 0) as [E|E]; [|done].
  destruct (Z.ltb_spec z 0); [|done].
  exfalso.
  assert (1 * 2 ^ 1074 <= rnd_pos (Z.abs z * one_u) 1).
  { apply rnd_pos_ge; try lia. rewrite <- one_u_eq. nia. }
  lia.
Qed.

Lemma of_int64_ge_one z :
  1 <= z <= 2 ^ 63 -> one_u <= val (of_int64 z).
Proof.
  intros Hz. pose proof one_u_pos as HU.
  destruct (of_int64_val z ltac:(lia)) as [_ ->].
  rewrite Z.sgn_pos by lia.
  assert (1 * 2 ^ 1074 <= rnd_pos (Z.abs z * one_u) 1).
  { apply rnd_pos_ge; try lia. rewrite <- one_u_eq. nia. }
  rewrite one_u_eq at 1. lia.
Qed.

End F64Facts.

(** * Facts about the loops and the count map *)

Module ListFacts.

Lemma for_up_fill {A} (g : Z -> A) (body : Z -> list A -> option (list A)) (L : nat) :
  (forall j d, 0 <= j < Z.of_nat L -> length d = L ->
     body j d = Some (<[Z.to_nat j := g j]> d)) ->
  forall m i d, length d = L -> 0 <= i -> i + Z.of_nat m = Z.of_nat L ->
    exists d', Go.for_up m i body d = Some d' /\ length d' = L /\
      (forall j : nat, Z.of_nat j < i -> d' !! j = d !! j) /\
      (forall j : nat, i <= Z.of_nat j < Z.of_nat L -> d' !! j = Some (g (Z.of_nat j))).
Proof.
  intros Hbody. induction m as [|m IH]; intros i d Hd Hi Him.
  - exists d. simpl. repeat split; auto. intros j Hj. lia.
  - simpl. rewrite Hbody by lia. simpl.
    destruct (IH (i + 1) (<[Z.to_nat i := g i]> d)) as (d' & Hrun & Hlen & Hlow & Hhigh).
    + by rewrite length_insert.
    + lia.
    + lia.
    + exists d'. repeat split; auto.
      * intros j Hj. rewrite Hlow by lia. apply list_lookup_insert_ne. lia.
      * intros j Hj. destruct (Z.eq_dec (Z.of_nat j) i) as [E|E].
        -- rewrite Hlow by lia. subst i. rewrite Nat2Z.id.
           apply list_lookup_insert_eq. lia.
        -- apply Hhigh. lia.
Qed.

Lemma for_range_fill {A} (g : Z -> A) (body : Z -> list A -> option (list A)) (d : list A) :
  (forall j d', 0 <= j < Go.len d -> length d' = length d ->
     body j d' = Some (<[Z.to_nat j := g j]> d')) ->
  Go.for_range 0 (Go.len d) body d = Some (g <$> seqZ 0 (Go.len d)).
Proof.
  intros Hbody. unfold Go.for_range, Go.len in *.
  destruct (for_up_fill g body (length d) Hbody (Z.to_nat (Z.of_nat (length d) - 0)) 0 d)
    as (d' & Hrun & Hlen & _ & Hhigh); [done|lia|lia|].
  rewrite Hrun. f_equal. apply list_eq. intros j.
  destruct (decide (j < length d)%nat) as [Hj|Hj].
  - rewrite Hhigh by lia. rewrite list_lookup_fmap, lookup_seqZ_lt by lia. done.
  - rewrite lookup_ge_None_2 by lia.
    rewrite list_lookup_fmap, lookup_seqZ_ge by lia. done.
Qed.

Lemma index_Some {A} (s : list A) (i : Z) x :
  Go.index s i = Some x <-> 0 <= i /\ s !! Z.to_nat i = Some x.
Proof.
  unfold Go.index. destruct (Z.ltb_spec i 0); split; try done; intros [? ?]; try lia; done.
Qed.

Lemma index_nat {A} (s : list A) (i : nat) : Go.index s (Z.of_nat i) = s !! i.
Proof. unfold Go.index. destruct (Z.ltb_spec (Z.of_nat i) 0); [lia|]. by rewrite Nat2Z.id. Qed.

Lemma store_ok {A} (s : list A) (i : Z) v :
  0 <= i < Go.len s -> Go.store s i v = Some (<[Z.to_nat i := v]> s).
Proof.
  intros Hi. unfold Go.store, Go.len in *.
  destruct (Z.leb_spec 0 i); [|lia]. destruct (Z.ltb_spec i (Z.of_nat (length s))); [done|lia].
Qed.

Lemma make_ok n : 0 <= n -> Go.make n = Some (replicate (Z.to_nat n) 0).
Proof. intros. unfold Go.make. destruct (Z.ltb_spec n 0); [lia|done]. Qed.

Lemma deltas_length ts : length (Spec.deltas ts) = (length ts - 1)%nat.
Proof.
  unfold Spec.deltas. rewrite length_zip_with, length_drop. lia.
Qed.

Lemma deltas_lookup ts (i : nat) a b :
  ts !! i = Some a -> ts !! S i = Some b ->
  Spec.deltas ts !! i = Some (Int64.sub b a).
Proof.
  intros Ha Hb. unfold Spec.deltas.
  rewrite lookup_zip_with, Ha. simpl. rewrite lookup_drop.
  replace (1 + i)%nat with (S i) by lia. rewrite Hb. done.
Qed.

(** lines 106-109: the loop fills [diff] with the deltas *)
Lemma diff_loop tsList :
  (1 <= length tsList)%nat ->
  Go.for_range 0 (Go.len tsList - 1)
    (fun i diff =>
       a ← Go.index tsList (i + 1);
       b ← Go.index tsList i;
       Go.store diff i (Int64.sub a b))
    (replicate (Z.to_nat (Go.len tsList - 1)) 0)
  = Some (Spec.deltas tsList).
Proof.
  intros Hn. set (d0 := replicate _ 0).
  assert (Hd0 : Go.len d0 = Go.len tsList - 1).
  { unfold Go.len, d0. rewrite length_replicate. unfold Go.len. lia. }
  rewrite <- Hd0.
  set (g := fun j : Z => Int64.sub (default 0 (tsList !! Z.to_nat (j + 1)))
                                  (default 0 (tsList !! Z.to_nat j))).
  rewrite (for_range_fill g).
  - f_equal. apply list_eq. intros j. rewrite list_lookup_fmap.
    destruct (decide (j < length tsList - 1)%nat) as [Hj|Hj].
    + rewrite lookup_seqZ_lt by (unfold Go.len in *; lia). simpl.
      destruct (lookup_lt_is_Some_2 tsList j ltac:(lia)) as [b Hb].
      destruct (lookup_lt_is_Some_2 tsList (S j) ltac:(lia)) as [a Ha].
      rewrite (deltas_lookup _ _ _ _ Hb Ha). unfold g.
      replace (Z.to_nat (0 + Z.of_nat j + 1)) with (S j) by lia.
      replace (Z.to_nat (0 + Z.of_nat j)) with j by lia.
      by rewrite Ha, Hb.
    + rewrite lookup_seqZ_ge by (unfold Go.len in *; lia).
      rewrite lookup_ge_None_2; [done|]. rewrite deltas_length. lia.
  - intros j d' Hj Hd'. unfold Go.len in *.
    destruct (lookup_lt_is_Some_2 tsList (Z.to_nat j) ltac:(lia)) as [b Hb].
    destruct (lookup_lt_is_Some_2 tsList (Z.to_nat (j + 1)) ltac:(lia)) as [a Ha].
    rewrite (proj2 (index_Some tsList (j + 1) a)) by (split; [lia|done]). simpl.
    rewrite (proj2 (index_Some tsList j b)) by (split; [lia|done]). simpl.
    rewrite store_ok by (unfold Go.len; lia).
    unfold g. by rewrite Ha, Hb.
Qed.

(** lines 133-136: the loop fills [devs] with the absolute deviations *)
Lemma devs_loop (diff : list Z) (tsMid : Z) :
  Go.for_range 0 (Go.len diff)
    (fun i devs =>
       d ← Go.index diff i;
       Go.store devs i (util.Abs (Int64.sub d tsMid)))
    (replicate (Z.to_nat (Go.len diff)) 0)
  = Some ((fun d => util.Abs (Int64.sub d tsMid)) <$> diff).
Proof.
  set (d0 := replicate _ 0).
  assert (Hd0 : Go.len d0 = Go.len diff).
  { unfold Go.len, d0. rewrite length_replicate. unfold Go.len. lia. }
  rewrite <- Hd0.
  set (g := fun j : Z => util.Abs (Int64.sub (default 0 (diff !! Z.to_nat j)) tsMid)).
  rewrite (for_range_fill g).
  - f_equal. apply list_eq. intros j. rewrite !list_lookup_fmap.
    destruct (decide (j < length diff)%nat) as [Hj|Hj].
    + rewrite lookup_seqZ_lt by (unfold Go.len in *; lia). simpl.
      destruct (lookup_lt_is_Some_2 diff j ltac:(lia)) as [b Hb].
      rewrite Hb. simpl. unfold g.
      replace (Z.to_nat (0 + Z.of_nat j)) with j by lia. by rewrite Hb.
    + rewrite lookup_seqZ_ge by (unfold Go.len in *; lia).
      rewrite lookup_ge_None_2; [done|]. lia.
  - intros j d' Hj Hd'. unfold Go.len in *.
    destruct (lookup_lt_is_Some_2 diff (Z.to_nat j) ltac:(lia)) as [b Hb].
    rewrite (proj2 (index_Some diff j b)) by (split; [lia|done]). simpl.
    rewrite store_ok by (unfold Go.len; lia).
    unfold g. by rewrite Hb.
Qed.

Lemma wrap_small z : Int64.min_int <= z <= Int64.max_int -> Int64.wrap z = z.
Proof.
  unfold Int64.wrap, Int64.min_int, Int64.max_int. intros.
  rewrite Z.mod_small; lia.
Qed.

Lemma wrap_range z : Int64.min_int <= Int64.wrap z <= Int64.max_int.
Proof.
  unfold Int64.wrap, Int64.min_int, Int64.max_int.
  pose proof (Z.mod_pos_bound (z + 2 ^ 63) (2 ^ 64) ltac:(lia)). lia.
Qed.

Lemma for_up_inv {S} (P : Z -> S -> Prop) (body : Z -> S -> option S) :
  forall m i s,
    P i s ->
    (forall j s, i <= j < i + Z.of_nat m -> P j s ->
       exists s', body j s = Some s' /\ P (j + 1) s') ->
    exists s', Go.for_up m i body s = Some s' /\ P (i + Z.of_nat m) s'.
Proof.
  induction m as [|m IH]; intros i s HP Hstep.
  - exists s. simpl. split; [done|]. by replace (i + Z.of_nat 0) with i by lia.
  - simpl. destruct (Hstep i s ltac:(lia) HP) as (s1 & -> & HP1). simpl.
    destruct (IH (i + 1) s1 HP1) as (s' & Hrun & HP').
    + intros j s2 Hj. apply Hstep. lia.
    + exists s'. split; [done|]. by replace (i + Z.of_nat (Datatypes.S m)) with (i + 1 + Z.of_nat m) by lia.
Qed.

Lemma for_each_inv {A S} (P : nat -> S -> Prop) (body : Z -> A -> S -> option S)
    (l : list A) :
  (forall (i : nat) x s, l !! i = Some x -> P i s ->
     exists s', body (Z.of_nat i) x s = Some s' /\ P (Datatypes.S i) s') ->
  forall k s, (k <= length l)%nat -> P k s ->
    exists s', Go.for_each_from (Z.of_nat k) (drop k l) body s = Some s' /\ P (length l) s'.
Proof.
  intros Hstep k s Hk. remember (length l - k)%nat as r eqn:Hr.
  revert k s Hk Hr. induction r as [|r IH]; intros k s Hk Hr HP.
  - rewrite drop_ge by lia. simpl. exists s. split; [done|].
    by replace (length l) with k by lia.
  - destruct (lookup_lt_is_Some_2 l k ltac:(lia)) as [x Hx].
    rewrite (drop_S _ _ _ Hx). simpl.
    destruct (Hstep k x s Hx HP) as (s1 & -> & HP1). simpl.
    replace (Z.of_nat k + 1) with (Z.of_nat (Datatypes.S k)) by lia.
    apply IH; [lia|lia|done].
Qed.

Lemma freq_nil x : freq x [] = 0.
Proof. done. Qed.

Lemma freq_snoc x l y : freq x (l ++ [y]) = freq x l + (if decide (y = x) then 1 else 0).
Proof.
  unfold freq. rewrite filter_app, length_app. 
  rewrite filter_cons, filter_nil. destruct (decide (y = x)); simpl; lia.
Qed.

Lemma freq_cons x l y : freq x (y :: l) = (if decide (y = x) then 1 else 0) + freq x l.
Proof.
  unfold freq. rewrite filter_cons. destruct (decide (y = x)); simpl; lia.
Qed.

Lemma freq_bounds x l : 0 <= freq x l <= Z.of_nat (length l).
Proof. unfold freq. pose proof (length_filter (fun y => y = x) l). lia. Qed.

Lemma freq_pos x l : 0 < freq x l <-> x ∈ l.
Proof.
  induction l as [|y l IH].
  - rewrite freq_nil. split; [lia|]. by intros ?%elem_of_nil.
  - rewrite freq_cons, elem_of_cons. pose proof (freq_bounds x l).
    destruct (decide (y = x)) as [E|E]; split.
    + auto.
    + lia.
    + intros. right. apply IH. lia.
    + intros [?|Hin]; [by subst|]. apply IH in Hin. lia.
Qed.

Lemma map_get_insert (m : gmap Z Z) k v x :
  Go.map_get (<[k := v]> m) x = if decide (k = x) then v else Go.map_get m x.
Proof.
  unfold Go.map_get. destruct (decide (k = x)) as [->|].
  - by rewrite lookup_insert_eq.
  - by rewrite lookup_insert_ne.
Qed.

Lemma StronglySorted_lt_snoc (l : list Z) x y :
  StronglySorted Z.lt l -> last l = Some y -> y < x -> StronglySorted Z.lt (l ++ [x]).
Proof.
  intros Hs Hl Hyx. apply StronglySorted_app_2; [|done|repeat constructor].
  intros a b Ha Hb. apply list_elem_of_singleton in Hb. subst b.
  destruct (decide (a = y)) as [->|Hne]; [done|].
  apply last_Some in Hl as [l' ->].
  apply elem_of_app in Ha as [Ha|Ha%list_elem_of_singleton]; [|done].
  pose proof (StronglySorted_app_1_elem_of _ _ _ _ _ Hs Ha (list_elem_of_here y [])).
  lia.
Qed.

Lemma Sorted_le_lookup (l : list Z) (i j : nat) a b :
  Sorted Z.le l -> (i <= j)%nat -> l !! i = Some a -> l !! j = Some b -> a <= b.
Proof.
  intros Hs%Sorted_StronglySorted; [|apply _]. revert i j.
  induction Hs as [|x l Hs IH Hall]; intros i j Hij Ha Hb; [done|].
  destruct i as [|i], j as [|j]; simpl in *; simplify_eq; try lia.
  - rewrite Forall_forall in Hall. apply Hall. eapply list_elem_of_lookup_2; eauto.
  - eapply IH; [|done..]. lia.
Qed.

Lemma take_S_snoc {A} (l : list A) (i : nat) x :
  l !! i = Some x -> take (S i) l = take i l ++ [x].
Proof. intros. by apply take_S_r. Qed.

Lemma countAndRemove_ok (l : list Z) :
  (1 <= length l)%nat -> Go.len l < 2 ^ 63 ->
  exists result counts,
    countAndRemoveConsecutiveDuplicates l = Some (result, counts) /\
    result <> [] /\
    (forall x, x ∈ result <-> x ∈ l) /\
    (Sorted Z.le l -> StronglySorted Z.lt result) /\
    (forall x, Go.map_get counts x = freq x l).
Proof.
  intros Hn Hlen. unfold countAndRemoveConsecutiveDuplicates.
  destruct l as [|x0 l']; [simpl in Hn; lia|].
  set (l := x0 :: l') in *.
  rewrite (proj2 (index_Some l 0 x0)) by done. simpl.
  unfold Go.for_range.
  edestruct (for_up_inv (dedup_inv l)) as (s' & Hrun & Hinv);
    [| |rewrite Hrun].
  - (* the state before the loop *)
    unfold dedup_inv. split_and!.
    + lia.
    + unfold Go.len. lia.
    + done.
    + done.
    + intros x. simpl. done.
    + intros _. repeat constructor.
    + intros x. simpl take. rewrite map_get_insert.
      rewrite freq_cons, freq_nil. unfold Go.map_get. rewrite lookup_empty. simpl.
      unfold Int64.add. rewrite wrap_small by (unfold Int64.min_int, Int64.max_int; lia).
      destruct (decide (x0 = x)); rewrite ?lookup_empty; simpl; lia.
  - (* one iteration *)
    intros j [[result counts] lst] Hj (Hi & Hlst & Hlast & Hmem & Hsort & Hcnt).
    assert (Hjn : (Z.to_nat j < length l)%nat) by (unfold Go.len in *; lia).
    destruct (lookup_lt_is_Some_2 l (Z.to_nat j) Hjn) as [x Hx].
    rewrite (proj2 (index_Some l j x)) by (split; [lia|done]). simpl.
    eexists. split; [done|]. unfold dedup_inv.
    assert (Htake : take (Z.to_nat (j + 1)) l = take (Z.to_nat j) l ++ [x]).
    { replace (Z.to_nat (j + 1)) with (S (Z.to_nat j)) by lia. by apply take_S_r. }
    split_and!.
    + lia.
    + unfold Go.len in *. lia.
    + replace (j + 1 - 1) with j by lia. done.
    + case_bool_decide; [by rewrite last_snoc|]. by simplify_eq.
    + intros y. rewrite Htake, elem_of_app, list_elem_of_singleton, <- Hmem.
      case_bool_decide as Hne.
      * by rewrite elem_of_app, list_elem_of_singleton.
      * assert (lst = x) by (destruct (decide (lst = x)); [done|by destruct Hne]).
        subst x. split; [auto|]. intros [?| ->]; [done|].
        apply last_Some in Hlast as [r' ->]. apply elem_of_app. right. apply list_elem_of_singleton. done.
    + intros Hs. specialize (Hsort Hs). case_bool_decide as Hne; [|done].
      eapply StronglySorted_lt_snoc; [done..|].
      assert (lst <= x).
      { eapply (Sorted_le_lookup l (Z.to_nat (j - 1)) (Z.to_nat j)); eauto. lia. }
      lia.
    + intros y. rewrite Htake, freq_snoc, map_get_insert, <- !Hcnt.
      unfold Int64.add. rewrite wrap_small.
      * destruct (decide (x = y)) as [->|]; lia.
      * rewrite Hcnt. pose proof (freq_bounds x (take (Z.to_nat j) l)).
        rewrite length_take in H. unfold Go.len, Int64.min_int, Int64.max_int in *. lia.
  - simpl. destruct s' as [[result counts] lst]. simpl.
    destruct Hinv as (Hi & Hlst & Hlast & Hmem & Hsort & Hcnt).
    replace (Z.to_nat (1 + Z.of_nat (Z.to_nat (Go.len l - 1)))) with (length l) in *
      by (unfold Go.len; lia).
    rewrite firstn_all in *.
    exists result, counts. split_and!; auto.
    intros ->. done.
Qed.

Lemma createCountMap_ok (l : list Z) :
  (1 <= length l)%nat -> Go.len l < 2 ^ 63 ->
  exists ivs cnts mode modeCount,
    createCountMap l = Some (ivs, cnts, mode, modeCount) /\
    ivs <> [] /\
    (forall x, x ∈ ivs <-> x ∈ l) /\
    (Sorted Z.le l -> StronglySorted Z.lt ivs) /\
    cnts = (fun x => freq x l) <$> ivs /\
    exists p : nat,
      ivs !! p = Some mode /\ cnts !! p = Some modeCount /\
      (forall (j : nat) c, cnts !! j = Some c ->
         c <= modeCount /\ (c = modeCount -> (p <= j)%nat)).
Proof.
  intros Hn Hlen.
  destruct (countAndRemove_ok l Hn Hlen)
    as (distinct & counts & Hrun & Hne & Hmem & Hsort & Hcnt).
  unfold createCountMap. rewrite Hrun. simpl.
  rewrite make_ok by (unfold Go.len; lia). simpl.
  destruct distinct as [|d0 ds] eqn:Hd; [done|]. rewrite <- Hd in *.
  assert (Hd0 : distinct !! 0%nat = Some d0) by (by subst).
  rewrite (proj2 (index_Some distinct 0 d0)) by done. simpl.
  destruct (for_each_inv (mode_inv distinct (Go.map_get counts))
              (fun i datum '(countsArr, mode, max) =>
                 countsArr ← Go.store countsArr i (Go.map_get counts datum);
                 Some (if max <? Go.map_get counts datum
                       then (countsArr, datum, Go.map_get counts datum)
                       else (countsArr, mode, max)))
              distinct) with (k := 0%nat)
      (s := (replicate (Z.to_nat (Go.len distinct)) 0, d0, Go.map_get counts d0))
    as (s' & Hloop & Hinv).
  - (* one round *)
    intros i x [[arr mode] mx] Hx (Hlen' & Harr & p & Hp & Hmax & Hpi & Hall).
    assert (Hi : (i < length distinct)%nat) by (eapply lookup_lt_Some; eauto).
    rewrite store_ok by (unfold Go.len; lia). simpl.
    rewrite Nat2Z.id.
    eexists. split; [done|].
    destruct (Z.ltb_spec mx (Go.map_get counts x)) as [Hlt|Hge]; unfold mode_inv.
    + split_and!.
      * by rewrite length_insert.
      * intros j Hj. destruct (decide (j = i)) as [->|].
        -- rewrite list_lookup_insert_eq by lia. by rewrite Hx.
        -- rewrite list_lookup_insert_ne by done. apply Harr. lia.
      * exists i. split_and!; auto.
        intros j y Hj Hy. destruct (decide (j = i)) as [->|].
        -- simplify_eq. split; [lia|done].
        -- destruct (Hall j y ltac:(lia) Hy). split; lia.
    + split_and!.
      * by rewrite length_insert.
      * intros j Hj. destruct (decide (j = i)) as [->|].
        -- rewrite list_lookup_insert_eq by lia. by rewrite Hx.
        -- rewrite list_lookup_insert_ne by done. apply Harr. lia.
      * exists p. split_and!; auto; [simpl; lia|].
        intros j y Hj Hy. destruct (decide (j = i)) as [->|].
        -- simplify_eq. split; [lia|]. intros _. simpl in Hpi. lia.
        -- apply Hall; [lia|done].
  - lia.
  - (* the state before the loop *)
    unfold mode_inv. split_and!.
    + rewrite length_replicate. unfold Go.len. lia.
    + intros j Hj. lia.
    + exists 0%nat. split_and!; auto. intros j y Hj. lia.
  - rewrite drop_0 in Hloop. change (Z.of_nat 0) with 0 in Hloop.
    rewrite Hloop. simpl. destruct s' as [[arr mode] mx].
    destruct Hinv as (Hlen' & Harr & p & Hp & Hmax & Hpi & Hall).
    assert (Earr : arr = (fun x => freq x l) <$> distinct).
    { apply list_eq. intros j. rewrite list_lookup_fmap.
      destruct (decide (j < length distinct)%nat) as [Hj|Hj].
      - rewrite Harr by done. destruct (distinct !! j); simpl; [|done].
        by rewrite Hcnt.
      - rewrite !lookup_ge_None_2 by lia. done. }
    exists distinct, arr, mode, mx. split_and!; auto.
    exists p. split_and!; auto.
    + rewrite Earr, list_lookup_fmap, Hp. simpl. by rewrite <- Hcnt, Hmax.
    + intros j c Hc. rewrite Earr, list_lookup_fmap in Hc.
      destruct (distinct !! j) as [y|] eqn:Hy; simpl in Hc; [|done].
      simplify_eq. rewrite <- Hcnt.
      apply Hall; [|done]. eapply lookup_lt_Some; eauto.
Qed.

End ListFacts.

(** * Facts about the statistics kernel and the scores *)

Module KernelFacts.
Import F64 F64Facts ListFacts.

#[local] Opaque F64.one_u F64.huge.

Lemma sub_small a b :
  Int64.min_int <= a - b <= Int64.max_int -> Int64.sub a b = a - b.
Proof. apply wrap_small. Qed.

Lemma rank_nonneg c m : 0 <= c -> 1 <= m -> Spec.rank c m = (c * (m - 1) + 2) / 4.
Proof.
  intros Hc Hm. unfold Spec.rank, Spec.round_half_away.
  destruct (Z.eq_dec (c * (m - 1)) 0) as [E|E].
  - rewrite E. reflexivity.
  - rewrite Z.sgn_pos, Z.abs_eq by nia.
    replace (2 * (c * (m - 1)) + 4) with ((c * (m - 1) + 2) * 2) by lia.
    replace (2 * 4) with (4 * 2) by lia.
    rewrite Z.div_mul_cancel_r by lia. lia.
Qed.

Lemma quantileIndex_rank c tsLength :
  1 <= c <= 3 -> 1 <= tsLength <= 2 ^ 51 ->
  quantileIndex (FFin (c * 2 ^ 1072)) tsLength = Spec.rank c tsLength.
Proof.
  intros Hc Hl. pose proof one_u_pos as HU.
  unfold quantileIndex.
  rewrite sub_small by (unfold Int64.min_int, Int64.max_int; lia).
  set (k := tsLength - 1). assert (Hk : 0 <= k < 2 ^ 51) by lia.
  rewrite of_int64_exact by lia.
  assert (HP : 0 < 2 ^ 1072) by (apply pow2_pos; lia).
  assert (HUP : one_u = 4 * 2 ^ 1072).
  { rewrite one_u_eq. change 1074 with (2 + 1072). rewrite Z.pow_add_r by lia. lia. }
  destruct (mul_fin (c * 2 ^ 1072) (k * one_u) (c * k * 2 ^ 1072) (c * k * 2 ^ 1072))
    as (n & -> & Hn).
  - lia.
  - lia.
  - apply Rep_quarters. nia.
  - apply Rep_quarters. nia.
  - rewrite huge_eq, HUP.
    assert (c * k < 2 ^ 1024).
    { eapply Z.lt_trans; [|apply (Z.pow_lt_mono_r 2 53 1024); lia]. nia. }
    nia.
  - nia.
  - assert (n = c * k * 2 ^ 1072) by lia. subst n.
    unfold util.Round, Spec.rank, Spec.round_half_away. fold k.
    rewrite Z.sgn_mul, (Z.sgn_pos (2 ^ 1072)) by lia. rewrite Z.mul_1_r.
    rewrite Z.abs_mul, (Z.abs_eq (2 ^ 1072)) by lia.
    rewrite HUP.
    replace (2 * (Z.abs (c * k) * 2 ^ 1072) + 4 * 2 ^ 1072)
      with ((2 * Z.abs (c * k) + 4) * 2 ^ 1072) by lia.
    replace (2 * (4 * 2 ^ 1072)) with (2 * 4 * 2 ^ 1072) by lia.
    rewrite Z.div_mul_cancel_r by lia.
    apply wrap_small.
    assert (E : Z.sgn (c * k) * ((2 * Z.abs (c * k) + 4) / (2 * 4)) = (c * k + 2) / 4).
    { pose proof (rank_nonneg c (k + 1) ltac:(lia) ltac:(lia)) as R.
      unfold Spec.rank, Spec.round_half_away in R.
      replace (k + 1 - 1) with k in R by lia. exact R. }
    rewrite E. unfold Int64.min_int, Int64.max_int.
    assert (0 <= (c * k + 2) / 4) by (apply Z.div_pos; nia).
    assert ((c * k + 2) / 4 <= 2 ^ 53).
    { apply Z.div_le_upper_bound; nia. }
    lia.
Qed.

Lemma rank_bounds c m :
  1 <= c <= 3 -> 1 <= m -> 0 <= Spec.rank c m <= m - 1.
Proof.
  intros Hc Hm. rewrite rank_nonneg by lia. split.
  - apply Z.div_pos; nia.
  - assert ((c * (m - 1) + 2) / 4 < m); [|lia].
    apply Z.div_lt_upper_bound; nia.
Qed.

Lemma rank_mono c1 c2 m :
  0 <= c1 <= c2 -> 1 <= m -> Spec.rank c1 m <= Spec.rank c2 m.
Proof.
  intros Hc Hm. rewrite !rank_nonneg by lia. apply Z.div_le_mono; nia.
Qed.

Lemma SortInt64_length l : length (util.SortInt64 l) = length l.
Proof. apply Permutation_length, merge_sort_Permutation. Qed.

Lemma SortInt64_sorted l : Sorted Z.le (util.SortInt64 l).
Proof. apply (Sorted_merge_sort Z.le). Qed.

Lemma SortInt64_perm l : util.SortInt64 l ≡ₚ l.
Proof. apply merge_sort_Permutation. Qed.

Lemma index_rank (s : list Z) c m :
  1 <= c <= 3 -> 1 <= m <= 2 ^ 51 -> Go.len s = m ->
  exists x, s !! Z.to_nat (Spec.rank c m) = Some x /\
            Go.index s (quantileIndex (FFin (c * 2 ^ 1072)) m) = Some x.
Proof.
  intros Hc Hm Hs. rewrite quantileIndex_rank by done.
  pose proof (rank_bounds c m Hc ltac:(lia)) as Hr.
  destruct (lookup_lt_is_Some_2 s (Z.to_nat (Spec.rank c m))) as [x Hx].
  { unfold Go.len in Hs. lia. }
  exists x. split; [done|]. apply index_Some. split; [lia|done].
Qed.

Lemma statistics_ok tsList :
  2 <= Go.len tsList <= Go.maxElems ->
  exists st, statistics tsList = Some st /\ kernel_facts tsList st.
Proof.
  intros Hlen. unfold Go.maxElems in Hlen.
  unfold statistics.
  rewrite make_ok by lia. cbn [mbind option_bind].
  rewrite diff_loop by (unfold Go.len in *; lia). cbn [mbind option_bind].
  remember (Go.len tsList - 1) as m eqn:Em.
  assert (Hm : 1 <= m <= 2 ^ 51) by lia.
  remember (util.SortInt64 (Spec.deltas tsList)) as sorted eqn:Es.
  assert (Hsl : Go.len sorted = m).
  { unfold Go.len. rewrite Es, SortInt64_length, deltas_length.
    unfold Go.len in Em. lia. }
  rewrite lit_quarter, lit_half, lit_three_quarters.
  destruct (index_rank sorted 1 m ltac:(lia) Hm Hsl) as (q1 & Hq1 & ->). cbn [mbind option_bind].
  destruct (index_rank sorted 2 m ltac:(lia) Hm Hsl) as (q2 & Hq2 & Hi2).
  rewrite Hi2. cbn [mbind option_bind].
  destruct (index_rank sorted 3 m ltac:(lia) Hm Hsl) as (q3 & Hq3 & ->). cbn [mbind option_bind].
  pose proof (devs_loop sorted q2) as Hdv. rewrite Hsl in Hdv.
  rewrite Hdv. cbn [mbind option_bind].
  remember (util.SortInt64 _) as sdevs eqn:Ed in |- *.
  assert (Hdl : Go.len sdevs = m).
  { unfold Go.len. rewrite Ed, SortInt64_length, length_fmap. exact Hsl. }
  destruct (index_rank sdevs 2 m ltac:(lia) Hm Hdl) as (md & Hmd & ->). cbn [mbind option_bind].
  destruct (lookup_lt_is_Some_2 sorted (Z.to_nat (m - 1))) as [hi Hhi].
  { unfold Go.len in Hsl. lia. }
  destruct (lookup_lt_is_Some_2 sorted 0%nat) as [lo Hlo].
  { unfold Go.len in Hsl. lia. }
  rewrite (proj2 (index_Some sorted (m - 1) hi)) by (split; [lia|done]).
  cbn [mbind option_bind].
  rewrite (proj2 (index_Some sorted 0 lo)) by (split; [lia|done]).
  cbn [mbind option_bind].
  destruct (createCountMap_ok sorted) as (ivs & cnts & mode & mc & Hcm & _).
  { unfold Go.len in Hsl. lia. }
  { lia. }
  rewrite Hcm. cbn [mbind option_bind].
  eexists. split; [reflexivity|].
  unfold kernel_facts. cbn [diff tsLow tsMid tsHigh tsSkew devs tsMadm
    tsIntervalRange intervals intervalCounts tsMode tsModeCount].
  rewrite <- Em. split_and!; try done.
  exists lo, hi. done.
Qed.

Lemma wrap_mod z : (Int64.wrap z) mod 2 ^ 64 = z mod 2 ^ 64.
Proof.
  unfold Int64.wrap.
  rewrite <- (Z.add_opp_r _ (2 ^ 63)), <- Zplus_mod_idemp_l, Z.mod_mod by lia.
  rewrite Zplus_mod_idemp_l. f_equal. lia.
Qed.

Lemma wrap_eq_of_mod a b :
  Int64.min_int <= b <= Int64.max_int -> a mod 2 ^ 64 = b mod 2 ^ 64 ->
  Int64.wrap a = b.
Proof.
  intros Hb Hab. rewrite <- (wrap_small b Hb). unfold Int64.wrap.
  f_equal. rewrite <- Zplus_mod_idemp_l, Hab, Zplus_mod_idemp_l. done.
Qed.

Lemma wrap_neg_iff d :
  0 <= d < 2 ^ 64 -> Int64.wrap d < 0 <-> 2 ^ 63 <= d.
Proof.
  intros Hd. unfold Int64.wrap.
  destruct (Z.lt_ge_cases d (2 ^ 63)).
  - rewrite Z.mod_small by lia. lia.
  - replace (d + 2 ^ 63) with (d - 2 ^ 63 + 1 * 2 ^ 64) by lia.
    rewrite Z.mod_add, Z.mod_small by lia. lia.
Qed.

Lemma negs_cons d l :
  negs (d :: l) = Nat.add (if decide (d < 0) then 1%nat else 0%nat) (negs l).
Proof. unfold negs. rewrite filter_cons. destruct (decide (d < 0)); simpl; lia. Qed.

Lemma negs_perm l1 l2 : l1 ≡ₚ l2 -> negs l1 = negs l2.
Proof. intros H. unfold negs. by rewrite H. Qed.

Lemma last_cons_default {A} (x : A) l : last (x :: l) = Some (default x (last l)).
Proof.
  revert x. induction l as [|y l IH]; intros x; [done|].
  rewrite last_cons_cons, (IH y). done.
Qed.

(** over an ascending list of int64 values the wrapped deltas that come out
    negative are those of at least 2^63, and they fit between the ends *)
Lemma deltas_negs_span ts a :
  Sorted Z.le (a :: ts) -> Forall Int64.in_range (a :: ts) ->
  2 ^ 63 * Z.of_nat (negs (Spec.deltas (a :: ts))) <= default a (last ts) - a /\
  a <= default a (last ts).
Proof.
  revert a. induction ts as [|b ts IH]; intros a Hs Hr.
  - simpl. unfold negs. simpl. lia.
  - apply Sorted_inv in Hs as [Hs Hab]. apply HdRel_inv in Hab.
    pose proof (Forall_inv Hr) as Ha. apply Forall_inv_tail in Hr.
    pose proof (Forall_inv Hr) as Hb.
    destruct (IH b Hs Hr) as [IH1 IH2].
    change (Spec.deltas (a :: b :: ts)) with (Int64.sub b a :: Spec.deltas (b :: ts)).
    rewrite negs_cons.
    assert (Hl : default a (last (b :: ts)) = default b (last ts)).
    { by rewrite last_cons_default. }
    rewrite Hl. unfold Int64.in_range, Int64.min_int, Int64.max_int in *.
    unfold Int64.sub. destruct (decide (Int64.wrap (b - a) < 0)) as [Hn|Hn].
    + apply wrap_neg_iff in Hn; lia.
    + lia.
Qed.

Lemma deltas_negs ts :
  Sorted Z.le ts -> Forall Int64.in_range ts -> (negs (Spec.deltas ts) <= 1)%nat.
Proof.
  intros Hs Hr. destruct ts as [|a ts]; [unfold negs; simpl; lia|].
  destruct (deltas_negs_span ts a Hs Hr) as [H1 H2].
  assert (Int64.in_range (default a (last ts))).
  { destruct (last ts) as [x|] eqn:E; simpl; [|by apply Forall_inv in Hr].
    apply Forall_inv_tail in Hr. rewrite Forall_forall in Hr. apply Hr.
    apply last_Some in E as [l' ->]. set_solver. }
  pose proof (Forall_inv Hr) as Ha.
  unfold Int64.in_range, Int64.min_int, Int64.max_int in *. lia.
Qed.

Lemma negs_two (l : list Z) (i : nat) x y :
  l !! 0%nat = Some y -> l !! S i = Some x -> y < 0 -> x < 0 -> (2 <= negs l)%nat.
Proof.
  intros Hy Hx Hy0 Hx0. destruct l as [|y' l]; [done|]. simpl in *. simplify_eq.
  rewrite negs_cons. destruct (decide (y < 0)); [|lia].
  assert (x ∈ filter (fun d => d < 0) l).
  { apply list_elem_of_filter. split; [done|]. eapply list_elem_of_lookup_2; eauto. }
  unfold negs. destruct (filter _ l); [by apply elem_of_nil in H|]. simpl. lia.
Qed.

(** in a sorted list with at most one negative element, every element but
    the first is non-negative *)
Lemma sorted_nonneg_after_first (l : list Z) (i : nat) x :
  Sorted Z.le l -> (negs l <= 1)%nat -> (1 <= i)%nat -> l !! i = Some x -> 0 <= x.
Proof.
  intros Hs Hn Hi Hx. destruct (Z.lt_ge_cases x 0) as [Hneg|]; [|done].
  exfalso. destruct i as [|i]; [lia|].
  destruct (lookup_lt_is_Some_2 l 0%nat) as [y Hy].
  { apply lookup_lt_Some in Hx. lia. }
  assert (y <= x) by (eapply (Sorted_le_lookup l 0 (S i)); eauto; lia).
  pose proof (negs_two l i x y Hy Hx ltac:(lia) Hneg). lia.
Qed.

Lemma negs_fmap_le (f : Z -> Z) l :
  (forall d, d ∈ l -> f d < 0 -> d < 0) -> (negs (f <$> l) <= negs l)%nat.
Proof.
  induction l as [|d l IH]; intros Hf; [done|].
  rewrite fmap_cons, !negs_cons.
  assert (negs (f <$> l) <= negs l)%nat by (apply IH; intros; apply Hf; set_solver).
  destruct (decide (f d < 0)) as [Hn|Hn]; destruct (decide (d < 0)); try lia.
  exfalso. apply Hf in Hn; [lia|set_solver].
Qed.

Lemma deltas_in_range ts : Forall Int64.in_range (Spec.deltas ts).
Proof.
  unfold Spec.deltas. apply Forall_forall. intros x Hx.
  apply elem_of_lookup_zip_with in Hx as (i & a & b & -> & _ & _).
  apply wrap_range.
Qed.

Lemma Abs_neg_iff z : Int64.in_range z -> util.Abs z < 0 <-> z = Int64.min_int.
Proof.
  unfold util.Abs, Int64.in_range, Int64.min_int, Int64.max_int. intros Hz.
  destruct (Z.eq_dec z (- 2 ^ 63)) as [->|Hne].
  - split; [done|]. intros _. vm_compute. done.
  - rewrite wrap_small by (unfold Int64.min_int, Int64.max_int; lia). lia.
Qed.

Lemma Abs_range z : Int64.in_range (util.Abs z).
Proof. apply wrap_range. Qed.

Lemma Rep_0 : Rep 0.
Proof. exists 0, 0. lia. Qed.

Lemma Rep_pow2_u e : 0 <= e -> Rep (2 ^ e * one_u).
Proof.
  intros. exists 1, (e + 1074). rewrite one_u_eq, Z.pow_add_r by lia. lia.
Qed.

Lemma pow2_u_lt_huge e : 0 <= e < 1024 -> 2 ^ e * one_u < huge.
Proof.
  intros. apply int_lt_huge. split; [apply Z.lt_le_incl, pow2_pos; lia|].
  apply Z.pow_lt_mono_r; lia.
Qed.

Lemma Rep_one : Rep one_u.
Proof. replace one_u with (1 * one_u) by lia. apply Rep_int. lia. Qed.

Lemma one_lt_huge : one_u < huge.
Proof. replace one_u with (2 ^ 0 * one_u) by lia. apply pow2_u_lt_huge. lia. Qed.

Lemma lit_one : lit 1 1 = FFin one_u.
Proof. rewrite lit_int by lia. by rewrite Z.mul_1_l. Qed.

Lemma of_int64_zero : of_int64 0 = FFin 0.
Proof. rewrite of_int64_exact by (simpl; lia). done. Qed.

Lemma small_lt_huge k : 0 <= k < 2 ^ 53 -> k * one_u < huge.
Proof.
  intros. apply int_lt_huge. split; [lia|].
  eapply Z.lt_trans; [apply H|]. apply Z.pow_lt_mono_r; lia.
Qed.

Ltac side :=
  first [ apply Rep_0 | apply Rep_one | apply one_lt_huge
        | apply Rep_pow2_u; lia | apply pow2_u_lt_huge; lia
        | apply Rep_int; lia | apply small_lt_huge; lia
        | lia | nia ].

Lemma skewScore_unit tsSkew :
  fin_in 0 one_u (abs tsSkew) -> fin_in 0 one_u (skewScore tsSkew).
Proof.
  intros (a & Ha & Hr). unfold skewScore. rewrite lit_one, Ha.
  apply sub_fin; side.
Qed.

Lemma of_int64_pow63 : of_int64 (2 ^ 63) = FFin (2 ^ 63 * one_u).
Proof. vm_compute. reflexivity. Qed.

Lemma of_int64_bounds z :
  - 2 ^ 63 <= z <= 2 ^ 63 ->
  - (2 ^ 63 * one_u) <= val (of_int64 z) <= 2 ^ 63 * one_u.
Proof.
  intros Hz.
  pose proof (of_int64_mono (- 2 ^ 63) z ltac:(simpl; lia) ltac:(lia) ltac:(lia)) as Hlo.
  pose proof (of_int64_mono z (2 ^ 63) ltac:(lia) ltac:(simpl; lia) ltac:(lia)) as Hhi.
  rewrite of_int64_pow63 in Hhi.
  destruct (of_int64_val (- 2 ^ 63) ltac:(simpl; lia)) as [_ E]. rewrite E in Hlo.
  destruct (of_int64_val (2 ^ 63) ltac:(simpl; lia)) as [_ E']. rewrite of_int64_pow63 in E'.
  change (Z.abs (- 2 ^ 63)) with (Z.abs (2 ^ 63)) in Hlo.
  change (Z.sgn (- 2 ^ 63)) with (-1) in Hlo. change (Z.sgn (2 ^ 63)) with 1 in E'.
  simpl val in *. lia.
Qed.

Lemma madmScore_unit tsMadm :
  0 <= tsMadm <= 2 ^ 63 -> fin_in 0 one_u (madmScore tsMadm).
Proof.
  intros Hm. pose proof one_u_pos as HU. unfold madmScore.
  rewrite lit_one, (lit_int 30), of_int64_zero by lia.
  rewrite (of_int64_fin tsMadm) by lia.
  pose proof (of_int64_bounds tsMadm ltac:(lia)) as Hv.
  pose proof (of_int64_mono 0 tsMadm ltac:(simpl; lia) ltac:(lia) ltac:(lia)) as H0.
  rewrite of_int64_zero in H0. simpl in H0.
  destruct (div_fin (val (of_int64 tsMadm)) (30 * one_u) 0 (2 ^ 63 * one_u))
    as (w & -> & Hw); [side..|].
  destruct (Z.le_gt_cases w one_u) as [Hle|Hgt].
  - destruct (sub_fin one_u w 0 one_u) as (n & -> & Hn); [side..|].
    simpl. destruct (Z.ltb_spec n 0); [lia|]. exists n. done.
  - rewrite sub_neg_lt0 by lia. exists 0. split; [done|lia].
Qed.

Lemma connCountScore_unit a cc :
  Int64.in_range (tsMin a) -> Int64.in_range (tsMax a) -> tsMin a <= tsMax a ->
  1 <= cc <= Int64.max_int ->
  fin_in 0 one_u (connCountScore a cc).
Proof.
  unfold Int64.in_range, Int64.min_int, Int64.max_int.
  intros Hmin Hmax Hle Hcc. pose proof one_u_pos as HU. unfold connCountScore.
  rewrite lit_one, (lit_int 10) by lia.
  rewrite (of_int64_fin (tsMax a)), (of_int64_fin (tsMin a)), (of_int64_fin cc) by lia.
  pose proof (of_int64_mono (tsMin a) (tsMax a) ltac:(lia) ltac:(lia) Hle) as Hmono.
  pose proof (of_int64_bounds (tsMin a) ltac:(lia)) as Hlo.
  pose proof (of_int64_bounds (tsMax a) ltac:(lia)) as Hhi.
  pose proof (of_int64_ge_one cc ltac:(lia)) as Hc.
  set (va := val (of_int64 (tsMax a))) in *. set (vb := val (of_int64 (tsMin a))) in *.
  set (vc := val (of_int64 cc)) in *.
  clearbody va vb vc.
  destruct (sub_fin va vb 0 (2 ^ 64 * one_u)) as (d & -> & Hd); [side..|].
  destruct (div_fin d (10 * one_u) 0 (2 ^ 64 * one_u)) as (e & -> & He); [side..|].
  assert (HX : div (FFin vc) (FFin e) = FInf false \/
               exists n, 0 <= n /\ div (FFin vc) (FFin e) = FFin n).
  { unfold div. simpl val. simpl sign.
    destruct (Z.ltb_spec vc 0); [lia|]. destruct (Z.ltb_spec e 0); [lia|].
    destruct (Z.eqb_spec e 0) as [->|Hne].
    - destruct (Z.eqb_spec vc 0); [lia|]. by left.
    - simpl xorb. rewrite !Z.abs_eq by lia.
      apply round_false_cases; [nia|lia]. }
  destruct HX as [->|(n & Hn & ->)]; simpl.
  - exists one_u. split; [done|lia].
  - destruct (Z.ltb_spec one_u n).
    + exists one_u. split; [done|lia].
    + exists n. split; [done|lia].
Qed.

Lemma combine_unit s m c :
  fin_in 0 one_u s -> fin_in 0 one_u m -> fin_in 0 one_u c ->
  exists k, 0 <= k <= 1000 /\
    combine s m c = div (of_int64 k) (lit 1000 1) /\
    fin_in 0 one_u (combine s m c).
Proof.
  intros (vs & -> & Hs) (vm & -> & Hm) (vc & -> & Hc). pose proof one_u_pos as HU.
  unfold combine. rewrite (lit_int 3), (lit_int 1000) by lia.
  destruct (add_fin vs vm 0 (2 * one_u)) as (s1 & -> & Hs1); [side..|].
  destruct (add_fin s1 vc 0 (3 * one_u)) as (s2 & -> & Hs2); [side..|].
  destruct (div_fin s2 (3 * one_u) 0 one_u) as (q & -> & Hq); [side..|].
  destruct (mul_fin q (1000 * one_u) 0 (1000 * one_u)) as (p & -> & Hp); [side..|].
  destruct (ceil_fin p 1000 Hp) as (k & Hk & ->).
  exists k. split; [done|]. rewrite (of_int64_exact k) by lia. split; [done|].
  apply div_fin; side.
Qed.

Lemma fin_in_unit_le x :
  fin_in 0 one_u x -> le (of_int64 0) x = true /\ le x (lit 1 1) = true.
Proof.
  intros (n & -> & Hn). rewrite of_int64_zero, lit_one. unfold le, lt, F64.eq.
  cbn [val]. split; apply orb_true_iff.
  - destruct (Z.eq_dec 0 n); [right; by apply Z.eqb_eq|left; apply Z.ltb_lt; lia].
  - destruct (Z.eq_dec n one_u); [right; by apply Z.eqb_eq|left; apply Z.ltb_lt; lia].
Qed.

Lemma sub_zero_iff a b :
  Int64.in_range a -> Int64.in_range b -> Int64.sub a b = 0 <-> a = b.
Proof.
  unfold Int64.in_range, Int64.min_int, Int64.max_int, Int64.sub, Int64.wrap.
  intros Ha Hb. split.
  - intros H. destruct (Z.lt_ge_cases (a - b) (- 2 ^ 63)).
    + replace (a - b + 2 ^ 63) with (a - b + 2 ^ 63 + 2 ^ 64 + (-1) * 2 ^ 64) in H by lia.
      rewrite Z.mod_add, Z.mod_small in H by lia. lia.
    + destruct (Z.lt_ge_cases (a - b) (2 ^ 63)).
      * rewrite Z.mod_small in H by lia. lia.
      * replace (a - b + 2 ^ 63) with (a - b - 2 ^ 63 + 1 * 2 ^ 64) in H by lia.
        rewrite Z.mod_add, Z.mod_small in H by lia. lia.
  - intros ->. rewrite Z.sub_diag. done.
Qed.

Lemma bowley_num_exact q1 q2 q3 :
  Int64.min_int <= q1 + q3 - 2 * q2 <= Int64.max_int ->
  Int64.sub (Int64.add q1 q3) (Int64.mul 2 q2) = q1 + q3 - 2 * q2.
Proof.
  intros H. unfold Int64.sub, Int64.add, Int64.mul. apply wrap_eq_of_mod; [done|].
  rewrite Zminus_mod, !wrap_mod, <- Zminus_mod. done.
Qed.

Lemma sorted_elem_in_range ts x :
  x ∈ util.SortInt64 (Spec.deltas ts) -> Int64.in_range x.
Proof.
  rewrite SortInt64_perm. intros Hx.
  pose proof (deltas_in_range ts) as H. rewrite Forall_forall in H. auto.
Qed.

Lemma of_int64_opp z :
  Z.abs z <= 2 ^ 63 -> val (of_int64 (- z)) = - val (of_int64 z).
Proof.
  intros Hz. destruct (of_int64_val z Hz) as [_ ->].
  destruct (of_int64_val (- z) ltac:(lia)) as [_ ->].
  rewrite Z.abs_opp, Z.sgn_opp. lia.
Qed.

(** the quotient of two converted int64 values, the dividend at most the
    divisor in magnitude, is at most one in magnitude *)
Lemma abs_div_of_int64 num den :
  0 < den <= 2 ^ 63 -> - den <= num <= den ->
  fin_in 0 one_u (abs (div (of_int64 num) (of_int64 den))).
Proof.
  intros Hd Hn. pose proof one_u_pos.
  rewrite (of_int64_fin num), (of_int64_fin den) by lia.
  pose proof (of_int64_ge_one den ltac:(lia)).
  pose proof (of_int64_mono num den ltac:(lia) ltac:(lia) ltac:(lia)).
  pose proof (of_int64_mono (- den) num ltac:(lia) ltac:(lia) ltac:(lia)) as Hl.
  rewrite of_int64_opp in Hl by lia.
  apply abs_div_le_one; lia.
Qed.

Lemma fin_in_abs_le x :
  fin_in 0 one_u (abs x) ->
  le (lit (-1) 1) x = true /\ le x (lit 1 1) = true.
Proof.
  intros (n & Hx & Hn).
  assert (E1 : lit (-1) 1 = FFin (- one_u)).
  { change (lit (-1) 1) with (of_int64 (-1)). rewrite of_int64_exact by (simpl; lia).
    f_equal; lia. }
  rewrite E1, lit_one. unfold le, lt, F64.eq.
  destruct x as [v| | |]; simpl in Hx; try discriminate Hx;
    injection Hx as Hx; subst n; cbn [val].
  - split; apply orb_true_iff.
    + destruct (Z.eq_dec (- one_u) v); [right; by apply Z.eqb_eq|left; apply Z.ltb_lt; lia].
    + destruct (Z.eq_dec v one_u); [right; by apply Z.eqb_eq|left; apply Z.ltb_lt; lia].
  - pose proof one_u_pos. split; apply orb_true_iff; left; apply Z.ltb_lt; lia.
Qed.

Section kernel.

Variable tsList : list Z.
Variable st : tsStats.
Hypothesis Hasc : Sorted Z.le tsList.
Hypothesis Hrange : Forall Int64.in_range tsList.
Hypothesis Hlen : 2 <= Go.len tsList <= Go.maxElems.
Hypothesis Hk : kernel_facts tsList st.

Lemma diff_sorted : Sorted Z.le (diff st).
Proof. destruct Hk as (-> & _). apply SortInt64_sorted. Qed.

Lemma diff_negs : (negs (diff st) <= 1)%nat.
Proof.
  destruct Hk as (-> & _). rewrite (negs_perm _ _ (SortInt64_perm _)).
  by apply deltas_negs.
Qed.

Lemma diff_elem_range i x : diff st !! i = Some x -> Int64.in_range x.
Proof.
  destruct Hk as (E & _). rewrite E. intros Hx.
  eapply sorted_elem_in_range, list_elem_of_lookup_2, Hx.
Qed.

Lemma quartiles_ordered : tsLow st <= tsMid st <= tsHigh st.
Proof.
  destruct Hk as (_ & H1 & H2 & H3 & _). unfold Go.maxElems in Hlen.
  pose proof (rank_mono 1 2 (Go.len tsList - 1) ltac:(lia) ltac:(lia)).
  pose proof (rank_mono 2 3 (Go.len tsList - 1) ltac:(lia) ltac:(lia)).
  pose proof (rank_bounds 1 (Go.len tsList - 1) ltac:(lia) ltac:(lia)).
  split.
  - eapply (Sorted_le_lookup (diff st)); [apply diff_sorted| |exact H1|exact H2]. lia.
  - eapply (Sorted_le_lookup (diff st)); [apply diff_sorted| |exact H2|exact H3]. lia.
Qed.

(** when the three quartiles differ, none of them is the first element *)
Lemma low_nonneg :
  tsLow st <> tsMid st -> tsMid st <> tsHigh st -> 0 <= tsLow st.
Proof.
  intros H12 H23. destruct Hk as (_ & H1 & H2 & H3 & _). unfold Go.maxElems in Hlen.
  rewrite !rank_nonneg in * by lia.
  eapply (sorted_nonneg_after_first (diff st));
    [apply diff_sorted|apply diff_negs| |exact H1].
  destruct (Z.le_gt_cases 3 (Go.len tsList - 1)) as [Hm3|Hm3].
  - assert (1 <= (1 * (Go.len tsList - 1 - 1) + 2) / 4); [|lia].
    apply Z.div_le_lower_bound; lia.
  - exfalso.
    assert (Go.len tsList - 1 = 1 \/ Go.len tsList - 1 = 2) as [E|E] by lia;
      rewrite E in H1, H2, H3;
      repeat match goal with
             | H : context [Z.to_nat ?e] |- _ =>
                 let v := eval vm_compute in (Z.to_nat e) in
                 progress change (Z.to_nat e) with v in H
             end;
      congruence.
Qed.

Lemma skew_facts :
  tsSkew st =
    (if bool_decide (tsHigh st ≠ tsLow st) && bool_decide (tsMid st ≠ tsLow st)
        && bool_decide (tsMid st ≠ tsHigh st)
     then F64.div (F64.of_int64 (tsLow st + tsHigh st - 2 * tsMid st))
                  (F64.of_int64 (tsHigh st - tsLow st))
     else FFin 0) /\
  fin_in 0 one_u (abs (tsSkew st)).
Proof.
  pose proof quartiles_ordered as Hord.
  destruct Hk as (_ & H1 & H2 & H3 & Hs & _).
  pose proof (diff_elem_range _ _ H1) as R1.
  pose proof (diff_elem_range _ _ H2) as R2.
  pose proof (diff_elem_range _ _ H3) as R3.
  rewrite Hs.
  assert (Hden : bool_decide (Int64.sub (tsHigh st) (tsLow st) ≠ 0)
                 = bool_decide (tsHigh st ≠ tsLow st)).
  { apply bool_decide_ext. by rewrite sub_zero_iff. }
  rewrite Hden.
  destruct (bool_decide (tsHigh st ≠ tsLow st) && bool_decide (tsMid st ≠ tsLow st)
            && bool_decide (tsMid st ≠ tsHigh st)) eqn:Hc.
  - apply andb_true_iff in Hc as [Hc Hc3]. apply andb_true_iff in Hc as [Hc1 Hc2].
    apply bool_decide_eq_true in Hc1, Hc2, Hc3.
    pose proof (low_nonneg ltac:(congruence) Hc3) as Hlow.
    unfold Int64.in_range, Int64.min_int, Int64.max_int in *.
    rewrite bowley_num_exact by (unfold Int64.min_int, Int64.max_int; lia).
    rewrite sub_small by (unfold Int64.min_int, Int64.max_int; lia).
    split; [done|]. apply abs_div_of_int64; lia.
  - split; [done|]. exists 0. split; [done|]. pose proof one_u_pos. lia.
Qed.

(** from three timestamps on, the median deviation is not negative *)
Lemma madm_range : 3 <= Go.len tsList -> 0 <= tsMadm st <= Int64.max_int.
Proof.
  intros Hn3. destruct Hk as (_ & _ & H2 & _ & _ & Hd & Hm & _).
  unfold Go.maxElems in Hlen.
  assert (Hr2 : 1 <= Spec.rank 2 (Go.len tsList - 1)).
  { rewrite rank_nonneg by lia. apply Z.div_le_lower_bound; lia. }
  pose proof (diff_elem_range _ _ H2) as R2.
  assert (Hq2 : 0 <= tsMid st).
  { eapply (sorted_nonneg_after_first (diff st));
      [apply diff_sorted|apply diff_negs| |exact H2]. lia. }
  assert (Hin : Int64.in_range (tsMadm st)).
  { apply list_elem_of_lookup_2 in Hm. rewrite Hd, SortInt64_perm in Hm.
    apply list_elem_of_fmap in Hm as (d & -> & _). apply Abs_range. }
  assert (Hr2n : (1 <= Z.to_nat (Spec.rank 2 (Go.len tsList - 1)))%nat) by lia.
  split; [|unfold Int64.in_range in Hin; lia].
  eapply (sorted_nonneg_after_first (devs st)); [| |exact Hr2n|exact Hm].
  - rewrite Hd. apply SortInt64_sorted.
  - rewrite Hd, (negs_perm _ _ (SortInt64_perm _)).
    etransitivity; [|apply diff_negs].
    apply negs_fmap_le. intros d Hdin Hneg.
    apply list_elem_of_lookup_1 in Hdin as [i Hi].
    pose proof (diff_elem_range _ _ Hi) as Rd.
    apply Abs_neg_iff in Hneg; [|apply wrap_range].
    destruct (Z.lt_ge_cases d 0) as [|Hd0]; [done|]. exfalso.
    unfold Int64.in_range, Int64.min_int, Int64.max_int in *.
    rewrite sub_small in Hneg by (unfold Int64.min_int, Int64.max_int; lia). lia.
Qed.

End kernel.

End KernelFacts.

(** * Facts about the reconciler *)

Module ReconcilerFacts.
Lemma count_pos_iff st q :
  0 < count st q <-> exists d, d ∈ st /\ matches q d = true.
Proof.
  unfold count. split.
  - intros H. destruct (filter _ st) as [|d l] eqn:E; [simpl in H; lia|].
    assert (Hd : d ∈ filter (fun d => matches q d = true) st) by (rewrite E; left).
    apply list_elem_of_filter in Hd as [? ?]. by exists d.
  - intros (d & Hd & Hm).
    assert (d ∈ filter (fun d => matches q d = true) st) by (by apply list_elem_of_filter).
    destruct (filter _ st); [by apply elem_of_nil in H|simpl; lia].
Qed.

Lemma count_nonneg st q : 0 <= count st q.
Proof. unfold count. lia. Qed.

Lemma existsb_dat_of st src (p : datElem -> bool) :
  existsb p (dat_of st src) = true <->
  exists d, d ∈ st /\ host_key d = src /\ existsb p (dat d) = true.
Proof.
  rewrite existsb_exists. unfold dat_of. split.
  - intros (e & He%list_elem_of_In & Hp).
    apply list_elem_of_bind in He as (d & He & Hd).
    apply list_elem_of_filter in Hd as [Hk Hd].
    exists d. split_and!; auto. apply existsb_exists. exists e. by rewrite <- list_elem_of_In.
  - intros (d & Hd & Hk & (e & He%list_elem_of_In & Hp)%existsb_exists).
    exists e. split; [|done]. apply list_elem_of_In, list_elem_of_bind.
    exists d. split; [done|]. by apply list_elem_of_filter.
Qed.

Lemma count_exact st src fqdn :
  (0 <? count st (SelHostMbproxy src fqdn)) =
  existsb (fun e => bool_decide (mbproxy e = fqdn)) (dat_of st src).
Proof.
  apply eq_true_iff_eq. rewrite Z.ltb_lt, count_pos_iff, existsb_dat_of.
  split; intros (d & Hd & H); exists d; split; auto.
  - simpl in H. apply andb_true_iff in H as [Hk%bool_decide_eq_true ?]. done.
  - simpl. destruct H as [-> ->]. by rewrite bool_decide_eq_true_2.
Qed.

Lemma count_elem st src c op score :
  (0 <? count st (SelHostElemMatch src c op score)) =
  existsb (fun e => bool_decide (cid e = c)
                    && cmp_score op (max_beacon_proxy_score e) score)
          (dat_of st src).
Proof.
  apply eq_true_iff_eq. rewrite Z.ltb_lt, count_pos_iff, existsb_dat_of.
  split; intros (d & Hd & H); exists d; split; auto.
  - simpl in H. apply andb_true_iff in H as [Hk%bool_decide_eq_true ?]. done.
  - simpl. destruct H as [-> ->]. by rewrite bool_decide_eq_true_2.
Qed.

Lemma existsb_ext_in {A} (p q : A -> bool) l :
  (forall x, x ∈ l -> p x = q x) -> existsb p l = existsb q l.
Proof.
  induction l as [|x l IH]; intros H; [done|]. simpl.
  rewrite H by left. rewrite IH; [done|]. intros y Hy. apply H. by right.
Qed.

Lemma existsb_false_forall {A} (p : A -> bool) l x :
  existsb p l = false -> x ∈ l -> p x = false.
Proof.
  intros H Hx. destruct (p x) eqn:E; [|done].
  rewrite <- H. symmetry. apply existsb_exists. exists x. by rewrite <- list_elem_of_In.
Qed.

Lemma reconcile_refines st score src fqdn tmin tmax chunkID :
  hostBeaconQuery (mkAnalyzer tmin tmax chunkID (answering st)) score src fqdn
  = (Reconciler.update_of (Reconciler.decide_outcome st score src fqdn chunkID)
       score src fqdn chunkID, []).
Proof.
  unfold hostBeaconQuery, Reconciler.decide_outcome, answering. cbn [db chunk].
  rewrite count_exact.
  destruct (existsb (fun e => bool_decide (mbproxy e = fqdn)) (dat_of st src)) eqn:Hex;
    [done|].
  assert (Hlow :
    existsb (fun e => bool_decide (cid e = chunkID)
                      && F64.le (max_beacon_proxy_score e) score
                      && bool_decide (mbproxy e ≠ fqdn)) (dat_of st src)
    = (0 <? count st (SelHostElemMatch src chunkID Lte score))).
  { rewrite count_elem. apply existsb_ext_in. intros e He.
    pose proof (existsb_false_forall _ _ _ Hex He) as Hne. simpl in Hne.
    apply bool_decide_eq_false in Hne.
    rewrite (bool_decide_eq_true_2 (mbproxy e ≠ fqdn)) by done.
    by rewrite andb_true_r. }
  rewrite Hlow.
  pose proof (count_nonneg st (SelHostElemMatch src chunkID Lte score)).
  destruct (Z.eqb_spec (count st (SelHostElemMatch src chunkID Lte score)) 0) as [E|E].
  - rewrite E. simpl (0 <? 0).
    pose proof (count_elem st src chunkID Gte score) as Hup. simpl cmp_score in Hup.
    rewrite <- Hup.
    pose proof (count_nonneg st (SelHostElemMatch src chunkID Gte score)).
    destruct (Z.eqb_spec (count st (SelHostElemMatch src chunkID Gte score)) 0) as [E'|E'].
    + rewrite E'. done.
    + destruct (Z.ltb_spec 0 (count st (SelHostElemMatch src chunkID Gte score))); [done|lia].
  - destruct (Z.ltb_spec 0 (count st (SelHostElemMatch src chunkID Lte score))); [done|lia].
Qed.

Lemma reconcile_error a score src fqdn :
  query_fails a score src fqdn ->
  fst (hostBeaconQuery a score src fqdn) = noUpdate /\
  snd (hostBeaconQuery a score src fqdn) <> [].
Proof.
  unfold hostBeaconQuery.
  intros [(msg & ->)|[(n & msg & -> & Hn & ->)|(n & msg & -> & Hn & -> & ->)]].
  - done.
  - destruct (Z.ltb_spec 0 n); [lia|]. done.
  - destruct (Z.ltb_spec 0 n); [lia|]. done.
Qed.

End ReconcilerFacts.

(** * Facts about the worker pool *)

Module PoolFacts.
Import Pool.

Lemma held_app ws1 ws2 : held (ws1 ++ ws2) = held ws1 ++ held ws2.
Proof. apply omap_app. Qed.

Lemma running_app ws1 ws2 : running (ws1 ++ ws2) = (running ws1 + running ws2)%nat.
Proof. unfold running. by rewrite omap_app, length_app. Qed.

Lemma analyzed_app e1 e2 : analyzed (e1 ++ e2) = analyzed e1 ++ analyzed e2.
Proof. apply omap_app. Qed.

Lemma closed_calls_app e1 e2 :
  closed_calls (e1 ++ e2) = (closed_calls e1 + closed_calls e2)%nat.
Proof. unfold closed_calls. by rewrite omap_app, length_app. Qed.

Lemma split_at (ws : list worker) i w :
  ws !! i = Some w ->
  exists l1 l2, ws = l1 ++ [w] ++ l2 /\
                forall w', <[i := w']> ws = l1 ++ [w'] ++ l2.
Proof.
  intros H. exists (take i ws), (drop (S i) ws). split.
  - by rewrite <- (take_drop_middle ws i w H) at 1.
  - intros w'. apply insert_take_drop. by eapply lookup_lt_Some.
Qed.

Lemma held_insert_busy ws i w x :
  ws !! i = Some w -> (forall y, w <> Busy y) ->
  held (<[i := Busy x]> ws) ≡ₚ x :: held ws.
Proof.
  intros H Hw. destruct (split_at ws i w H) as (l1 & l2 & -> & E2).
  rewrite E2, !held_app.
  assert (held [w] = []) as -> by (destruct w; try done; by destruct (Hw x0)).
  simpl. by rewrite Permutation_middle.
Qed.

Lemma held_remove_busy ws i x w :
  ws !! i = Some (Busy x) -> (forall y, w <> Busy y) ->
  held ws ≡ₚ x :: held (<[i := w]> ws).
Proof.
  intros H Hw. destruct (split_at ws i _ H) as (l1 & l2 & -> & E2).
  rewrite E2, !held_app.
  assert (held [w] = []) as -> by (destruct w; try done; by destruct (Hw x0)).
  simpl. by rewrite Permutation_middle.
Qed.

Lemma held_insert_idle ws i w w' :
  ws !! i = Some w -> (forall y, w <> Busy y) -> (forall y, w' <> Busy y) ->
  held (<[i := w']> ws) = held ws.
Proof.
  intros H Hw Hw'. destruct (split_at ws i w H) as (l1 & l2 & -> & E2).
  rewrite E2, !held_app. do 2 f_equal.
  destruct w, w'; try done; try (by destruct (Hw x)); by destruct (Hw' x).
Qed.

Lemma held_busy_nonempty ws i x : ws !! i = Some (Busy x) -> held ws <> [].
Proof.
  intros H E. pose proof (held_remove_busy ws i x Receiving H ltac:(done)) as P.
  rewrite E in P. by apply Permutation_nil_cons in P.
Qed.

Lemma running_insert ws i w w' :
  ws !! i = Some w -> w <> Exited ->
  running (<[i := w']> ws) =
  (match w' with Exited => Nat.pred (running ws) | _ => running ws end) /\
  (1 <= running ws)%nat.
Proof.
  intros H Hw. destruct (split_at ws i w H) as (l1 & l2 & -> & E2).
  rewrite E2, !running_app.
  assert (running [w] = 1%nat) as -> by (by destruct w).
  destruct w'; unfold running at 2; simpl; lia.
Qed.

Lemma running_zero_held ws : running ws = 0%nat -> held ws = [].
Proof.
  induction ws as [|w ws IH]; [done|].
  change (w :: ws) with ([w] ++ ws). rewrite running_app, held_app.
  destruct w; unfold running at 1; simpl; try lia. apply IH.
Qed.

Section preservation.
Variable a : analyzer.

Lemma inv_init p : inv a (init p).
Proof. unfold inv, phase_inv. simpl. split_and!; auto. Qed.

Lemma inv_step s s' : inv a s -> step a s s' -> inv a s'.
Proof.
  intros (Hwg & Hacc & Hret & Henv & Hph) Hstep.
  destruct Hstep; unfold inv, phase_inv, crash in *; simpl in *.
  - (* start *)
    split_and!; auto.
    + rewrite running_app. unfold running at 2. simpl. lia.
    + rewrite held_app. simpl. by rewrite app_nil_r.
    + destruct c; rewrite ?held_app; simpl; rewrite ?app_nil_r; done.
  - (* collect *) done.
  - (* collect on a closed channel *) done.
  - (* rendezvous *)
    destruct c; [done|]. split_and!; auto.
    + by destruct (running_insert ws i Receiving (Busy x) H ltac:(done)) as [-> _].
    + rewrite (held_insert_busy ws i Receiving x H) by done. rewrite Hacc.
      transitivity (x :: analyzed ev ++ held ws);
        [symmetry; apply Permutation_cons_append|apply Permutation_middle].
  - (* analysis *)
    assert (Hhold := held_busy_nonempty ws i x H).
    split_and!; auto.
    + by destruct (running_insert ws i (Busy x) Receiving H ltac:(done)) as [-> _].
    + rewrite analyzed_app. simpl. rewrite Hacc.
      rewrite (held_remove_busy ws i x Receiving H) by done.
      rewrite <- app_assoc. simpl. done.
    + rewrite closed_calls_app. simpl. unfold closed_calls at 2. simpl. lia.
    + apply Forall_app. split; [done|]. constructor; [|done]. simpl. eauto.
    + destruct c, f; try done; try (by destruct Hph);
        rewrite closed_calls_app; unfold closed_calls at 2; simpl; lia.
  - (* analysis panics *) done.
  - (* the loop ends *)
    split_and!; auto.
    + by destruct (running_insert ws i Receiving Leaving H ltac:(done)) as [-> _].
    + by rewrite (held_insert_idle ws i Receiving Leaving).
    + destruct f; rewrite ?(held_insert_idle ws i Receiving Leaving); done.
  - (* Done *)
    split_and!; auto.
    + destruct (running_insert ws i Leaving Exited H ltac:(done)) as [-> ?]. lia.
    + by rewrite (held_insert_idle ws i Leaving Exited).
    + destruct c, f; rewrite ?(held_insert_idle ws i Leaving Exited); done.
  - (* close *) done.
  - (* close on a closed channel *) done.
  - (* Wait returns *)
    destruct c; [|done]. split_and!; auto.
    apply running_zero_held. lia.
  - (* closedCallback *)
    destruct c; [|done]. destruct Hph as [Hc Hh]. split_and!; auto.
    + rewrite analyzed_app. simpl. by rewrite app_nil_r.
    + rewrite closed_calls_app. unfold closed_calls at 2. simpl. lia.
    + apply Forall_app. split; [done|]. by constructor.
    + eauto.
Qed.

Lemma inv_reachable p s : rtc (step a) (init p) s -> inv a s.
Proof.
  intros H. apply rtc_nsteps in H as [n H]. revert s H.
  induction n as [|n IH]; intros s H.
  - inversion H; subst. apply inv_init.
  - apply nsteps_inv_r in H as (s1 & H1 & Hs). eapply inv_step; eauto.
Qed.

End preservation.
End PoolFacts.

(** * Facts about the runs of the pool *)

Module RunFacts.
Import Pool PoolFacts Client.




Section runs.
Variable a : analyzer.














End runs.
End RunFacts.

(** * The claims *)

#[local] Opaque F64.one_u F64.huge.

(** C5. An input whose tsList is absent yields an envelope whose only
    sub-update is the uconnproxy update: its query sets strobeFQDN to true
    and its selector is the pair identifier; the pair-record update and the
    host-max update are the zero value. *)
Theorem strobe_envelope (a : analyzer) (entry : Input) :
  TsList entry = None ->
  analyze a entry =
    Some (mkUpdate noUpdate noUpdate
            (mkUpdateInfo (Some (SelPair (Hosts entry)))
                          (Some (SetStrobeFQDN true))), []).
Proof. intros H. unfold analyze. by rewrite H. Qed.

Lemma strobe_envelope_witness :
  analyze (Scenario.window Scenario.quiet) Scenario.s4 =
    Some (mkUpdate noUpdate noUpdate
            (mkUpdateInfo (Some (SelPair Scenario.hosts))
                          (Some (SetStrobeFQDN true))), []).
Proof.
  apply (strobe_envelope (Scenario.window Scenario.quiet) Scenario.s4).
  reflexivity.
Defined.

(** C2. Against a fixed store the reconciler returns the update of the
    outcome that section 4.C decides by its three questions in order: an
    element of the source host with this fqdn in any chunk gives the replace
    through the exact selector, whatever the stored score; otherwise an
    element of this chunk with a score at most the new one and another fqdn
    gives the replace through the lower selector; otherwise the new element
    is pushed exactly when no element of this chunk has a score at least the
    new one, and nothing is updated otherwise.  When the lower replace is
    chosen, every element the lower selector can address has another
    fqdn. *)
Theorem reconciler_decision (st : store) (score : float64) (src : UniqueIP)
    (fqdn : string) (tmin tmax chunkID : Z) :
  hostBeaconQuery (mkAnalyzer tmin tmax chunkID (answering st)) score src fqdn
  = (Reconciler.update_of
       (Reconciler.decide_outcome st score src fqdn chunkID)
       score src fqdn chunkID, [])
  /\ (Reconciler.decide_outcome st score src fqdn chunkID <> Reconciler.ReplaceExact ->
      forall e, e ∈ dat_of st src -> mbproxy e <> fqdn).
Proof.
  split; [apply ReconcilerFacts.reconcile_refines|].
  unfold Reconciler.decide_outcome.
  destruct (existsb (fun e => bool_decide (mbproxy e = fqdn)) (dat_of st src)) eqn:Hex;
    [done|].
  intros _ e He.
  pose proof (ReconcilerFacts.existsb_false_forall _ _ _ Hex He) as Hne.
  by apply bool_decide_eq_false in Hne.
Qed.

(** C4. When a query the reconciler issues returns an error, the reconciler
    returns the zero update (no replace, no insert) and logs; the envelope
    of the same input still carries its pair-record update. *)
Theorem store_error_noop (a : analyzer) (entry : Input) (tsList : list Z)
    (st : tsStats) :
  TsList entry = Some tsList ->
  statistics tsList = Some st ->
  query_fails a
    (combine (skewScore (tsSkew st)) (madmScore (tsMadm st))
             (connCountScore a (ConnectionCount entry)))
    (UniqueSrcIP (Hosts entry)) (FQDN (Hosts entry)) ->
  exists u logs r,
    analyze a entry = Some (u, logs) /\
    hostBeacon u = noUpdate /\
    logs <> [] /\
    beacon u = mkUpdateInfo (Some (SelPair (Hosts entry))) (Some (SetBeacon r)) /\
    bs_tslist r = tsList /\
    uconnproxy u = noUpdate.
Proof.
  intros Hts Hst Hfail. unfold analyze. rewrite Hts, Hst. cbn [mbind option_bind].
  destruct (ReconcilerFacts.reconcile_error _ _ _ _ Hfail) as [Hno Hlog].
  eexists _, _, _. split; [reflexivity|]. cbn [hostBeacon beacon uconnproxy].
  split_and!; try done.
Qed.

Lemma store_error_noop_witness :
  exists u logs r,
    analyze (Scenario.window Scenario.failing) Scenario.s1 = Some (u, logs) /\
    hostBeacon u = noUpdate /\
    logs <> [] /\
    beacon u = mkUpdateInfo (Some (SelPair Scenario.hosts)) (Some (SetBeacon r)) /\
    bs_tslist r = Scenario.s1_tsList /\
    uconnproxy u = noUpdate.
Proof.
  eapply (store_error_noop (Scenario.window Scenario.failing) Scenario.s1
            Scenario.s1_tsList).
  - reflexivity.
  - vm_compute. reflexivity.
  - left. eexists. reflexivity.
Defined.

(** the score emitted in scenario S1, whatever the store answers *)
Lemma s1_emitted_score (ssn : session) :
  emitted_score (Scenario.window ssn) Scenario.s1 = Some (F64.lit 668 1000).
Proof. vm_compute. reflexivity. Qed.

(** C3 (amended).  For tsList = [0, 60, 120, 180, 240, 300] with six
    connections in the window tsMin = 0, tsMax = 36000, chunk 0, the kernel
    yields skew 0 and dispersion 0, both component scores are 1, and the
    emitted score is 0.668: the binary64 value nearest to 668/1000, the one
    the machine writes 0x1.5604189374bc7p-1. *)
Theorem s1_scenario (ssn : session) :
  (exists st,
     statistics Scenario.s1_tsList = Some st /\
     tsSkew st = F64.of_int64 0 /\ tsMadm st = 0 /\
     skewScore (tsSkew st) = F64.lit 1 1 /\
     madmScore (tsMadm st) = F64.lit 1 1) /\
  emitted_score (Scenario.window ssn) Scenario.s1 = Some (F64.lit 668 1000) /\
  F64.lit 668 1000 = F64.of_prim 0x1.5604189374bc7p-1%float.
Proof.
  split_and!.
  - eexists. split; [vm_compute; reflexivity|].
    split_and!; vm_compute; reflexivity.
  - apply s1_emitted_score.
  - vm_compute. reflexivity.
Qed.

(** C3 as stated fails: the score emitted for that input is not 0.667. *)
Lemma s1_score_is_not_0_667 :
  ~ (exists score,
       emitted_score (Scenario.window Scenario.quiet) Scenario.s1 = Some score /\
       F64.eq score (F64.lit 667 1000) = true).
Proof.
  intros (score & Hs & He).
  rewrite (s1_emitted_score Scenario.quiet) in Hs. apply (inj Some) in Hs. rewrite <- Hs in He.
  vm_compute in He. discriminate He.
Qed.

(** ** Auxiliary facts on frequencies *)

Section frequencies.
Import ListFacts KernelFacts.

Lemma freq_perm x l1 l2 : l1 ≡ₚ l2 -> freq x l1 = freq x l2.
Proof. intros H. unfold freq. by rewrite H. Qed.

Lemma sumZ_cons x l : sumZ (x :: l) = x + sumZ l.
Proof. reflexivity. Qed.

Lemma sumZ_fmap_add {A} (f g : A -> Z) xs :
  sumZ ((fun x => f x + g x) <$> xs) = sumZ (f <$> xs) + sumZ (g <$> xs).
Proof.
  induction xs as [|x xs IH]; [done|].
  rewrite !fmap_cons, !sumZ_cons, IH. lia.
Qed.

Lemma sumZ_indicator_out (y : Z) xs :
  y ∉ xs -> sumZ ((fun x => if decide (y = x) then 1 else 0) <$> xs) = 0.
Proof.
  induction xs as [|x xs IH]; intros Hy; [done|].
  apply not_elem_of_cons in Hy as [Hne Hy].
  rewrite fmap_cons, sumZ_cons, IH by done.
  by destruct (decide (y = x)).
Qed.

Lemma sumZ_indicator_in (y : Z) xs :
  NoDup xs -> y ∈ xs ->
  sumZ ((fun x => if decide (y = x) then 1 else 0) <$> xs) = 1.
Proof.
  induction 1 as [|x xs Hx Hnd IH]; intros Hy; [by apply elem_of_nil in Hy|].
  rewrite fmap_cons, sumZ_cons. destruct (decide (y = x)) as [->|Hne].
  - by rewrite sumZ_indicator_out.
  - apply elem_of_cons in Hy as [?|Hy]; [done|]. by rewrite IH.
Qed.

Lemma sumZ_freq xs l :
  NoDup xs -> (forall y, y ∈ l -> y ∈ xs) ->
  sumZ ((fun x => freq x l) <$> xs) = Z.of_nat (length l).
Proof.
  intros Hnd. induction l as [|y l IH]; intros Hin.
  - clear Hin Hnd. induction xs as [|x xs IHx]; [done|].
    rewrite fmap_cons, sumZ_cons, IHx. done.
  - rewrite (list_fmap_ext (fun x => freq x (y :: l))
               (fun x => (if decide (y = x) then 1 else 0) + freq x l) xs)
      by (intros i x _; apply freq_cons).
    rewrite sumZ_fmap_add, IH, sumZ_indicator_in; [simpl length; lia|done| |].
    + apply Hin. left.
    + intros z Hz. apply Hin. by right.
Qed.

Lemma StronglySorted_lt_NoDup (l : list Z) : StronglySorted Z.lt l -> NoDup l.
Proof.
  induction 1 as [|x l Hs IH Hall]; constructor; [|done].
  intros Hx. rewrite Forall_forall in Hall. specialize (Hall x Hx). lia.
Qed.

Lemma StronglySorted_lt_lookup (l : list Z) (i j : nat) a b :
  StronglySorted Z.lt l -> (i <= j)%nat -> l !! i = Some a -> l !! j = Some b ->
  a <= b.
Proof.
  intros Hs. revert i j. induction Hs as [|x l Hs IH Hall]; intros i j Hij Ha Hb; [done|].
  destruct i as [|i], j as [|j]; simpl in *; try lia.
  - assert (a = b) by congruence. lia.
  - assert (a = x) by congruence. subst a.
    rewrite Forall_forall in Hall.
    assert (x < b) by (apply Hall; eapply list_elem_of_lookup_2; eauto). lia.
  - eapply IH; [|done..]. lia.
Qed.

Lemma statistics_one x : statistics [x] = None.
Proof. vm_compute. reflexivity. Qed.

Lemma statistics_nil : statistics [] = None.
Proof. vm_compute. reflexivity. Qed.

End frequencies.

(** C10. With at least two timestamps every slice access of the analysis is
    in bounds and the statistics are computed: the three quartile indices
    and the index of the median deviation lie within 0..m-1 for the
    m-element difference slice, so does m-1, and the count map is built.
    With exactly one timestamp the difference slice is empty and the quartile
    lookup is out of range; with none the allocation of the difference slice
    has a negative length.  In both cases the loop body panics. *)
Theorem slice_accesses :
  (forall tsList : list Z,
     2 <= Go.len tsList <= Go.maxElems ->
     let m := Go.len tsList - 1 in
     is_Some (statistics tsList) /\
     Go.len (util.SortInt64 (Spec.deltas tsList)) = m /\
     (forall p, p ∈ [F64.lit 25 100; F64.lit 5 10; F64.lit 75 100] ->
        0 <= quantileIndex p m <= m - 1) /\
     0 <= m - 1 < m /\
     is_Some (createCountMap (util.SortInt64 (Spec.deltas tsList)))) /\
  (forall (x : Z) (p : float64),
     Go.make (Go.len [x] - 1) = Some [] /\
     Go.index (util.SortInt64 []) (quantileIndex p (Go.len [x] - 1)) = None /\
     statistics [x] = None) /\
  (Go.make (Go.len (@nil Z) - 1) = None /\ statistics [] = None) /\
  (forall (a : analyzer) (entry : Input) (tsList : list Z),
     TsList entry = Some tsList -> Go.len tsList <= 1 -> analyze a entry = None).
Proof.
  split_and!.
  - intros tsList Hlen m.
    destruct (KernelFacts.statistics_ok tsList Hlen) as (st & Hst & Hk).
    assert (Hm : 1 <= m <= 2 ^ 51) by (unfold Go.maxElems in Hlen; lia).
    assert (Hsl : Go.len (util.SortInt64 (Spec.deltas tsList)) = m).
    { unfold Go.len. rewrite KernelFacts.SortInt64_length, ListFacts.deltas_length.
      unfold Go.len in *. lia. }
    split_and!.
    + rewrite Hst. eauto.
    + done.
    + intros p Hp.
      assert (exists c, 1 <= c <= 3 /\ p = FFin (c * 2 ^ 1072)) as (c & Hc & ->).
      { rewrite !elem_of_cons in Hp. destruct Hp as [->|[->|[->|Hp]]].
        - exists 1. split; [lia|apply F64Facts.lit_quarter].
        - exists 2. split; [lia|apply F64Facts.lit_half].
        - exists 3. split; [lia|apply F64Facts.lit_three_quarters].
        - by apply elem_of_nil in Hp. }
      rewrite KernelFacts.quantileIndex_rank by done.
      apply KernelFacts.rank_bounds; lia.
    + lia.
    + lia.
    + destruct Hk as (Hd & _ & _ & _ & _ & _ & _ & _ & Hcm).
      rewrite <- Hd, Hcm. eauto.
  - intros x p. split_and!.
    + reflexivity.
    + unfold Go.index. by destruct (_ <? 0).
    + apply statistics_one.
  - reflexivity.
  - apply statistics_nil.
  - intros a entry tsList Hts Hlen. unfold analyze. rewrite Hts.
    destruct tsList as [|x [|y l]].
    + by rewrite statistics_nil.
    + by rewrite statistics_one.
    + unfold Go.len in Hlen. simpl in Hlen. lia.
Qed.

(** C6. For a tsList of length n >= 2 the kernel forms the differences
    diff[i] = tsList[i+1] - tsList[i] (int64), sorts them ascending (m = n-1
    of them), takes Q1, Q2, Q3 at the indices round(p * (m-1)), p = 1/4,
    1/2, 3/4, rounded half away from zero, takes the dispersion at index
    round((m-1)/2) of the ascending absolute deviations |diff[i] - Q2|, and
    the range as diff[m-1] - diff[0]. *)
Theorem kernel_order_statistics (tsList : list Z) :
  2 <= Go.len tsList <= Go.maxElems ->
  exists st,
    statistics tsList = Some st /\
    let m := Go.len tsList - 1 in
    Go.len (Spec.deltas tsList) = m /\
    (forall (i : nat) a b,
       tsList !! i = Some a -> tsList !! S i = Some b ->
       Spec.deltas tsList !! i = Some (Int64.sub b a)) /\
    Sorted Z.le (diff st) /\ diff st ≡ₚ Spec.deltas tsList /\
    diff st !! Z.to_nat (Spec.rank 1 m) = Some (tsLow st) /\
    diff st !! Z.to_nat (Spec.rank 2 m) = Some (tsMid st) /\
    diff st !! Z.to_nat (Spec.rank 3 m) = Some (tsHigh st) /\
    Sorted Z.le (devs st) /\
    devs st ≡ₚ Spec.deviations (tsMid st) (diff st) /\
    devs st !! Z.to_nat (Spec.rank 2 m) = Some (tsMadm st) /\
    exists lo hi,
      diff st !! 0%nat = Some lo /\ diff st !! Z.to_nat (m - 1) = Some hi /\
      tsIntervalRange st = Int64.sub hi lo.
Proof.
  intros Hlen.
  destruct (KernelFacts.statistics_ok tsList Hlen)
    as (st & Hst & Hd & H1 & H2 & H3 & _ & Hdv & Hm & Hr & _).
  exists st. split; [done|]. cbv zeta. split_and!; try done.
  - unfold Go.len. rewrite ListFacts.deltas_length. unfold Go.len in Hlen. lia.
  - intros i a b. apply ListFacts.deltas_lookup.
  - rewrite Hd. apply KernelFacts.SortInt64_sorted.
  - rewrite Hd. apply KernelFacts.SortInt64_perm.
  - rewrite Hdv. apply KernelFacts.SortInt64_sorted.
  - rewrite Hdv. apply KernelFacts.SortInt64_perm.
Qed.

Lemma kernel_order_statistics_witness :
  exists st,
    statistics Scenario.s1_tsList = Some st /\
    let m := Go.len Scenario.s1_tsList - 1 in
    Go.len (Spec.deltas Scenario.s1_tsList) = m /\
    (forall (i : nat) a b,
       Scenario.s1_tsList !! i = Some a -> Scenario.s1_tsList !! S i = Some b ->
       Spec.deltas Scenario.s1_tsList !! i = Some (Int64.sub b a)) /\
    Sorted Z.le (diff st) /\ diff st ≡ₚ Spec.deltas Scenario.s1_tsList /\
    diff st !! Z.to_nat (Spec.rank 1 m) = Some (tsLow st) /\
    diff st !! Z.to_nat (Spec.rank 2 m) = Some (tsMid st) /\
    diff st !! Z.to_nat (Spec.rank 3 m) = Some (tsHigh st) /\
    Sorted Z.le (devs st) /\
    devs st ≡ₚ Spec.deviations (tsMid st) (diff st) /\
    devs st !! Z.to_nat (Spec.rank 2 m) = Some (tsMadm st) /\
    exists lo hi,
      diff st !! 0%nat = Some lo /\ diff st !! Z.to_nat (m - 1) = Some hi /\
      tsIntervalRange st = Int64.sub hi lo.
Proof.
  apply (kernel_order_statistics Scenario.s1_tsList).
  vm_compute. split; discriminate.
Defined.

(** C8. For a tsList of length n >= 2 the returned intervals are exactly the
    distinct differences in strictly ascending order; intervalCounts[i] is
    the frequency of intervals[i] among the differences and the counts sum
    to n - 1; the mode is an element of intervals, its count is modeCount,
    modeCount is the largest count, and among the intervals of that count
    the mode is the smallest. *)
Theorem interval_histogram (tsList : list Z) :
  2 <= Go.len tsList <= Go.maxElems ->
  exists st,
    statistics tsList = Some st /\
    StronglySorted Z.lt (intervals st) /\
    (forall x, x ∈ intervals st <-> x ∈ Spec.deltas tsList) /\
    intervalCounts st = (fun x => freq x (Spec.deltas tsList)) <$> intervals st /\
    sumZ (intervalCounts st) = Go.len tsList - 1 /\
    exists p : nat,
      intervals st !! p = Some (tsMode st) /\
      intervalCounts st !! p = Some (tsModeCount st) /\
      (forall (j : nat) c, intervalCounts st !! j = Some c -> c <= tsModeCount st) /\
      (forall (j : nat) y,
         intervals st !! j = Some y ->
         intervalCounts st !! j = Some (tsModeCount st) -> tsMode st <= y).
Proof.
  intros Hlen.
  destruct (KernelFacts.statistics_ok tsList Hlen)
    as (st & Hst & Hd & _ & _ & _ & _ & _ & _ & _ & Hcm).
  assert (Hperm : diff st ≡ₚ Spec.deltas tsList)
    by (rewrite Hd; apply KernelFacts.SortInt64_perm).
  assert (Hsorted : Sorted Z.le (diff st))
    by (rewrite Hd; apply KernelFacts.SortInt64_sorted).
  assert (Hdl : length (diff st) = (length tsList - 1)%nat).
  { rewrite Hd, KernelFacts.SortInt64_length. apply ListFacts.deltas_length. }
  unfold Go.maxElems, Go.len in Hlen.
  destruct (ListFacts.createCountMap_ok (diff st))
    as (ivs & cnts & mode & mc & Hrun & Hne & Hmem & Hss & Hcnt & p & Hp & Hpc & Hmax).
  { lia. }
  { unfold Go.len. lia. }
  rewrite Hrun in Hcm. injection Hcm as E1 E2 E3 E4.
  specialize (Hss Hsorted).
  assert (Hcnt' : cnts = (fun x => freq x (Spec.deltas tsList)) <$> ivs).
  { rewrite Hcnt. apply list_fmap_ext. intros i x _. by apply freq_perm. }
  exists st. split; [done|]. rewrite <- E1, <- E2, <- E3, <- E4.
  split_and!; try done.
  - intros x. rewrite Hmem. by rewrite Hperm.
  - rewrite Hcnt', sumZ_freq.
    + rewrite ListFacts.deltas_length. unfold Go.len. lia.
    + by apply StronglySorted_lt_NoDup.
    + intros y Hy. apply Hmem. by rewrite Hperm.
  - exists p. split_and!; try done.
    + intros j c Hc. by apply (Hmax j c).
    + intros j y Hy Hc. destruct (Hmax j mc Hc) as [_ Hpj].
      eapply (StronglySorted_lt_lookup ivs p j); eauto.
Qed.

Lemma interval_histogram_witness :
  exists st,
    statistics Scenario.s1_tsList = Some st /\
    StronglySorted Z.lt (intervals st) /\
    (forall x, x ∈ intervals st <-> x ∈ Spec.deltas Scenario.s1_tsList) /\
    intervalCounts st
      = (fun x => freq x (Spec.deltas Scenario.s1_tsList)) <$> intervals st /\
    sumZ (intervalCounts st) = Go.len Scenario.s1_tsList - 1 /\
    exists p : nat,
      intervals st !! p = Some (tsMode st) /\
      intervalCounts st !! p = Some (tsModeCount st) /\
      (forall (j : nat) c, intervalCounts st !! j = Some c -> c <= tsModeCount st) /\
      (forall (j : nat) y,
         intervals st !! j = Some y ->
         intervalCounts st !! j = Some (tsModeCount st) -> tsMode st <= y).
Proof.
  apply (interval_histogram Scenario.s1_tsList).
  vm_compute. split; discriminate.
Defined.

(** C7. For an ascending tsList of int64 timestamps of length n >= 2, with
    Q1, Q2, Q3 the elements of the ascending differences of tsList at the
    ranks round(p * (m - 1)), p = 1/4, 1/2, 3/4, the skew is the quotient
    (Q1 + Q3 - 2*Q2) / (Q3 - Q1) when Q3 <> Q1, Q2 <> Q1 and Q2 <> Q3, and 0
    otherwise; it lies in [-1, 1]; and it is the ts.skew of the record the
    analysis of such an entry emits. *)
Theorem bowley_skew (tsList : list Z) :
  Sorted Z.le tsList -> Forall Int64.in_range tsList ->
  2 <= Go.len tsList <= Go.maxElems ->
  exists st q1 q2 q3,
    statistics tsList = Some st /\
    let m := Go.len tsList - 1 in
    Sorted Z.le (diff st) /\ diff st ≡ₚ Spec.deltas tsList /\
    diff st !! Z.to_nat (Spec.rank 1 m) = Some q1 /\
    diff st !! Z.to_nat (Spec.rank 2 m) = Some q2 /\
    diff st !! Z.to_nat (Spec.rank 3 m) = Some q3 /\
    tsSkew st =
      (if bool_decide (q3 <> q1) && bool_decide (q2 <> q1) && bool_decide (q2 <> q3)
       then F64.div (F64.of_int64 (q1 + q3 - 2 * q2)) (F64.of_int64 (q3 - q1))
       else F64.of_int64 0) /\
    F64.le (F64.lit (-1) 1) (tsSkew st) = true /\
    F64.le (tsSkew st) (F64.lit 1 1) = true /\
    (forall (a : analyzer) (entry : Input),
       TsList entry = Some tsList ->
       exists u logs r,
         analyze a entry = Some (u, logs) /\
         ui_query (beacon u) = Some (SetBeacon r) /\
         ts_skew r = tsSkew st).
Proof.
  intros Hasc Hrange Hlen.
  destruct (KernelFacts.statistics_ok tsList Hlen) as (st & Hst & Hk).
  destruct (KernelFacts.skew_facts tsList st Hasc Hrange Hlen Hk) as [Hs Hb].
  pose proof (KernelFacts.diff_sorted tsList st Hk) as Hsorted.
  destruct Hk as (Ed & H1 & H2 & H3 & _).
  exists st, (tsLow st), (tsMid st), (tsHigh st). split; [exact Hst|]. cbv zeta.
  split; [exact Hsorted|].
  split; [rewrite Ed; apply KernelFacts.SortInt64_perm|].
  split; [exact H1|]. split; [exact H2|]. split; [exact H3|].
  split; [rewrite KernelFacts.of_int64_zero; exact Hs|].
  destruct (KernelFacts.fin_in_abs_le _ Hb) as [Hlo Hhi].
  split; [exact Hlo|]. split; [exact Hhi|].
  intros a entry Hts. unfold analyze. rewrite Hts, Hst. cbn [mbind option_bind].
  eexists _, _, _. split; [reflexivity|]. cbn [beacon ui_query].
  split; [reflexivity|]. cbn [ts_skew]. reflexivity.
Qed.

Lemma bowley_skew_witness :
  exists st q1 q2 q3,
    statistics [0; 1; 2; 4; 8; 17] = Some st /\
    let m := Go.len [0; 1; 2; 4; 8; 17] - 1 in
    Sorted Z.le (diff st) /\ diff st ≡ₚ Spec.deltas [0; 1; 2; 4; 8; 17] /\
    diff st !! Z.to_nat (Spec.rank 1 m) = Some q1 /\
    diff st !! Z.to_nat (Spec.rank 2 m) = Some q2 /\
    diff st !! Z.to_nat (Spec.rank 3 m) = Some q3 /\
    tsSkew st =
      (if bool_decide (q3 <> q1) && bool_decide (q2 <> q1) && bool_decide (q2 <> q3)
       then F64.div (F64.of_int64 (q1 + q3 - 2 * q2)) (F64.of_int64 (q3 - q1))
       else F64.of_int64 0) /\
    F64.le (F64.lit (-1) 1) (tsSkew st) = true /\
    F64.le (tsSkew st) (F64.lit 1 1) = true /\
    (forall (a : analyzer) (entry : Input),
       TsList entry = Some [0; 1; 2; 4; 8; 17] ->
       exists u logs r,
         analyze a entry = Some (u, logs) /\
         ui_query (beacon u) = Some (SetBeacon r) /\
         ts_skew r = tsSkew st).
Proof.
  apply (bowley_skew [0; 1; 2; 4; 8; 17]).
  - repeat constructor; lia.
  - unfold Int64.in_range, Int64.min_int, Int64.max_int. repeat constructor; lia.
  - vm_compute. split; discriminate.
Defined.

(** the timestamps 0, 1, 2, 4, 8, 17 have the differences 1, 1, 2, 4, 9,
    the quartiles 1, 2 and 4, and the skew 1/3 *)
Example skew_one_third :
  (fun st => (tsLow st, tsMid st, tsHigh st, tsSkew st))
    <$> statistics [0; 1; 2; 4; 8; 17]
  = Some (1, 2, 4, F64.div (F64.of_int64 1) (F64.of_int64 3)).
Proof. vm_compute. reflexivity. Qed.

(** C1. For a non-strobe input whose tsList is ascending, of int64
    timestamps, with at least four of them, whose connection count is at
    least 1, and a window with tsMin < tsMax: the record emitted carries the
    Bowley skew of the quartiles of the ascending differences of tsList,
    the median of the ascending absolute deviations from the median as
    dispersion, and the connection score
    min(1, connectionCount / ((tsMax - tsMin) / 10)); its score equals
    ceil((((1 - |skew|) + max(0, 1 - dispersion/30) + connsScore) / 3) * 1000)
    / 1000, lies in [0, 1] and is k/1000 for an integer k between 0 and
    1000 (the binary64 quotient). *)
Theorem pair_score_range (a : analyzer) (entry : Input) (tsList : list Z) :
  TsList entry = Some tsList ->
  Sorted Z.le tsList -> Forall Int64.in_range tsList ->
  4 <= Go.len tsList <= Go.maxElems ->
  1 <= ConnectionCount entry <= Int64.max_int ->
  Int64.in_range (tsMin a) -> Int64.in_range (tsMax a) -> tsMin a < tsMax a ->
  exists u logs r q1 q2 q3,
    analyze a entry = Some (u, logs) /\
    ui_query (beacon u) = Some (SetBeacon r) /\
    util.SortInt64 (Spec.deltas tsList)
      !! Z.to_nat (Spec.rank 1 (Go.len tsList - 1)) = Some q1 /\
    util.SortInt64 (Spec.deltas tsList)
      !! Z.to_nat (Spec.rank 2 (Go.len tsList - 1)) = Some q2 /\
    util.SortInt64 (Spec.deltas tsList)
      !! Z.to_nat (Spec.rank 3 (Go.len tsList - 1)) = Some q3 /\
    ts_skew r =
      (if bool_decide (q3 <> q1) && bool_decide (q2 <> q1) && bool_decide (q2 <> q3)
       then F64.div (F64.of_int64 (q1 + q3 - 2 * q2)) (F64.of_int64 (q3 - q1))
       else F64.of_int64 0) /\
    util.SortInt64 (Spec.deviations q2 (util.SortInt64 (Spec.deltas tsList)))
      !! Z.to_nat (Spec.rank 2 (Go.len tsList - 1)) = Some (ts_dispersion r) /\
    ts_conns_score r =
      (if F64.lt (F64.lit 1 1)
            (F64.div (F64.of_int64 (ConnectionCount entry))
               (F64.div (F64.sub (F64.of_int64 (tsMax a)) (F64.of_int64 (tsMin a)))
                        (F64.lit 10 1)))
       then F64.lit 1 1
       else F64.div (F64.of_int64 (ConnectionCount entry))
              (F64.div (F64.sub (F64.of_int64 (tsMax a)) (F64.of_int64 (tsMin a)))
                       (F64.lit 10 1))) /\
    bs_score r =
      F64.div
        (F64.ceil
           (F64.mul
              (F64.div
                 (F64.add
                    (F64.add
                       (F64.sub (F64.lit 1 1) (F64.abs (ts_skew r)))
                       (if F64.lt (F64.sub (F64.lit 1 1)
                                     (F64.div (F64.of_int64 (ts_dispersion r))
                                              (F64.lit 30 1)))
                                  (F64.of_int64 0)
                        then F64.of_int64 0
                        else F64.sub (F64.lit 1 1)
                               (F64.div (F64.of_int64 (ts_dispersion r))
                                        (F64.lit 30 1))))
                    (ts_conns_score r))
                 (F64.lit 3 1))
              (F64.lit 1000 1)))
        (F64.lit 1000 1) /\
    F64.le (F64.lit 0 1) (bs_score r) = true /\
    F64.le (bs_score r) (F64.lit 1 1) = true /\
    (exists k, 0 <= k <= 1000 /\
               bs_score r = F64.div (F64.of_int64 k) (F64.lit 1000 1)) /\
    ts_score r = bs_score r.
Proof.
  intros Hts Hasc Hrange Hlen Hcc Hmin Hmax Hwin.
  assert (Hlen2 : 2 <= Go.len tsList <= Go.maxElems) by lia.
  destruct (KernelFacts.statistics_ok tsList Hlen2) as (st & Hst & Hk).
  destruct (KernelFacts.skew_facts tsList st Hasc Hrange Hlen2 Hk) as [Hsk Hskew].
  pose proof (KernelFacts.madm_range tsList st Hasc Hrange Hlen2 Hk ltac:(lia)) as Hmadm.
  pose proof (KernelFacts.skewScore_unit _ Hskew) as Hs.
  pose proof (KernelFacts.madmScore_unit (tsMadm st)
                ltac:(unfold Int64.max_int in Hmadm; lia)) as Hm.
  pose proof (KernelFacts.connCountScore_unit a (ConnectionCount entry)
                Hmin Hmax ltac:(lia) Hcc) as Hc.
  destruct (KernelFacts.combine_unit _ _ _ Hs Hm Hc) as (k & Hk1 & Hk2 & Hunit).
  destruct (KernelFacts.fin_in_unit_le _ Hunit) as [Hle0 Hle1].
  destruct Hk as (Ed & H1 & H2 & H3 & _ & Edv & Hmd & _).
  unfold analyze. rewrite Hts, Hst. cbn [mbind option_bind].
  eexists _, _, _, (tsLow st), (tsMid st), (tsHigh st).
  split; [reflexivity|]. cbn [beacon ui_query].
  split; [reflexivity|].
  cbn [bs_score ts_score ts_skew ts_dispersion ts_conns_score].
  split; [rewrite <- Ed; exact H1|].
  split; [rewrite <- Ed; exact H2|].
  split; [rewrite <- Ed; exact H3|].
  split; [rewrite KernelFacts.of_int64_zero; exact Hsk|].
  split; [unfold Spec.deviations; rewrite <- Ed, <- Edv; exact Hmd|].
  split; [unfold connCountScore; reflexivity|].
  split; [unfold combine, skewScore, madmScore; reflexivity|].
  split; [exact Hle0|]. split; [exact Hle1|].
  split; [exists k; split; [exact Hk1|exact Hk2]|].
  reflexivity.
Qed.

Lemma pair_score_range_witness :
  exists u logs r q1 q2 q3,
    analyze (Scenario.window Scenario.quiet) Scenario.s1 = Some (u, logs) /\
    ui_query (beacon u) = Some (SetBeacon r) /\
    util.SortInt64 (Spec.deltas Scenario.s1_tsList)
      !! Z.to_nat (Spec.rank 1 (Go.len Scenario.s1_tsList - 1)) = Some q1 /\
    util.SortInt64 (Spec.deltas Scenario.s1_tsList)
      !! Z.to_nat (Spec.rank 2 (Go.len Scenario.s1_tsList - 1)) = Some q2 /\
    util.SortInt64 (Spec.deltas Scenario.s1_tsList)
      !! Z.to_nat (Spec.rank 3 (Go.len Scenario.s1_tsList - 1)) = Some q3 /\
    ts_skew r =
      (if bool_decide (q3 <> q1) && bool_decide (q2 <> q1) && bool_decide (q2 <> q3)
       then F64.div (F64.of_int64 (q1 + q3 - 2 * q2)) (F64.of_int64 (q3 - q1))
       else F64.of_int64 0) /\
    util.SortInt64 (Spec.deviations q2 (util.SortInt64 (Spec.deltas Scenario.s1_tsList)))
      !! Z.to_nat (Spec.rank 2 (Go.len Scenario.s1_tsList - 1)) = Some (ts_dispersion r) /\
    ts_conns_score r =
      (if F64.lt (F64.lit 1 1)
            (F64.div (F64.of_int64 (ConnectionCount Scenario.s1))
               (F64.div (F64.sub (F64.of_int64 (tsMax (Scenario.window Scenario.quiet))) (F64.of_int64 (tsMin (Scenario.window Scenario.quiet))))
                        (F64.lit 10 1)))
       then F64.lit 1 1
       else F64.div (F64.of_int64 (ConnectionCount Scenario.s1))
              (F64.div (F64.sub (F64.of_int64 (tsMax (Scenario.window Scenario.quiet))) (F64.of_int64 (tsMin (Scenario.window Scenario.quiet))))
                       (F64.lit 10 1))) /\
    bs_score r =
      F64.div
        (F64.ceil
           (F64.mul
              (F64.div
                 (F64.add
                    (F64.add
                       (F64.sub (F64.lit 1 1) (F64.abs (ts_skew r)))
                       (if F64.lt (F64.sub (F64.lit 1 1)
                                     (F64.div (F64.of_int64 (ts_dispersion r))
                                              (F64.lit 30 1)))
                                  (F64.of_int64 0)
                        then F64.of_int64 0
                        else F64.sub (F64.lit 1 1)
                               (F64.div (F64.of_int64 (ts_dispersion r))
                                        (F64.lit 30 1))))
                    (ts_conns_score r))
                 (F64.lit 3 1))
              (F64.lit 1000 1)))
        (F64.lit 1000 1) /\
    F64.le (F64.lit 0 1) (bs_score r) = true /\
    F64.le (bs_score r) (F64.lit 1 1) = true /\
    (exists k, 0 <= k <= 1000 /\
               bs_score r = F64.div (F64.of_int64 k) (F64.lit 1000 1)) /\
    ts_score r = bs_score r.
Proof.
  apply (pair_score_range (Scenario.window Scenario.quiet) Scenario.s1
           Scenario.s1_tsList).
  - reflexivity.
  - unfold Scenario.s1_tsList. repeat constructor; lia.
  - unfold Scenario.s1_tsList, Int64.in_range, Int64.min_int, Int64.max_int.
    repeat constructor; lia.
  - vm_compute. split; discriminate.
  - vm_compute. split; discriminate.
  - vm_compute. split; discriminate.
  - vm_compute. split; discriminate.
  - vm_compute. reflexivity.
Defined.



(** * Further properties of the analyzer *)

Section gaps.
Import ListFacts KernelFacts.

(** the statistics are a function of the length of the list and of the
    sorted differences *)
Lemma statistics_congr (ts1 ts2 : list Z) :
  length ts1 = length ts2 ->
  util.SortInt64 (Spec.deltas ts1) = util.SortInt64 (Spec.deltas ts2) ->
  statistics ts1 = statistics ts2.
Proof.
  intros Hlen Hs.
  assert (HL : Go.len ts1 = Go.len ts2) by (unfold Go.len; lia).
  destruct ts1 as [|x1 ts1]; [by destruct ts2|].
  destruct ts2 as [|x2 ts2]; [done|].
  unfold statistics.
  rewrite (make_ok (Go.len (x1 :: ts1) - 1)), (make_ok (Go.len (x2 :: ts2) - 1))
    by (unfold Go.len; simpl length; lia).
  cbn [mbind option_bind].
  rewrite (diff_loop (x1 :: ts1)), (diff_loop (x2 :: ts2)) by (simpl; lia).
  cbn [mbind option_bind].
  rewrite Hs, HL. reflexivity.
Qed.

Lemma SortInt64_of_perm (l1 l2 : list Z) :
  l1 ≡ₚ l2 -> util.SortInt64 l1 = util.SortInt64 l2.
Proof.
  intros Hp. unfold util.SortInt64.
  apply (Sorted_unique Z.le); try apply _.
  - apply Sorted_merge_sort. apply _.
  - apply Sorted_merge_sort. apply _.
  - by rewrite !merge_sort_Permutation.
Qed.

Lemma deltas_nil_length (ts : list Z) : Spec.deltas ts = [] -> (length ts <= 1)%nat.
Proof.
  intros H. pose proof (deltas_length ts) as HL. rewrite H in HL. simpl in HL. lia.
Qed.

Lemma statistics_short (ts : list Z) : (length ts <= 1)%nat -> statistics ts = None.
Proof.
  destruct ts as [|x [|y ts]]; simpl; intros H; [| |lia].
  - vm_compute. reflexivity.
  - vm_compute. reflexivity.
Qed.

Lemma sub_add_cancel (a b c : Z) :
  Int64.sub (Int64.add b c) (Int64.add a c) = Int64.sub b a.
Proof.
  unfold Int64.sub, Int64.add. apply wrap_eq_of_mod; [apply wrap_range|].
  rewrite wrap_mod, Zminus_mod, !wrap_mod, <- Zminus_mod.
  f_equal. lia.
Qed.

Lemma deltas_shift (c : Z) (ts : list Z) :
  Spec.deltas ((fun t => Int64.add t c) <$> ts) = Spec.deltas ts.
Proof.
  unfold Spec.deltas. rewrite <- fmap_drop, zip_with_fmap_l, zip_with_fmap_r.
  apply zip_with_ext; [|done..]. intros a b. apply sub_add_cancel.
Qed.

End gaps.

(** X1. The statistics kernel sees the timestamps only through their
    consecutive differences: two lists whose differences agree up to order
    get the same statistics, or both make the kernel panic. *)
Theorem statistics_gaps_only (ts1 ts2 : list Z) :
  Spec.deltas ts1 ≡ₚ Spec.deltas ts2 -> statistics ts1 = statistics ts2.
Proof.
  intros Hp.
  pose proof (Permutation_length Hp) as HL.
  rewrite !ListFacts.deltas_length in HL.
  destruct (decide (length ts1 <= 1)%nat) as [H1|H1].
  - rewrite (statistics_short ts1 H1), (statistics_short ts2) by lia. done.
  - apply statistics_congr; [lia|]. by apply SortInt64_of_perm.
Qed.

Lemma statistics_gaps_only_witness :
  Spec.deltas [0; 10; 30] ≡ₚ Spec.deltas [5; 25; 35] /\
  statistics [0; 10; 30] = statistics [5; 25; 35].
Proof.
  assert (H : Spec.deltas [0; 10; 30] ≡ₚ Spec.deltas [5; 25; 35]).
  { vm_compute. apply perm_swap. }
  split; [exact H|]. exact (statistics_gaps_only [0; 10; 30] [5; 25; 35] H).
Defined.

(** X2. Moving every timestamp by the same int64 offset, wrap-around
    included, changes nothing in the statistics. *)
Theorem statistics_shift (c : Z) (ts : list Z) :
  statistics ((fun t => Int64.add t c) <$> ts) = statistics ts.
Proof.
  apply statistics_congr; [by rewrite length_fmap|]. by rewrite deltas_shift.
Qed.

Section scores.
Import F64 F64Facts ListFacts KernelFacts.

Lemma round_false_val a b :
  rnd_pos a b < huge -> round false a b = FFin (rnd_pos a b).
Proof.
  intros H. unfold round. cbv zeta.
  destruct (Z.leb_spec huge (rnd_pos a b)); [lia|].
  destruct (Z.eqb_spec (rnd_pos a b) 0) as [E|E]; [by rewrite E|done].
Qed.

Lemma rnd_pos_zero b : 0 < b -> rnd_pos 0 b = 0.
Proof.
  intros Hb. replace 0 with (0 * 2 ^ 0 * b) at 1 by lia.
  rewrite rnd_pos_exact by lia. lia.
Qed.

Lemma div_pos_val a b :
  0 <= a -> 0 < b -> rnd_pos (a * one_u) b < huge ->
  div (FFin a) (FFin b) = FFin (rnd_pos (a * one_u) b).
Proof.
  intros Ha Hb Hh. unfold div. cbn [val sign].
  destruct (Z.eqb_spec b 0); [lia|].
  destruct (Z.ltb_spec a 0); [lia|]. destruct (Z.ltb_spec b 0); [lia|].
  cbn [xorb]. rewrite !Z.abs_eq by lia. by apply round_false_val.
Qed.

Lemma sub_pos_val a b :
  b <= a -> rnd_pos (a - b) 1 < huge ->
  sub (FFin a) (FFin b) = FFin (rnd_pos (a - b) 1).
Proof.
  intros Hab Hh. unfold sub. destruct (neg_fin_val b) as [Hf Hv].
  rewrite add_finite_unfold by done. cbv zeta. rewrite Hv. cbn [val].
  replace (a + - b) with (a - b) by lia.
  destruct (Z.eqb_spec (a - b) 0) as [E|E].
  - rewrite E, rnd_pos_zero by lia.
    assert (Hs : sign (FFin a) && sign (neg (FFin b)) = false).
    { assert (b = a) as -> by lia.
      destruct a as [|p|p]; simpl; try reflexivity. }
    rewrite Hs. reflexivity.
  - destruct (Z.ltb_spec (a - b) 0); [lia|].
    rewrite Z.abs_eq by lia. by apply round_false_val.
Qed.

Lemma le_fin a b : a <= b -> le (FFin a) (FFin b) = true.
Proof.
  intros H. unfold le, lt, F64.eq. cbn [val]. apply orb_true_iff.
  destruct (Z.eq_dec a b); [right; by apply Z.eqb_eq|left; apply Z.ltb_lt; lia].
Qed.

(** the dispersion score as one closed expression *)
Lemma madmScore_val m :
  0 <= m <= Int64.max_int ->
  let w := rnd_pos (val (of_int64 m) * one_u) (30 * one_u) in
  0 <= w /\
  madmScore m = FFin (if w <=? one_u then rnd_pos (one_u - w) 1 else 0).
Proof.
  unfold Int64.max_int. intros Hm. pose proof one_u_pos as HU. cbv zeta.
  pose proof (of_int64_bounds m ltac:(lia)) as Hv.
  pose proof (of_int64_mono 0 m ltac:(simpl; lia) ltac:(lia) ltac:(lia)) as H0.
  rewrite of_int64_zero in H0. cbn [val] in H0.
  remember (val (of_int64 m)) as v eqn:Ev.
  assert (Hw : 0 <= rnd_pos (v * one_u) (30 * one_u) <= 2 ^ 63 * one_u).
  { apply rnd_pos_range; side. }
  remember (rnd_pos (v * one_u) (30 * one_u)) as w eqn:Ew.
  split; [lia|].
  unfold madmScore.
  rewrite lit_one, (lit_int 30), of_int64_zero by lia.
  rewrite (of_int64_fin m), <- Ev by lia.
  rewrite div_pos_val, <- Ew; [|lia|lia|].
  2:{ rewrite <- Ew. pose proof (pow2_u_lt_huge 63 ltac:(lia)). lia. }
  destruct (Z.leb_spec w one_u) as [Hle|Hgt].
  - assert (Hn : 0 <= rnd_pos (one_u - w) 1 <= one_u).
    { apply rnd_pos_range; side. }
    rewrite sub_pos_val; [|lia|pose proof one_lt_huge; lia].
    unfold lt. cbn [val].
    destruct (Z.ltb_spec (rnd_pos (one_u - w) 1) 0); [lia|done].
  - rewrite sub_neg_lt0 by lia. done.
Qed.

Lemma of_int64_30 : of_int64 30 = FFin (30 * one_u).
Proof. apply of_int64_exact. simpl. lia. Qed.

End scores.

(** X3. The dispersion score never grows with the dispersion: of two
    median absolute deviations the larger one gets the smaller score, or
    the same. *)
Theorem madmScore_monotone (m1 m2 : Z) :
  0 <= m1 -> m1 <= m2 -> m2 <= Int64.max_int ->
  F64.le (madmScore m2) (madmScore m1) = true.
Proof.
  intros H0 H12 Hmax. pose proof F64Facts.one_u_pos as HU.
  destruct (madmScore_val m1 ltac:(lia)) as [Hw1 ->].
  destruct (madmScore_val m2 ltac:(lia)) as [Hw2 ->].
  unfold Int64.max_int in Hmax.
  pose proof (F64Facts.of_int64_mono m1 m2 ltac:(lia) ltac:(lia) H12) as Hv.
  pose proof (F64Facts.of_int64_mono 0 m1 ltac:(simpl; lia) ltac:(lia) H0) as Hv0.
  rewrite KernelFacts.of_int64_zero in Hv0. cbn [F64.val] in Hv0.
  assert (Hw : F64.rnd_pos (F64.val (F64.of_int64 m1) * F64.one_u) (30 * F64.one_u)
               <= F64.rnd_pos (F64.val (F64.of_int64 m2) * F64.one_u) (30 * F64.one_u)).
  { apply F64Facts.rnd_pos_mono; nia. }
  remember (F64.rnd_pos (F64.val (F64.of_int64 m1) * F64.one_u) (30 * F64.one_u)) as w1.
  remember (F64.rnd_pos (F64.val (F64.of_int64 m2) * F64.one_u) (30 * F64.one_u)) as w2.
  apply le_fin.
  destruct (Z.leb_spec w2 F64.one_u) as [L2|L2].
  - destruct (Z.leb_spec w1 F64.one_u) as [L1|L1]; [|lia].
    apply F64Facts.rnd_pos_mono; lia.
  - destruct (Z.leb_spec w1 F64.one_u) as [L1|L1]; [|lia].
    apply F64Facts.rnd_pos_nonneg; lia.
Qed.

Lemma madmScore_monotone_witness :
  F64.le (madmScore 12) (madmScore 7) = true.
Proof.
  apply (madmScore_monotone 7 12); [lia|lia|vm_compute; discriminate].
Defined.

(** X4. The dispersion score is cut off at thirty seconds exactly: it is
    zero for a median absolute deviation of 30 or more, positive below 30,
    and one for the deviation zero. *)
Theorem madmScore_cutoff (m : Z) :
  0 <= m <= Int64.max_int ->
  (30 <= m -> madmScore m = F64.of_int64 0) /\
  (m < 30 -> F64.lt (F64.of_int64 0) (madmScore m) = true) /\
  (m = 0 -> madmScore m = F64.lit 1 1).
Proof.
  intros Hm. pose proof F64Facts.one_u_pos as HU.
  destruct (madmScore_val m Hm) as [Hw ->].
  unfold Int64.max_int in Hm.
  rewrite KernelFacts.of_int64_zero, KernelFacts.lit_one.
  split_and!.
  - intros H30.
    pose proof (F64Facts.of_int64_mono 30 m ltac:(simpl; lia) ltac:(lia) H30) as Hv.
    rewrite of_int64_30 in Hv. cbn [F64.val] in Hv.
    assert (Hge : 1 * 2 ^ 1074
                  <= F64.rnd_pos (F64.val (F64.of_int64 m) * F64.one_u) (30 * F64.one_u)).
    { apply F64Facts.rnd_pos_ge; [nia|lia|lia|lia|]. rewrite <- F64Facts.one_u_eq. nia. }
    rewrite <- F64Facts.one_u_eq, Z.mul_1_l in Hge.
    destruct (Z.leb_spec
                (F64.rnd_pos (F64.val (F64.of_int64 m) * F64.one_u) (30 * F64.one_u))
                F64.one_u) as [L|L]; [|done].
    replace (F64.one_u - _) with 0 by lia.
    rewrite rnd_pos_zero by lia. done.
  - intros H30.
    rewrite (F64Facts.of_int64_exact m) by lia. cbn [F64.val].
    assert (Hle : F64.rnd_pos (m * F64.one_u * F64.one_u) (30 * F64.one_u)
                  <= 31 * 2 ^ 1069).
    { apply F64Facts.rnd_pos_le; [nia|lia|lia|lia|].
      rewrite F64Facts.one_u_eq. change (2 ^ 1074) with (32 * 2 ^ 1069).
      pose proof (F64Facts.pow2_pos 1069 ltac:(lia)). nia. }
    assert (HU' : F64.one_u = 32 * 2 ^ 1069) by (rewrite F64Facts.one_u_eq; done).
    pose proof (F64Facts.pow2_pos 1069 ltac:(lia)) as Hp.
    destruct (Z.leb_spec
                (F64.rnd_pos (m * F64.one_u * F64.one_u) (30 * F64.one_u))
                F64.one_u) as [L|L]; [|lia].
    assert (Hn : 1 * 2 ^ 1069
                 <= F64.rnd_pos
                      (F64.one_u
                       - F64.rnd_pos (m * F64.one_u * F64.one_u) (30 * F64.one_u)) 1).
    { apply F64Facts.rnd_pos_ge; lia. }
    unfold F64.lt. cbn [F64.val]. apply Z.ltb_lt. lia.
  - intros ->.
    rewrite (F64Facts.of_int64_exact 0) by (simpl; lia). cbn [F64.val].
    rewrite Z.mul_0_l, rnd_pos_zero by lia.
    destruct (Z.leb_spec 0 F64.one_u); [|lia].
    rewrite Z.sub_0_r.
    assert (E : F64.rnd_pos F64.one_u 1 = F64.one_u).
    { apply Z.le_antisymm.
      - replace F64.one_u with (1 * 2 ^ 1074) at 2 by (rewrite F64Facts.one_u_eq; lia).
        apply F64Facts.rnd_pos_le; [lia..|]. rewrite <- F64Facts.one_u_eq. lia.
      - replace F64.one_u with (1 * 2 ^ 1074) at 1 by (rewrite F64Facts.one_u_eq; lia).
        apply F64Facts.rnd_pos_ge; [lia..|]. rewrite <- F64Facts.one_u_eq. lia. }
    by rewrite E.
Qed.

Lemma madmScore_cutoff_witness :
  (30 <= 30 -> madmScore 30 = F64.of_int64 0) /\
  (30 < 30 -> F64.lt (F64.of_int64 0) (madmScore 30) = true) /\
  (30 = 0 -> madmScore 30 = F64.lit 1 1).
Proof.
  apply (madmScore_cutoff 30). vm_compute. split; discriminate.
Defined.

Section conn_score.
Import F64 F64Facts ListFacts KernelFacts.

Lemma rnd_pos_int k : 0 <= k < 2 ^ 53 -> rnd_pos (k * one_u) 1 = k * one_u.
Proof.
  intros Hk. rewrite one_u_eq.
  replace (k * 2 ^ 1074) with (k * 2 ^ 1074 * 1) at 1 by lia.
  apply rnd_pos_exact; lia.
Qed.

Lemma lt_one_inf : lt (FFin one_u) (FInf false) = true.
Proof. reflexivity. Qed.

(** a quotient that is at least one is clamped to one, lines 163-165 *)
Lemma clamp_quotient vc e :
  0 <= e -> e <= vc -> one_u <= vc ->
  (if lt (FFin one_u) (div (FFin vc) (FFin e)) then FFin one_u
   else div (FFin vc) (FFin e)) = FFin one_u.
Proof.
  intros He Hle Hvc. pose proof one_u_pos as HU.
  unfold div. cbn [val sign].
  destruct (Z.ltb_spec vc 0); [lia|]. destruct (Z.ltb_spec e 0); [lia|].
  destruct (Z.eqb_spec e 0) as [E0|E0].
  - destruct (Z.eqb_spec vc 0); [lia|]. cbn [xorb]. by rewrite lt_one_inf.
  - cbn [xorb]. rewrite !Z.abs_eq by lia.
    assert (Hn : 1 * 2 ^ 1074 <= rnd_pos (vc * one_u) e).
    { apply rnd_pos_ge; [nia|lia|lia|lia|]. rewrite <- one_u_eq. nia. }
    rewrite <- one_u_eq, Z.mul_1_l in Hn.
    unfold round. cbv zeta.
    destruct (Z.leb_spec huge (rnd_pos (vc * one_u) e)); [by rewrite lt_one_inf|].
    destruct (Z.eqb_spec (rnd_pos (vc * one_u) e) 0); [lia|].
    unfold lt. cbn [val].
    destruct (Z.ltb_spec one_u (rnd_pos (vc * one_u) e)); [done|].
    f_equal. lia.
Qed.

Lemma pow_1010_64 : 2 ^ 1010 * (2 ^ 64 * one_u) = one_u * one_u.
Proof.
  rewrite Z.mul_assoc, <- Z.pow_add_r by lia.
  change (1010 + 64) with 1074. by rewrite <- one_u_eq.
Qed.

Lemma Rep_pow2 e : 0 <= e -> Rep (2 ^ e).
Proof. intros. exists 1, e. lia. Qed.

(** with at least one connection the connection score is not zero *)
Lemma connCountScore_pos a cc :
  Int64.in_range (tsMin a) -> Int64.in_range (tsMax a) -> tsMin a <= tsMax a ->
  1 <= cc <= Int64.max_int ->
  fin_in (2 ^ 1010) one_u (connCountScore a cc).
Proof.
  unfold Int64.in_range, Int64.min_int, Int64.max_int.
  intros Hmin Hmax Hle Hcc. pose proof one_u_pos as HU. unfold connCountScore.
  pose proof (pow2_pos 1010 ltac:(lia)) as Hp.
  assert (Hlo : 2 ^ 1010 <= one_u).
  { rewrite one_u_eq. apply Z.pow_le_mono_r; lia. }
  rewrite lit_one, (lit_int 10) by lia.
  rewrite (of_int64_fin (tsMax a)), (of_int64_fin (tsMin a)), (of_int64_fin cc) by lia.
  pose proof (of_int64_mono (tsMin a) (tsMax a) ltac:(lia) ltac:(lia) Hle) as Hmono.
  pose proof (of_int64_bounds (tsMin a) ltac:(lia)) as Hlo'.
  pose proof (of_int64_bounds (tsMax a) ltac:(lia)) as Hhi.
  pose proof (of_int64_ge_one cc ltac:(lia)) as Hc.
  remember (val (of_int64 (tsMax a))) as va.
  remember (val (of_int64 (tsMin a))) as vb.
  remember (val (of_int64 cc)) as vc.
  destruct (sub_fin va vb 0 (2 ^ 64 * one_u)) as (d & -> & Hd); [side..|].
  destruct (div_fin d (10 * one_u) 0 (2 ^ 64 * one_u)) as (e & -> & He); [side..|].
  unfold div. cbn [val sign].
  destruct (Z.ltb_spec vc 0); [lia|]. destruct (Z.ltb_spec e 0); [lia|].
  destruct (Z.eqb_spec e 0) as [E0|E0].
  - destruct (Z.eqb_spec vc 0); [lia|]. cbn [xorb]. rewrite lt_one_inf.
    exists one_u. split; [done|lia].
  - cbn [xorb]. rewrite !Z.abs_eq by lia.
    assert (Hn : 1 * 2 ^ 1010 <= rnd_pos (vc * one_u) e).
    { apply rnd_pos_ge; [nia|lia|lia|lia|].
      pose proof pow_1010_64 as E.
      assert (2 ^ 1010 * e <= 2 ^ 1010 * (2 ^ 64 * one_u))
        by (apply Z.mul_le_mono_nonneg_l; lia).
      assert (one_u * one_u <= vc * one_u) by (apply Z.mul_le_mono_nonneg_r; lia).
      lia. }
    unfold round. cbv zeta.
    destruct (Z.leb_spec huge (rnd_pos (vc * one_u) e)).
    { rewrite lt_one_inf. exists one_u. split; [done|lia]. }
    destruct (Z.eqb_spec (rnd_pos (vc * one_u) e) 0); [lia|].
    unfold lt. cbn [val].
    destruct (Z.ltb_spec one_u (rnd_pos (vc * one_u) e)).
    + exists one_u. split; [done|lia].
    + eexists. split; [reflexivity|lia].
Qed.

Lemma ceil_fin_pos n k :
  0 < n <= k * one_u ->
  exists j, 1 <= j <= k /\ ceil (FFin n) = FFin (j * one_u).
Proof.
  intros Hn. pose proof one_u_pos as HU. unfold ceil. cbv zeta.
  remember (- (- n / one_u)) as j eqn:Ej.
  assert (Hj : 1 <= j <= k).
  { pose proof (Z.div_mod (- n) one_u ltac:(lia)).
    pose proof (Z.mod_pos_bound (- n) one_u HU). nia. }
  exists j. split; [done|].
  destruct (Z.eqb_spec j 0); [lia|done].
Qed.

Lemma combine_pos s m c :
  fin_in 0 one_u s -> fin_in 0 one_u m -> fin_in (2 ^ 1010) one_u c ->
  exists k, 1 <= k <= 1000 /\
    combine s m c = div (of_int64 k) (lit 1000 1) /\
    fin_in (2 ^ 1064) one_u (combine s m c).
Proof.
  intros (vs & -> & Hs) (vm & -> & Hm) (vc & -> & Hc). pose proof one_u_pos as HU.
  pose proof (pow2_pos 1008 ltac:(lia)) as Hp8.
  assert (E10 : 2 ^ 1010 = 4 * 2 ^ 1008).
  { change 1010 with (2 + 1008). by rewrite Z.pow_add_r by lia. }
  assert (EU : one_u = 2 ^ 10 * 2 ^ 1064).
  { rewrite one_u_eq. change 1074 with (10 + 1064). by rewrite Z.pow_add_r by lia. }
  pose proof (pow2_pos 1064 ltac:(lia)) as Hp64.
  unfold combine. rewrite (lit_int 3), (lit_int 1000) by lia.
  destruct (add_fin vs vm 0 (2 * one_u)) as (s1 & -> & Hs1); [side..|].
  destruct (add_fin s1 vc (2 ^ 1010) (3 * one_u)) as (s2 & -> & Hs2);
    [apply Rep_pow2; lia|side..|].
  destruct (div_fin s2 (3 * one_u) (2 ^ 1008) one_u) as (q & -> & Hq);
    [lia|lia|apply Rep_pow2; lia|side|side|nia|].
  destruct (mul_fin q (1000 * one_u) (2 ^ 1008) (1000 * one_u)) as (p & -> & Hp);
    [lia|lia|apply Rep_pow2; lia|side|side|nia|].
  destruct (ceil_fin_pos p 1000 ltac:(lia)) as (k & Hk & ->).
  exists k. split; [done|]. rewrite (of_int64_exact k) by lia. split; [done|].
  apply div_fin; [nia|lia|apply Rep_pow2; lia|side|side|].
  rewrite EU. change (2 ^ 10) with 1024.
  remember (2 ^ 1064) as t. nia.
Qed.

End conn_score.

(** X5. The connection score saturates: for a window inside [0, 2^53) a
    pair with at least one connection per ten seconds of the window scores
    exactly one. *)
Theorem connCountScore_saturates (a : analyzer) (cc : Z) :
  0 <= tsMin a -> tsMin a < tsMax a -> tsMax a < 2 ^ 53 ->
  cc <= Int64.max_int ->
  tsMax a - tsMin a <= 10 * cc ->
  connCountScore a cc = F64.lit 1 1.
Proof.
  intros H0 Hlt Hmax Hcc Hsat. pose proof F64Facts.one_u_pos as HU.
  unfold Int64.max_int in Hcc.
  remember ((tsMax a - tsMin a + 9) / 10) as k eqn:Ek.
  assert (Hk : tsMax a - tsMin a <= 10 * k /\ 1 <= k <= cc /\ k < 2 ^ 53).
  { pose proof (Z.div_mod (tsMax a - tsMin a + 9) 10 ltac:(lia)).
    pose proof (Z.mod_pos_bound (tsMax a - tsMin a + 9) 10 ltac:(lia)). lia. }
  unfold connCountScore.
  rewrite KernelFacts.lit_one, (F64Facts.lit_int 10) by lia.
  rewrite (F64Facts.of_int64_exact (tsMax a)), (F64Facts.of_int64_exact (tsMin a)) by lia.
  rewrite (F64Facts.of_int64_fin cc) by lia.
  pose proof (F64Facts.of_int64_mono k cc ltac:(lia) ltac:(lia) ltac:(lia)) as Hvc.
  rewrite (F64Facts.of_int64_exact k) in Hvc by lia. cbn [F64.val] in Hvc.
  remember (F64.val (F64.of_int64 cc)) as vc.
  replace (tsMax a * F64.one_u - tsMin a * F64.one_u)
    with ((tsMax a - tsMin a) * F64.one_u) in * by lia.
  assert (Ed : F64.rnd_pos (tsMax a * F64.one_u - tsMin a * F64.one_u) 1
               = (tsMax a - tsMin a) * F64.one_u).
  { replace (tsMax a * F64.one_u - tsMin a * F64.one_u)
      with ((tsMax a - tsMin a) * F64.one_u) by lia.
    apply rnd_pos_int. lia. }
  pose proof (KernelFacts.small_lt_huge (tsMax a - tsMin a) ltac:(lia)) as Hdh.
  rewrite sub_pos_val, Ed; [|nia|lia].
  remember (tsMax a - tsMin a) as D.
  assert (He : 0 <= F64.rnd_pos (D * F64.one_u * F64.one_u) (10 * F64.one_u)
               <= k * F64.one_u).
  { apply F64Facts.rnd_pos_range;
      [nia|lia|apply KernelFacts.Rep_0|apply F64Facts.Rep_int; lia|].
    split; [nia|].
    assert (D * (F64.one_u * F64.one_u) <= 10 * k * (F64.one_u * F64.one_u))
      by (apply Z.mul_le_mono_nonneg_r; nia).
    lia. }
  pose proof (KernelFacts.small_lt_huge k ltac:(lia)) as Hkh.
  rewrite div_pos_val; [|nia|lia|lia].
  apply clamp_quotient; nia.
Qed.

Lemma connCountScore_saturates_witness :
  connCountScore (Scenario.window Scenario.quiet) 3600 = F64.lit 1 1.
Proof.
  apply (connCountScore_saturates (Scenario.window Scenario.quiet) 3600);
    vm_compute; try reflexivity; discriminate.
Defined.

(** X6. A window of length zero makes the connection score a division by
    zero.  With at least one connection the quotient is +Inf and the score
    is clamped to one.  With no connection it is 0/0: the clamp lets the NaN
    through, and the final score of the pair is NaN whatever the other two
    scores are. *)
Theorem connCountScore_empty_window (a : analyzer) (cc : Z) :
  Int64.in_range (tsMin a) -> tsMax a = tsMin a -> 0 <= cc <= Int64.max_int ->
  (1 <= cc -> connCountScore a cc = F64.lit 1 1) /\
  (cc = 0 ->
     connCountScore a cc = FNaN /\
     forall s m, combine s m (connCountScore a cc) = FNaN).
Proof.
  unfold Int64.in_range, Int64.min_int, Int64.max_int.
  intros Hmin Heq Hcc. pose proof F64Facts.one_u_pos as HU.
  assert (Hval : connCountScore a cc = if cc =? 0 then FNaN else F64.lit 1 1).
  { unfold connCountScore. rewrite Heq.
    rewrite KernelFacts.lit_one, (F64Facts.lit_int 10) by lia.
    rewrite (F64Facts.of_int64_fin (tsMin a)) by lia.
    remember (F64.val (F64.of_int64 (tsMin a))) as v.
    pose proof KernelFacts.one_lt_huge as H1h.
    rewrite sub_pos_val; rewrite ?Z.sub_diag, ?rnd_pos_zero; try lia.
    rewrite div_pos_val; rewrite ?Z.mul_0_l, ?rnd_pos_zero; try lia.
    destruct (Z.eqb_spec cc 0) as [->|Hne].
    + rewrite KernelFacts.of_int64_zero. reflexivity.
    + rewrite (F64Facts.of_int64_fin cc) by lia.
      pose proof (F64Facts.of_int64_ge_one cc ltac:(lia)) as Hc.
      remember (F64.val (F64.of_int64 cc)) as vc.
      unfold F64.div. cbn [F64.val F64.sign].
      destruct (Z.eqb_spec 0 0); [|lia].
      destruct (Z.eqb_spec vc 0); [lia|].
      destruct (Z.ltb_spec vc 0); [lia|].
      reflexivity. }
  split.
  - intros H1. rewrite Hval. destruct (Z.eqb_spec cc 0); [lia|done].
  - intros ->. rewrite Hval. change (0 =? 0) with true. cbv iota.
    split; [done|]. intros s m. unfold combine. by destruct (F64.add s m).
Qed.

Lemma connCountScore_empty_window_witness :
  (1 <= 0 ->
     connCountScore (mkAnalyzer 1700000000 1700000000 0 Scenario.quiet) 0
     = F64.lit 1 1) /\
  (0 = 0 ->
     connCountScore (mkAnalyzer 1700000000 1700000000 0 Scenario.quiet) 0 = FNaN /\
     forall s m,
       combine s m
         (connCountScore (mkAnalyzer 1700000000 1700000000 0 Scenario.quiet) 0)
       = FNaN).
Proof.
  apply (connCountScore_empty_window
           (mkAnalyzer 1700000000 1700000000 0 Scenario.quiet) 0).
  - vm_compute. split; discriminate.
  - reflexivity.
  - vm_compute. split; discriminate.
Defined.

(** X7. Under the conditions of a valid input (ascending int64 timestamps,
    at least four of them, at least one connection, a window with
    tsMin < tsMax) the emitted score is never zero: it is k/1000 with
    1 <= k <= 1000, because the connection score is positive and the
    ceiling rounds up. *)
Theorem pair_score_positive (a : analyzer) (entry : Input) (tsList : list Z) :
  TsList entry = Some tsList ->
  Sorted Z.le tsList -> Forall Int64.in_range tsList ->
  4 <= Go.len tsList <= Go.maxElems ->
  1 <= ConnectionCount entry <= Int64.max_int ->
  Int64.in_range (tsMin a) -> Int64.in_range (tsMax a) -> tsMin a < tsMax a ->
  exists score k,
    emitted_score a entry = Some score /\
    1 <= k <= 1000 /\
    score = F64.div (F64.of_int64 k) (F64.lit 1000 1) /\
    F64.lt (F64.of_int64 0) score = true.
Proof.
  intros Hts Hasc Hrange Hlen Hcc Hmin Hmax Hwin.
  assert (Hlen2 : 2 <= Go.len tsList <= Go.maxElems) by lia.
  destruct (KernelFacts.statistics_ok tsList Hlen2) as (st & Hst & Hk).
  destruct (KernelFacts.skew_facts tsList st Hasc Hrange Hlen2 Hk) as [_ Hskew].
  pose proof (KernelFacts.madm_range tsList st Hasc Hrange Hlen2 Hk ltac:(lia)) as Hmadm.
  pose proof (KernelFacts.skewScore_unit _ Hskew) as Hs.
  pose proof (KernelFacts.madmScore_unit (tsMadm st)
                ltac:(unfold Int64.max_int in Hmadm; lia)) as Hm.
  pose proof (connCountScore_pos a (ConnectionCount entry)
                Hmin Hmax ltac:(lia) Hcc) as Hc.
  destruct (combine_pos _ _ _ Hs Hm Hc) as (k & Hk1 & Hk2 & (n & Hn & Hpos)).
  unfold emitted_score, analyze. rewrite Hts, Hst. cbn [mbind option_bind].
  cbn [beacon ui_query bs_score].
  eexists _, k. split; [reflexivity|]. split; [exact Hk1|]. split; [exact Hk2|].
  rewrite Hn, KernelFacts.of_int64_zero. unfold F64.lt. cbn [F64.val].
  apply Z.ltb_lt. pose proof (F64Facts.pow2_pos 1064 ltac:(lia)). lia.
Qed.

Lemma pair_score_positive_witness :
  exists score k,
    emitted_score (Scenario.window Scenario.quiet) Scenario.s1 = Some score /\
    1 <= k <= 1000 /\
    score = F64.div (F64.of_int64 k) (F64.lit 1000 1) /\
    F64.lt (F64.of_int64 0) score = true.
Proof.
  apply (pair_score_positive (Scenario.window Scenario.quiet) Scenario.s1
           Scenario.s1_tsList).
  - reflexivity.
  - unfold Scenario.s1_tsList. repeat constructor; lia.
  - unfold Scenario.s1_tsList, Int64.in_range, Int64.min_int, Int64.max_int.
    repeat constructor; lia.
  - vm_compute. split; discriminate.
  - vm_compute. split; discriminate.
  - vm_compute. split; discriminate.
  - vm_compute. split; discriminate.
  - vm_compute. reflexivity.
Defined.

(** * Further properties of the reconciler and of the pool *)

(** X8. Whatever the store answers (counts of any sign, errors), the
    reconciler returns the update of one of the four outcomes, written for
    this score, source, fqdn and chunk; it logs exactly when one of the
    queries it issued failed, one line, and then the update is empty. *)
Theorem hostBeaconQuery_shape (a : analyzer) (score : float64) (src : UniqueIP)
    (fqdn : string) :
  (exists o, fst (hostBeaconQuery a score src fqdn)
             = Reconciler.update_of o score src fqdn (chunk a)) /\
  (snd (hostBeaconQuery a score src fqdn) <> [] <-> query_fails a score src fqdn) /\
  (snd (hostBeaconQuery a score src fqdn) <> [] ->
     fst (hostBeaconQuery a score src fqdn) = noUpdate) /\
  (length (snd (hostBeaconQuery a score src fqdn)) <= 1)%nat.
Proof.
  assert (Hback : query_fails a score src fqdn ->
                  snd (hostBeaconQuery a score src fqdn) <> []).
  { intros H. by destruct (ReconcilerFacts.reconcile_error _ _ _ _ H). }
  revert Hback. unfold hostBeaconQuery, query_fails.
  destruct (db a (SelHostMbproxy src fqdn)) as [n|msg] eqn:E1.
  - destruct (Z.ltb_spec 0 n) as [Hn|Hn].
    + intros Hback. split_and!; cbn [fst snd length].
      * by exists Reconciler.ReplaceExact.
      * split; [done|]. intros [(m & Hm)|[(n' & m & Hn' & Hle & _)|(n' & m & Hn' & Hle & _)]];
          [discriminate Hm|injection Hn' as <-; lia..].
      * done.
      * lia.
    + destruct (db a (SelHostElemMatch src (chunk a) Lte score)) as [nl|msgl] eqn:E2.
      * destruct (Z.eqb_spec nl 0) as [Hl|Hl].
        -- destruct (db a (SelHostElemMatch src (chunk a) Gte score)) as [nu|msgu] eqn:E3.
           ++ intros Hback. destruct (Z.eqb_spec nu 0) as [Hu|Hu];
                (split_and!; cbn [fst snd length];
                 [first [by exists Reconciler.InsertNew | by exists Reconciler.Noop]
                 |split; [done|];
                  intros [(m & Hm)|[(n' & m & _ & _ & Hm)|(n' & m & _ & _ & _ & Hm)]];
                  discriminate Hm
                 |done|lia]).
           ++ intros Hback. split_and!; cbn [fst snd length].
              ** by exists Reconciler.Noop.
              ** split; [|done]. intros _. right. right. exists n, msgu.
                 subst nl. done.
              ** done.
              ** lia.
        -- intros Hback. split_and!; cbn [fst snd length].
           ++ by exists Reconciler.ReplaceLower.
           ++ split; [done|].
              intros [(m & Hm)|[(n' & m & _ & _ & Hm)|(n' & m & _ & _ & Hm & _)]];
                [discriminate Hm..|]. injection Hm as Hm. done.
           ++ done.
           ++ lia.
      * intros Hback. split_and!; cbn [fst snd length].
        -- by exists Reconciler.Noop.
        -- split; [|done]. intros _. right. left. exists n, msgl. done.
        -- done.
        -- lia.
  - intros Hback. split_and!; cbn [fst snd length].
    + by exists Reconciler.Noop.
    + split; [|done]. intros _. left. by exists msg.
    + done.
    + lia.
Qed.

Lemma hostBeaconQuery_outcome (a : analyzer) (score : float64) (src : UniqueIP)
    (fqdn : string) :
  exists o, fst (hostBeaconQuery a score src fqdn)
            = Reconciler.update_of o score src fqdn (chunk a).
Proof.
  unfold hostBeaconQuery.
  destruct (db a (SelHostMbproxy src fqdn)) as [n|msg];
    [|by exists Reconciler.Noop].
  destruct (0 <? n); [by exists Reconciler.ReplaceExact|].
  destruct (db a (SelHostElemMatch src (chunk a) Lte score)) as [nl|msgl];
    [|by exists Reconciler.Noop].
  destruct (nl =? 0); [|by exists Reconciler.ReplaceLower].
  destruct (db a (SelHostElemMatch src (chunk a) Gte score)) as [nu|msgu];
    [|by exists Reconciler.Noop].
  destruct (nu =? 0); [by exists Reconciler.InsertNew|by exists Reconciler.Noop].
Qed.

(** X24. The two halves of an envelope agree.  Whenever the analysis of an
    entry hands an envelope to the callback, either the entry is a strobe
    and the envelope has neither a pair record nor a host update, or the
    pair record is keyed by the hosts of the entry, copies its timestamps,
    connection count and proxy, carries the chunk of the analyzer and the
    strobe flag false, has ts.score equal to score, and the host update is
    empty or writes exactly that score for the FQDN of the entry and that
    chunk to the source host of the entry; against a store that answers,
    the host update is the one the three questions of the reconciler decide
    for the score of the pair record, and nothing is logged. *)
Theorem envelope_halves_agree (a : analyzer) (entry : Input) (u : update)
    (logs : list string) :
  analyze a entry = Some (u, logs) ->
  (TsList entry = None /\ beacon u = noUpdate /\ hostBeacon u = noUpdate) \/
  (exists r tsList,
     TsList entry = Some tsList /\ uconnproxy u = noUpdate /\
     beacon u = mkUpdateInfo (Some (SelPair (Hosts entry))) (Some (SetBeacon r)) /\
     bs_tslist r = tsList /\
     bs_connection_count r = ConnectionCount entry /\
     bs_proxy r = Proxy entry /\
     bs_cid r = chunk a /\ bs_strobeFQDN r = false /\
     ts_score r = bs_score r /\
     (exists o,
        hostBeacon u
        = Reconciler.update_of o (bs_score r) (UniqueSrcIP (Hosts entry))
            (FQDN (Hosts entry)) (bs_cid r)) /\
     (forall st, db a = answering st ->
        hostBeacon u
        = Reconciler.update_of
            (Reconciler.decide_outcome st (bs_score r) (UniqueSrcIP (Hosts entry))
               (FQDN (Hosts entry)) (bs_cid r))
            (bs_score r) (UniqueSrcIP (Hosts entry)) (FQDN (Hosts entry))
            (bs_cid r) /\
        logs = [])).
Proof.
  unfold analyze. intros H.
  destruct (TsList entry) as [tsList|] eqn:Ets.
  - right. destruct (statistics tsList) as [st|]; [|discriminate H].
    cbn [mbind option_bind] in H. apply (inj Some) in H.
    apply pair_equal_spec in H as [Hu Hl]. subst u logs.
    cbn [beacon hostBeacon uconnproxy].
    eexists _, tsList.
    split; [reflexivity|]. split; [reflexivity|]. split; [reflexivity|].
    cbn [bs_tslist bs_connection_count bs_proxy bs_cid bs_strobeFQDN ts_score bs_score].
    split; [reflexivity|]. split; [reflexivity|]. split; [reflexivity|].
    split; [reflexivity|]. split; [reflexivity|]. split; [reflexivity|].
    split; [apply hostBeaconQuery_outcome|].
    intros store0 Hdb. destruct a as [tmin tmax ch session0]. cbn [db chunk] in *.
    subst session0. rewrite ReconcilerFacts.reconcile_refines.
    split; reflexivity.
  - left. apply (inj Some) in H. apply pair_equal_spec in H as [Hu _]. subst u. done.
Qed.

Lemma envelope_halves_agree_witness :
  (exists r tsList,
     TsList Scenario.s1 = Some tsList /\ uconnproxy RunS1.envelope = noUpdate /\
     beacon RunS1.envelope = mkUpdateInfo (Some (SelPair (Hosts Scenario.s1))) (Some (SetBeacon r)) /\
     bs_tslist r = tsList /\
     bs_connection_count r = ConnectionCount Scenario.s1 /\
     bs_proxy r = Proxy Scenario.s1 /\
     bs_cid r = chunk (Scenario.window Scenario.quiet) /\ bs_strobeFQDN r = false /\
     ts_score r = bs_score r /\
     (exists o,
        hostBeacon RunS1.envelope
        = Reconciler.update_of o (bs_score r) (UniqueSrcIP (Hosts Scenario.s1))
            (FQDN (Hosts Scenario.s1)) (bs_cid r)) /\
     (forall st, db (Scenario.window Scenario.quiet) = answering st ->
        hostBeacon RunS1.envelope
        = Reconciler.update_of
            (Reconciler.decide_outcome st (bs_score r) (UniqueSrcIP (Hosts Scenario.s1))
               (FQDN (Hosts Scenario.s1)) (bs_cid r))
            (bs_score r) (UniqueSrcIP (Hosts Scenario.s1)) (FQDN (Hosts Scenario.s1))
            (bs_cid r) /\
        (@nil string) = [])).
Proof.
  destruct (envelope_halves_agree (Scenario.window Scenario.quiet) Scenario.s1
              RunS1.envelope []) as [[Hnone _]|Hpair].
  - vm_compute. reflexivity.
  - discriminate Hnone.
  - exact Hpair.
Defined.

Section pool_more.
Import Pool PoolFacts.
Variable a : analyzer.


Lemma held_le_running (ws : list worker) : (length (held ws) <= running ws)%nat.
Proof.
  induction ws as [|w ws IH]; [done|].
  change (w :: ws) with ([w] ++ ws). rewrite running_app, held_app, length_app.
  destruct w; unfold running at 1; simpl; lia.
Qed.

Lemma running_le_length (ws : list worker) : (running ws <= length ws)%nat.
Proof.
  induction ws as [|w ws IH]; [done|].
  change (w :: ws) with ([w] ++ ws). rewrite running_app, length_app.
  destruct w; unfold running at 1; simpl; lia.
Qed.


End pool_more.

(** X9. At every moment of every execution, each input whose collect has
    returned is either analysed already or held by one worker, so no input
    is analysed twice and none is lost; the counter of the wait group is the
    number of workers that have not called Done, it is never negative, and
    no more inputs are in analysis than there are such workers. *)
Theorem pool_accounting (a : analyzer) (p : list Pool.call) (s : Pool.state) :
  rtc (Pool.step a) (Pool.init p) s ->
  Pool.accepted s ≡ₚ Pool.analyzed (Pool.events s) ++ Pool.held (Pool.workers s) /\
  Pool.analyzed (Pool.events s) ⊆+ Pool.accepted s /\
  Pool.wg s = Z.of_nat (Pool.running (Pool.workers s)) /\
  0 <= Pool.wg s <= Z.of_nat (length (Pool.workers s)) /\
  Z.of_nat (length (Pool.held (Pool.workers s))) <= Pool.wg s.
Proof.
  intros Hreach.
  destruct (PoolFacts.inv_reachable a p s Hreach) as (Hwg & Hacc & _).
  pose proof (held_le_running (Pool.workers s)).
  pose proof (running_le_length (Pool.workers s)).
  split_and!; try lia; [exact Hacc|].
  rewrite Hacc. apply submseteq_inserts_r. done.
Qed.

Lemma pool_reaches_final :
  rtc (Pool.step (Scenario.window Scenario.quiet))
      (Pool.init [Pool.Start; Pool.Collect Scenario.s4; Pool.Close])
      Scenario.pool_final.
Proof.
  unfold Pool.init, Scenario.pool_final.
  eapply rtc_l; [apply Pool.step_start|]. simpl.
  eapply rtc_l; [apply Pool.step_collect|].
  eapply rtc_l; [apply (Pool.step_rendezvous _ _ _ _ _ _ 0%nat); reflexivity|]. simpl.
  eapply rtc_l;
    [apply (Pool.step_analyze _ _ _ _ _ _ 0%nat Scenario.s4 Scenario.quiet
              Scenario.s4_envelope []);
     reflexivity|]. simpl.
  eapply rtc_l; [apply Pool.step_close|].
  eapply rtc_l; [apply (Pool.step_leave _ _ _ _ _ 0%nat); reflexivity|]. simpl.
  eapply rtc_l; [apply (Pool.step_done _ _ _ _ _ _ 0%nat); reflexivity|]. simpl.
  eapply rtc_l; [apply Pool.step_wait|].
  eapply rtc_l; [apply Pool.step_closed_callback|]. simpl.
  apply rtc_refl.
Defined.

Lemma pool_accounting_witness :
  Pool.accepted Scenario.pool_final
    ≡ₚ Pool.analyzed (Pool.events Scenario.pool_final)
       ++ Pool.held (Pool.workers Scenario.pool_final) /\
  Pool.analyzed (Pool.events Scenario.pool_final)
    ⊆+ Pool.accepted Scenario.pool_final /\
  Pool.wg Scenario.pool_final
    = Z.of_nat (Pool.running (Pool.workers Scenario.pool_final)) /\
  0 <= Pool.wg Scenario.pool_final
    <= Z.of_nat (length (Pool.workers Scenario.pool_final)) /\
  Z.of_nat (length (Pool.held (Pool.workers Scenario.pool_final)))
    <= Pool.wg Scenario.pool_final.
Proof.
  exact (pool_accounting (Scenario.window Scenario.quiet)
           [Pool.Start; Pool.Collect Scenario.s4; Pool.Close] Scenario.pool_final
           pool_reaches_final).
Defined.



(** X11. Once a call of close has returned the pool is used up: the
    channel is closed, so a further collect or close cannot complete.  The
    only step that takes such a call off the program is the panic of a send
    on, or of a close of, a closed channel. *)
Theorem call_after_close_panics (a : analyzer) (p : list Pool.call)
    (s s' : Pool.state) (c : Pool.call) (p' : list Pool.call) :
  rtc (Pool.step a) (Pool.init p) s ->
  (1 <= Pool.returned s)%nat ->
  Pool.prog s = c :: p' -> c <> Pool.Start ->
  Pool.step a s s' ->
  Pool.chan_closed s = true /\
  (Pool.crashed s' = true \/ Pool.prog s' = Pool.prog s).
Proof.
  intros Hreach Hret Hprog Hc Hstep.
  destruct (PoolFacts.inv_reachable a p s Hreach) as (_ & _ & Hr & _ & Hph).
  unfold Pool.phase_inv in Hph. rewrite Hr in Hret.
  assert (Hclosed : Pool.chan_closed s = true /\ Pool.ph s = Pool.Idle).
  { destruct (Pool.chan_closed s), (Pool.ph s); try done; try lia;
      try (destruct Hph; lia). }
  destruct Hclosed as [Hcl Hidle]. split; [exact Hcl|].
  destruct Hstep; cbn in *; subst; try discriminate; auto.
  injection Hprog as <- _. done.
Qed.

Lemma call_after_close_panics_witness :
  Pool.chan_closed
    (Pool.mkState [Pool.Close] Pool.Idle true 0 [Pool.Exited] [Scenario.s4]
       [Pool.Analyzed Scenario.s4 Scenario.s4_envelope; Pool.Closed] 1 false)
  = true /\
  (Pool.crashed
     (Pool.crash
        (Pool.mkState [] Pool.Idle true 0 [Pool.Exited] [Scenario.s4]
           [Pool.Analyzed Scenario.s4 Scenario.s4_envelope; Pool.Closed] 1 false))
   = true \/
   Pool.prog
     (Pool.crash
        (Pool.mkState [] Pool.Idle true 0 [Pool.Exited] [Scenario.s4]
           [Pool.Analyzed Scenario.s4 Scenario.s4_envelope; Pool.Closed] 1 false))
   = Pool.prog
       (Pool.mkState [Pool.Close] Pool.Idle true 0 [Pool.Exited] [Scenario.s4]
          [Pool.Analyzed Scenario.s4 Scenario.s4_envelope; Pool.Closed] 1 false)).
Proof.
  apply (call_after_close_panics (Scenario.window Scenario.quiet)
           [Pool.Start; Pool.Collect Scenario.s4; Pool.Close; Pool.Close]
           _ _ Pool.Close []).
  - unfold Pool.init.
    eapply rtc_l; [apply Pool.step_start|]. simpl.
    eapply rtc_l; [apply Pool.step_collect|].
    eapply rtc_l; [apply (Pool.step_rendezvous _ _ _ _ _ _ 0%nat); reflexivity|]. simpl.
    eapply rtc_l;
      [apply (Pool.step_analyze _ _ _ _ _ _ 0%nat Scenario.s4 Scenario.quiet
                Scenario.s4_envelope []);
       reflexivity|]. simpl.
    eapply rtc_l; [apply Pool.step_close|].
    eapply rtc_l; [apply (Pool.step_leave _ _ _ _ _ 0%nat); reflexivity|]. simpl.
    eapply rtc_l; [apply (Pool.step_done _ _ _ _ _ _ 0%nat); reflexivity|]. simpl.
    eapply rtc_l; [apply Pool.step_wait|].
    eapply rtc_l; [apply Pool.step_closed_callback|]. simpl.
    apply rtc_refl.
  - simpl. lia.
  - reflexivity.
  - discriminate.
  - apply Pool.step_close_closed.
Defined.

(** * Further properties of the interval histogram *)

Section runs.
Import ListFacts.



End runs.



(** * The statistics of timestamps that do not overflow *)

Section plain.
Import ListFacts KernelFacts.

Lemma deltas_plain (ts : list Z) :
  Sorted Z.le ts -> Forall (fun t => 0 <= t <= Int64.max_int) ts ->
  Forall (fun d => 0 <= d <= Int64.max_int) (Spec.deltas ts).
Proof.
  intros Hs Hr. apply Forall_forall. intros d Hd. unfold Spec.deltas in Hd.
  apply elem_of_lookup_zip_with in Hd as (i & a & b & -> & Ha & Hb).
  rewrite lookup_drop in Hb.
  pose proof (Sorted_le_lookup ts i (1 + i) a b Hs ltac:(lia) Ha Hb) as Hab.
  rewrite Forall_lookup in Hr.
  pose proof (Hr _ _ Ha) as Ra. pose proof (Hr _ _ Hb) as Rb. cbv beta in Ra, Rb.
  unfold Int64.max_int in *.
  rewrite sub_small by (unfold Int64.min_int, Int64.max_int; lia). lia.
Qed.

Lemma in_range_of_plain (ts : list Z) :
  Forall (fun t => 0 <= t <= Int64.max_int) ts -> Forall Int64.in_range ts.
Proof.
  intros H. eapply Forall_impl; [exact H|].
  intros t Ht. unfold Int64.in_range, Int64.min_int, Int64.max_int in *. cbv beta in Ht. lia.
Qed.

End plain.

(** X13. For ascending timestamps between 0 and the largest int64, at
    least two of them, no difference wraps around, and the statistics keep
    their order: with lo the smallest and hi the largest interval,
    0 <= lo <= Q1 <= Q2 <= Q3 <= hi, the range is hi - lo, the median
    absolute deviation lies between 0 and the range, the mode between lo
    and hi, and the mode count between 1 and the number of intervals. *)
Theorem statistics_plain (tsList : list Z) :
  Sorted Z.le tsList -> Forall (fun t => 0 <= t <= Int64.max_int) tsList ->
  2 <= Go.len tsList <= Go.maxElems ->
  exists st lo hi,
    statistics tsList = Some st /\
    head (diff st) = Some lo /\ last (diff st) = Some hi /\
    0 <= lo /\ hi <= Int64.max_int /\
    lo <= tsLow st /\ tsLow st <= tsMid st /\ tsMid st <= tsHigh st /\
    tsHigh st <= hi /\
    tsIntervalRange st = hi - lo /\
    0 <= tsMadm st <= tsIntervalRange st /\
    lo <= tsMode st <= hi /\
    1 <= tsModeCount st <= Go.len tsList - 1.
Proof.
  intros Hasc Hplain Hlen.
  pose proof (in_range_of_plain _ Hplain) as Hrange.
  destruct (KernelFacts.statistics_ok tsList Hlen) as (st & Hst & Hk).
  pose proof (KernelFacts.quartiles_ordered tsList st Hlen Hk) as Hord.
  pose proof (KernelFacts.diff_sorted tsList st Hk) as Hsorted.
  destruct Hk as (Ed & H1 & H2 & H3 & _ & Edv & Hm & (lo & hi & Hlo & Hhi & Hrg) & Hcm).
  unfold Go.maxElems in Hlen.
  assert (Hdl : length (diff st) = Z.to_nat (Go.len tsList - 1)).
  { rewrite Ed, KernelFacts.SortInt64_length, ListFacts.deltas_length.
    unfold Go.len. lia. }
  assert (Hall : forall d, d ∈ diff st -> 0 <= d <= Int64.max_int).
  { intros d Hd. rewrite Ed, KernelFacts.SortInt64_perm in Hd.
    pose proof (deltas_plain tsList Hasc Hplain) as Hp.
    rewrite Forall_forall in Hp. by apply Hp. }
  assert (Hbetween : forall (i : nat) d, diff st !! i = Some d -> lo <= d <= hi).
  { intros i d Hd. pose proof (lookup_lt_Some _ _ _ Hd) as Hi. split.
    - eapply (ListFacts.Sorted_le_lookup (diff st) 0 i); [done| |exact Hlo|exact Hd]. lia.
    - eapply (ListFacts.Sorted_le_lookup (diff st) i (Z.to_nat (Go.len tsList - 1 - 1)));
        [done| |exact Hd|exact Hhi]. lia. }
  pose proof (Hall lo ltac:(eapply list_elem_of_lookup_2; exact Hlo)) as Rlo.
  pose proof (Hall hi ltac:(eapply list_elem_of_lookup_2; exact Hhi)) as Rhi.
  pose proof (Hbetween _ _ H1) as B1.
  pose proof (Hbetween _ _ H2) as B2.
  pose proof (Hbetween _ _ H3) as B3.
  unfold Int64.max_int in *.
  assert (Erg : tsIntervalRange st = hi - lo).
  { rewrite Hrg. apply KernelFacts.sub_small. unfold Int64.min_int, Int64.max_int. lia. }
  assert (Hmadm : 0 <= tsMadm st <= hi - lo).
  { apply list_elem_of_lookup_2 in Hm. rewrite Edv, KernelFacts.SortInt64_perm in Hm.
    apply list_elem_of_fmap in Hm as (d & -> & Hd).
    apply list_elem_of_lookup_1 in Hd as [i Hi].
    pose proof (Hbetween _ _ Hi) as Bd.
    rewrite KernelFacts.sub_small by (unfold Int64.min_int, Int64.max_int; lia).
    unfold util.Abs.
    rewrite ListFacts.wrap_small by (unfold Int64.min_int, Int64.max_int; lia). lia. }
  destruct (ListFacts.createCountMap_ok (diff st)) as
    (ivs & cnts & mode & mc & Hcm' & _ & Hmem & _ & Ecnt & p & Hp & Hpc & _).
  { lia. }
  { unfold Go.len. lia. }
  rewrite Hcm in Hcm'. injection Hcm' as E1 E2 E3 E4.
  assert (Hmode : tsMode st ∈ diff st).
  { apply Hmem. rewrite E3. eapply list_elem_of_lookup_2, Hp. }
  assert (Hmc : tsModeCount st = freq (tsMode st) (diff st)).
  { rewrite Ecnt, list_lookup_fmap, Hp in Hpc. simpl in Hpc.
    injection Hpc as Hpc. rewrite E4, E3. congruence. }
  pose proof (proj2 (ListFacts.freq_pos (tsMode st) (diff st)) Hmode) as Hfp.
  pose proof (ListFacts.freq_bounds (tsMode st) (diff st)) as Hfb.
  apply list_elem_of_lookup_1 in Hmode as [im Him].
  pose proof (Hbetween _ _ Him) as Bm.
  exists st, lo, hi. split_and!; try lia.
  - exact Hst.
  - by rewrite head_lookup.
  - rewrite last_lookup, Hdl, <- Hhi. f_equal. lia.
Qed.

Lemma statistics_plain_witness :
  exists st lo hi,
    statistics Scenario.s1_tsList = Some st /\
    head (diff st) = Some lo /\ last (diff st) = Some hi /\
    0 <= lo /\ hi <= Int64.max_int /\
    lo <= tsLow st /\ tsLow st <= tsMid st /\ tsMid st <= tsHigh st /\
    tsHigh st <= hi /\
    tsIntervalRange st = hi - lo /\
    0 <= tsMadm st <= tsIntervalRange st /\
    lo <= tsMode st <= hi /\
    1 <= tsModeCount st <= Go.len Scenario.s1_tsList - 1.
Proof.
  apply (statistics_plain Scenario.s1_tsList).
  - unfold Scenario.s1_tsList. repeat constructor; lia.
  - unfold Scenario.s1_tsList, Int64.max_int. repeat constructor; lia.
  - vm_compute. split; discriminate.
Defined.

(** * The log reader *)

Section gather.
Import files.
Variable w : world.

(** what one path adds to the result and to the log *)
Lemma GatherLogFiles_foldl (paths : list string) (acc : list string)
    (logs : list logLine) :
  foldl (fun '(toReturn, logs) path =>
           if util_IsDir w path then
             (toReturn ++ fst (gatherDir w path), logs ++ snd (gatherDir w path))
           else if strings.HasSuffix path ".gz" || strings.HasSuffix path ".log"
           then (toReturn ++ [path], logs)
           else (toReturn, logs ++ [Warn "Ignoring non .log or .gz file" path]))
        (acc, logs) paths
  = (acc ++ fst (GatherLogFiles w paths), logs ++ snd (GatherLogFiles w paths)).
Proof.
  unfold GatherLogFiles.
  match goal with |- foldl ?f _ _ = _ => set (step := f) end.
  assert (Hstep : forall a l p,
            step (a, l) p = (a ++ fst (step ([], []) p), l ++ snd (step ([], []) p))).
  { intros a l p. subst step. cbv beta iota.
    destruct (util_IsDir w p); [reflexivity|].
    destruct (strings.HasSuffix p ".gz" || strings.HasSuffix p ".log");
      cbn [fst snd app]; by rewrite ?app_nil_r. }
  revert acc logs. induction paths as [|p paths IH]; intros acc logs.
  - simpl. by rewrite !app_nil_r.
  - cbn [foldl]. rewrite (Hstep acc logs p).
    destruct (step ([], []) p) as [a2 l2]. cbn [fst snd].
    rewrite (IH (acc ++ a2) (logs ++ l2)), (IH a2 l2). cbn [fst snd].
    by rewrite !app_assoc.
Qed.

Lemma gatherDir_foldl (cpath : string) (fs : list FileInfo) (acc : list string) :
  foldl (fun toReturn file =>
           if (negb (IsDir file) && strings.HasSuffix (Name file) ".gz")
              || strings.HasSuffix (Name file) ".log"
           then toReturn ++ [path_Join w cpath (Name file)]
           else toReturn)
        acc fs
  = acc ++ (path_Join w cpath <$>
              (Name <$>
                 filter (fun f => strings.HasSuffix (Name f) ".log" = true \/
                                  (IsDir f = false /\
                                   strings.HasSuffix (Name f) ".gz" = true)) fs)).
Proof.
  revert acc. induction fs as [|f fs IH]; intros acc.
  - simpl. by rewrite app_nil_r.
  - cbn [foldl]. rewrite IH, filter_cons.
    destruct (IsDir f), (strings.HasSuffix (Name f) ".gz"),
      (strings.HasSuffix (Name f) ".log"); cbn [negb andb orb];
      case_decide as Hd; try (exfalso; clear -Hd; intuition congruence);
      rewrite ?fmap_cons, <- ?app_assoc; try reflexivity;
      exfalso; apply Hd; auto.
Qed.

End gather.

(** X14. GatherLogFiles works path by path: the files and the log lines of
    a list of paths are those of its parts, one after the other, so the
    order of the arguments is kept and a path given twice is listed
    twice. *)
Theorem GatherLogFiles_app (w : files.world) (paths1 paths2 : list string) :
  files.GatherLogFiles w (paths1 ++ paths2)
  = (fst (files.GatherLogFiles w paths1) ++ fst (files.GatherLogFiles w paths2),
     snd (files.GatherLogFiles w paths1) ++ snd (files.GatherLogFiles w paths2)).
Proof.
  unfold files.GatherLogFiles at 1. rewrite foldl_app.
  fold (files.GatherLogFiles w paths1).
  destruct (files.GatherLogFiles w paths1) as [acc logs] eqn:E.
  rewrite GatherLogFiles_foldl. reflexivity.
Qed.

(** X15. When none of the paths is a directory, GatherLogFiles returns
    exactly the paths that end in .gz or .log, in their order, and warns
    once about each of the others, in their order; the file system is not
    read. *)
Theorem GatherLogFiles_plain_files (w : files.world) (paths : list string) :
  Forall (fun p => files.util_IsDir w p = false) paths ->
  files.GatherLogFiles w paths
  = (filter (fun p => strings.HasSuffix p ".gz" = true \/
                      strings.HasSuffix p ".log" = true) paths,
     files.Warn "Ignoring non .log or .gz file"
       <$> filter (fun p => ~ (strings.HasSuffix p ".gz" = true \/
                               strings.HasSuffix p ".log" = true)) paths).
Proof.
  induction 1 as [|p paths Hp _ IH].
  - reflexivity.
  - unfold files.GatherLogFiles at 1. cbn [foldl]. rewrite Hp.
    rewrite !filter_cons.
    destruct (strings.HasSuffix p ".gz"), (strings.HasSuffix p ".log");
      cbn [orb]; rewrite GatherLogFiles_foldl, IH; cbn [fst snd app];
      repeat case_decide; try reflexivity;
      exfalso; intuition congruence.
Qed.

Lemma GatherLogFiles_plain_files_witness :
  files.GatherLogFiles Sample.world Sample.paths
  = (filter (fun p => strings.HasSuffix p ".gz" = true \/
                      strings.HasSuffix p ".log" = true) Sample.paths,
     files.Warn "Ignoring non .log or .gz file"
       <$> filter (fun p => ~ (strings.HasSuffix p ".gz" = true \/
                               strings.HasSuffix p ".log" = true)) Sample.paths).
Proof.
  apply (GatherLogFiles_plain_files Sample.world Sample.paths).
  repeat constructor.
Defined.

(** X16. gatherDir lists, in the order of the directory, the entries whose
    name ends in .log, directories among them, and the entries that are
    not directories and whose name ends in .gz; nothing else.  So a
    subdirectory named like a log is handed on as a file, and one named
    like an archive is not.  An error of ReadDir is logged and does not
    stop the listing of the entries that came with it. *)
Theorem gatherDir_listing (w : files.world) (cpath : string) :
  fst (files.gatherDir w cpath)
  = (files.path_Join w cpath <$>
       (files.Name <$>
          filter (fun f => strings.HasSuffix (files.Name f) ".log" = true \/
                           (files.IsDir f = false /\
                            strings.HasSuffix (files.Name f) ".gz" = true))
                 (fst (files.ioutil_ReadDir w cpath)))) /\
  (forall f, f ∈ fst (files.ioutil_ReadDir w cpath) -> files.IsDir f = true ->
     strings.HasSuffix (files.Name f) ".log" = true ->
     files.path_Join w cpath (files.Name f) ∈ fst (files.gatherDir w cpath)) /\
  snd (files.gatherDir w cpath)
  = match snd (files.ioutil_ReadDir w cpath) with
    | Some e => [files.Error "Error when reading directory" e cpath]
    | None => []
    end.
Proof.
  unfold files.gatherDir.
  destruct (files.ioutil_ReadDir w cpath) as [fs err]. cbn [fst snd].
  rewrite gatherDir_foldl. cbn [app].
  split_and!; [reflexivity| |reflexivity].
  intros f Hf Hd Hlog.
  apply list_elem_of_fmap. exists (files.Name f). split; [done|].
  apply list_elem_of_fmap. exists f. split; [done|].
  apply list_elem_of_filter. split; [by left|done].
Qed.

Section file_type.
Import files.

Lemma substring_tail (a m : nat) (s : string) c t :
  String.substring a (S m) s = String c t -> String.substring (S a) m s = t.
Proof.
  revert s. induction a as [|a IH]; intros s H.
  - destruct s as [|c' s']; [done|]. simpl in H. injection H as _ <-.
    destruct m; reflexivity.
  - destruct s as [|c' s']; [done|]. simpl in H.
    change (String.substring (S (S a)) m (String c' s'))
      with (String.substring (S a) m s').
    by apply IH.
Qed.

Lemma from_last3 (name : string) :
  3 <= strings.len name ->
  exists ftype, strings.from name (strings.len name - 3) = Some ftype /\
    strings.HasSuffix name ".gz" = bool_decide (ftype = ".gz"%string) /\
    strings.HasSuffix name "log" = bool_decide (ftype = "log"%string).
Proof.
  intros Hlen. unfold strings.HasSuffix.
  change (strings.len ".gz") with 3. change (strings.len "log") with 3.
  destruct (Z.leb_spec 3 (strings.len name)); [|lia]. cbn [andb].
  unfold strings.from.
  destruct (Z.ltb_spec (strings.len name - 3) 0); [lia|].
  destruct (Z.ltb_spec (strings.len name) (strings.len name - 3)); [lia|].
  cbn [orb]. eexists. split; [reflexivity|].
  split; apply bool_decide_ext; split; congruence.
Qed.

Lemma suffix_dot_log (name : string) :
  strings.HasSuffix name ".log" = true -> strings.HasSuffix name "log" = true.
Proof.
  unfold strings.HasSuffix.
  change (strings.len ".log") with 4. change (strings.len "log") with 3.
  intros H. apply andb_true_iff in H as [Hlen H].
  apply Z.leb_le in Hlen. apply bool_decide_eq_true in H.
  apply andb_true_iff. split; [apply Z.leb_le; lia|]. apply bool_decide_eq_true.
  unfold strings.from in *. unfold strings.len in *.
  destruct (Z.ltb_spec (Z.of_nat (String.length name) - 4) 0); [lia|].
  destruct (Z.ltb_spec (Z.of_nat (String.length name))
              (Z.of_nat (String.length name) - 4)); [lia|].
  destruct (Z.ltb_spec (Z.of_nat (String.length name) - 3) 0); [lia|].
  destruct (Z.ltb_spec (Z.of_nat (String.length name))
              (Z.of_nat (String.length name) - 3)); [lia|].
  cbn [orb] in *. apply (inj Some) in H. f_equal.
  replace (Z.to_nat (Z.of_nat (String.length name) - 3))
    with (S (Z.to_nat (Z.of_nat (String.length name) - 4))) by lia.
  replace (String.length name - S (Z.to_nat (Z.of_nat (String.length name) - 4)))%nat
    with 3%nat by lia.
  replace (String.length name - Z.to_nat (Z.of_nat (String.length name) - 4))%nat
    with 4%nat in H by lia.
  eapply substring_tail. exact H.
Qed.

Lemma suffix_len (s suffix : string) :
  strings.HasSuffix s suffix = true -> strings.len suffix <= strings.len s.
Proof.
  unfold strings.HasSuffix. intros H. apply andb_true_iff in H as [H _].
  by apply Z.leb_le.
Qed.

End file_type.

Section kept.
Import files.
Variable w : world.

Lemma kept_plain_path (paths : list string) (path : string) :
  Forall (fun p => util_IsDir w p = false) paths ->
  path ∈ fst (GatherLogFiles w paths) ->
  path ∈ paths /\
  (strings.HasSuffix path ".gz" = true \/ strings.HasSuffix path ".log" = true).
Proof.
  induction 1 as [|p paths Hp _ IH]; intros Hin.
  - by apply elem_of_nil in Hin.
  - unfold GatherLogFiles in Hin. cbn [foldl] in Hin. rewrite Hp in Hin.
    destruct (strings.HasSuffix p ".gz" || strings.HasSuffix p ".log") eqn:Es;
      rewrite GatherLogFiles_foldl in Hin; cbn [fst app] in Hin.
    + apply elem_of_cons in Hin as [->|Hin].
      * split; [by left|]. by apply orb_true_iff in Es.
      * destruct (IH Hin) as [? ?]. split; [by right|done].
    + destruct (IH Hin) as [? ?]. split; [by right|done].
Qed.

Lemma GetFileScanner_gz (name : string) :
  strings.HasSuffix name ".gz" = true ->
  GetFileScanner name None = Some (inl GzipReader).
Proof.
  intros Hgz. pose proof (suffix_len _ _ Hgz) as Hlen.
  change (strings.len ".gz") with 3 in Hlen.
  destruct (from_last3 name Hlen) as (ftype & Hf & Egz & _).
  rewrite Hgz in Egz. symmetry in Egz. apply bool_decide_eq_true in Egz. subst ftype.
  unfold GetFileScanner. rewrite Hf. reflexivity.
Qed.

Lemma GetFileScanner_log (name : string) :
  strings.HasSuffix name ".gz" = false -> strings.HasSuffix name "log" = true ->
  GetFileScanner name None = Some (inl FileHandle).
Proof.
  intros Hgz Hlog. pose proof (suffix_len _ _ Hlog) as Hlen.
  change (strings.len "log") with 3 in Hlen.
  destruct (from_last3 name Hlen) as (ftype & Hf & _ & Elog).
  rewrite Hlog in Elog. symmetry in Elog. apply bool_decide_eq_true in Elog. subst ftype.
  unfold GetFileScanner. rewrite Hf. reflexivity.
Qed.

End kept.

(** X17. GetFileScanner decides on the last three bytes of the name.  On
    a name of fewer than three bytes the slice expression panics.
    Otherwise a name that ends in .gz gets the gzip reader, or the error of
    gzip.NewReader; a name that ends in log, with or without a dot before
    it, gets the plain scanner; every other name gets the error
    "filetype not recognized". *)
Theorem GetFileScanner_cases (name : string) (gzipErr : option string) :
  files.GetFileScanner name gzipErr =
    if strings.len name <? 3 then None
    else if strings.HasSuffix name ".gz" then
      match gzipErr with
      | Some err => Some (inr err)
      | None => Some (inl files.GzipReader)
      end
    else if strings.HasSuffix name "log" then Some (inl files.FileHandle)
    else Some (inr "filetype not recognized"%string).
Proof.
  unfold files.GetFileScanner.
  destruct (Z.ltb_spec (strings.len name) 3) as [Hs|Hs].
  - unfold strings.from.
    destruct (Z.ltb_spec (strings.len name - 3) 0); [|lia]. reflexivity.
  - destruct (from_last3 name Hs) as (ftype & -> & -> & ->). cbn [mbind option_bind].
    destruct (decide (ftype = ".gz"%string)) as [->|Hgz].
    + reflexivity.
    + rewrite (bool_decide_eq_true_2 (ftype ≠ ".gz"%string)) by done.
      rewrite (bool_decide_eq_false_2 (ftype = ".gz"%string)) by done.
      cbn [andb].
      destruct (decide (ftype = "log"%string)) as [->|Hlog].
      * reflexivity.
      * rewrite (bool_decide_eq_true_2 (ftype ≠ "log"%string)) by done.
        rewrite (bool_decide_eq_false_2 (ftype = "log"%string)) by done.
        reflexivity.
Qed.

(** X18. The two functions fit: every path that GatherLogFiles keeps for
    an argument that is not a directory is a name that GetFileScanner
    accepts, without a panic and without the error of an unknown file
    type; a .gz name is read through gzip and a .log name directly. *)
Theorem gathered_path_is_scannable (w : files.world) (paths : list string)
    (path : string) :
  Forall (fun p => files.util_IsDir w p = false) paths ->
  path ∈ fst (files.GatherLogFiles w paths) ->
  path ∈ paths /\
  files.GetFileScanner path None
  = Some (inl (if strings.HasSuffix path ".gz" then files.GzipReader
               else files.FileHandle)).
Proof.
  intros Hplain Hin.
  destruct (kept_plain_path w paths path Hplain Hin) as [Hmem Hsuf].
  split; [exact Hmem|].
  destruct (strings.HasSuffix path ".gz") eqn:Egz.
  - by apply GetFileScanner_gz.
  - destruct Hsuf as [Hz|Hl]; [discriminate Hz|].
    apply GetFileScanner_log; [done|]. by apply suffix_dot_log.
Qed.

Lemma gathered_path_is_scannable_witness :
  "conn.log"%string ∈ Sample.paths /\
  files.GetFileScanner "conn.log" None
  = Some (inl (if strings.HasSuffix "conn.log" ".gz" then files.GzipReader
               else files.FileHandle)).
Proof.
  apply (gathered_path_is_scannable Sample.world Sample.paths "conn.log"%string).
  - repeat constructor.
  - vm_compute. apply list_elem_of_here.
Defined.

Section header.
Import files.
Variable w : world.

Lemma len_lt_1 (s : string) : (strings.len s <? 1) = bool_decide (s = EmptyString).
Proof.
  unfold strings.len. destruct s as [|c s]; simpl String.length.
  - reflexivity.
  - destruct (Z.ltb_spec (Z.of_nat (S (String.length s))) 1); [lia|].
    symmetry. by apply bool_decide_eq_false_2.
Qed.

Lemma checkHeader_ok h h' :
  checkHeader h = (h', None) -> h' = h /\ length (Names h) = length (Types h).
Proof.
  unfold checkHeader. case_bool_decide as Hd; intros E; [discriminate E|].
  injection E as <-. split; [done|].
  destruct (decide (length (Names h) = length (Types h))); [done|]. by destruct Hd.
Qed.

Lemma scanLoop_balanced (sc : scanner) (h0 h : BroHeader) (rest : scanner) :
  scanLoop w h0 sc = Some (h, None, rest) ->
  length (Names h) = length (Types h).
Proof.
  revert h0. induction sc as [|[text err] sc IH]; intros h0 H; cbn [scanLoop] in H.
  - destruct (checkHeader h0) as [h1 e1] eqn:E. injection H as -> -> _.
    by destruct (checkHeader_ok _ _ E) as [-> ?].
  - destruct err.
    { destruct (checkHeader h0) as [h1 e1] eqn:E. injection H as -> -> _.
      by destruct (checkHeader_ok _ _ E) as [-> ?]. }
    destruct (strings.len text <? 1); [by eapply IH|].
    destruct (strings.first text) as [c|]; [|discriminate H]. cbn [mbind option_bind] in H.
    case_bool_decide.
    + destruct (headerLine w h0 text) as [[h1 [e|]]|]; cbn [mbind option_bind] in H;
        [discriminate H|by eapply IH|discriminate H].
    + destruct (checkHeader h0) as [h1 e1] eqn:E. injection H as -> -> _.
      by destruct (checkHeader_ok _ _ E) as [-> ?].
Qed.

(** where a scan without error stops: after blank and comment lines only,
    on the first token that is neither, if there is one *)
Lemma scanLoop_stops (sc : scanner) (h0 h : BroHeader) (rest : scanner) :
  scanLoop w h0 sc = Some (h, None, rest) ->
  exists skipped,
    Forall (fun tok => tok.2 = false /\
                       (tok.1 = EmptyString \/ strings.first tok.1 = Some strings.hash))
           skipped /\
    ((sc = skipped /\ rest = []) \/
     exists tok, sc = skipped ++ tok :: rest /\
       (tok.2 = true \/
        (tok.1 <> EmptyString /\ strings.first tok.1 <> Some strings.hash))).
Proof.
  revert h0. induction sc as [|[text err] sc IH]; intros h0 H; cbn [scanLoop] in H.
  - exists []. split; [constructor|]. left.
    destruct (checkHeader h0). injection H as _ _ <-. done.
  - destruct err.
    { exists []. split; [constructor|]. right. exists (text, true).
      destruct (checkHeader h0). injection H as _ _ <-. split; [done|by left]. }
    rewrite len_lt_1 in H. case_bool_decide as Hblank.
    { destruct (IH _ H) as (skipped & Hsk & Hcases).
      exists ((text, false) :: skipped). split.
      - constructor; [|done]. cbn [fst snd]. split; [done|by left].
      - destruct Hcases as [[-> ->]|(tok & -> & Htok)]; [by left|].
        right. exists tok. split; [done|exact Htok]. }
    destruct (strings.first text) as [c|] eqn:Ec; [|discriminate H].
    cbn [mbind option_bind] in H. case_bool_decide as Hc.
    + destruct (headerLine w h0 text) as [[h1 [e|]]|]; cbn [mbind option_bind] in H;
        [discriminate H| |discriminate H].
      destruct (IH _ H) as (skipped & Hsk & Hcases).
      exists ((text, false) :: skipped). split.
      * constructor; [|done]. cbn [fst snd]. split; [done|]. right. by rewrite Ec, Hc.
      * destruct Hcases as [[-> ->]|(tok & -> & Htok)]; [by left|].
        right. exists tok. split; [done|exact Htok].
    + exists []. split; [constructor|]. right. exists (text, false).
      destruct (checkHeader h0). injection H as _ _ <-. split; [done|].
      right. cbn [fst]. split; [done|]. rewrite Ec. congruence.
Qed.

End header.

(** X19. A header that scanTSVHeader returns without an error has as many
    names as types, and the scanner stands where the note above the
    function says: only blank lines and comment lines were passed, and the
    token the scanner stopped on, if the file has one, is the first line
    that is neither, or the token on which the scanner reported an error.
    No log entry is skipped. *)
Theorem scanTSVHeader_success (w : files.world) (fileScanner : files.scanner)
    (h : files.BroHeader) (rest : files.scanner) :
  files.scanTSVHeader w fileScanner = Some (h, None, rest) ->
  length (files.Names h) = length (files.Types h) /\
  exists skipped,
    Forall (fun tok => tok.2 = false /\
                       (tok.1 = EmptyString \/ strings.first tok.1 = Some strings.hash))
           skipped /\
    ((fileScanner = skipped /\ rest = []) \/
     exists tok, fileScanner = skipped ++ tok :: rest /\
       (tok.2 = true \/
        (tok.1 <> EmptyString /\ strings.first tok.1 <> Some strings.hash))).
Proof.
  unfold files.scanTSVHeader. intros H. split.
  - eapply scanLoop_balanced, H.
  - eapply scanLoop_stops, H.
Qed.

Lemma scanTSVHeader_success_witness :
  length (files.Names files.newBroHeader) = length (files.Types files.newBroHeader) /\
  exists skipped,
    Forall (fun tok => tok.2 = false /\
                       (tok.1 = EmptyString \/ strings.first tok.1 = Some strings.hash))
           skipped /\
    ((Sample.tokens = skipped /\ [("2.5 b"%string, false)] = []) \/
     exists tok,
       Sample.tokens = skipped ++ tok :: [("2.5 b"%string, false)] /\
       (tok.2 = true \/
        (tok.1 <> EmptyString /\ strings.first tok.1 <> Some strings.hash))).
Proof.
  apply (scanTSVHeader_success Sample.world Sample.tokens).
  vm_compute. reflexivity.
Defined.

Section missing_value.
Import files.
Variable w : world.

Lemma headerLine_missing_value (h : BroHeader) (text l0 key : string) :
  strings_Fields w text = [l0] ->
  strings.from l0 1 = Some key ->
  key ∈ ["separator"; "set_separator"; "empty_field"; "unset_field"; "path"]%string ->
  headerLine w h text = None.
Proof.
  intros Hfields Hkey Hin.
  unfold headerLine. rewrite Hfields.
  assert (E0 : Go.index [l0] 0 = Some l0) by reflexivity.
  assert (E1 : Go.index [l0] 1 = None) by reflexivity.
  rewrite E0. cbn [mbind option_bind]. rewrite Hkey. cbn [mbind option_bind].
  rewrite E1.
  repeat (apply elem_of_cons in Hin as [->|Hin]; [reflexivity|]).
  by apply elem_of_nil in Hin.
Qed.

End missing_value.

(** X20. A comment line that names one of the directives separator,
    set_separator, empty_field, unset_field or path and carries no value
    makes scanTSVHeader panic on [line[1]], the line having one field only,
    wherever the scan meets it: as the first line, or after any blank lines
    and comment lines that were read without an error. *)
Theorem scanTSVHeader_missing_value (w : files.world) (passed : files.scanner)
    (text l0 key : string) (rest : files.scanner) :
  Forall (fun tok =>
            tok.2 = false /\
            (tok.1 = EmptyString \/
             (strings.first tok.1 = Some strings.hash /\
              forall h, exists h', files.headerLine w h tok.1 = Some (h', None))))
         passed ->
  strings.first text = Some strings.hash ->
  files.strings_Fields w text = [l0] ->
  strings.from l0 1 = Some key ->
  key ∈ ["separator"; "set_separator"; "empty_field"; "unset_field"; "path"]%string ->
  files.scanTSVHeader w (passed ++ (text, false) :: rest) = None.
Proof.
  intros Hpassed Hfirst Hfields Hkey Hin.
  unfold files.scanTSVHeader. generalize files.newBroHeader as h0.
  induction Hpassed as [|[t e] passed [He Ht] _ IH]; intros h0.
  - cbn [app files.scanLoop]. rewrite len_lt_1.
    rewrite bool_decide_eq_false_2 by (intros ->; discriminate Hfirst).
    rewrite Hfirst. cbn [mbind option_bind].
    rewrite bool_decide_eq_true_2 by done.
    by rewrite (headerLine_missing_value w h0 text l0 key Hfields Hkey Hin).
  - cbn [fst snd] in He, Ht. subst e.
    change (((t, false) :: passed) ++ (text, false) :: rest)
      with ((t, false) :: (passed ++ (text, false) :: rest)).
    cbn [files.scanLoop]. rewrite len_lt_1.
    destruct Ht as [->|[Hh Hline]].
    + rewrite bool_decide_eq_true_2 by done. apply IH.
    + rewrite bool_decide_eq_false_2 by (intros ->; discriminate Hh).
      rewrite Hh. cbn [mbind option_bind].
      rewrite bool_decide_eq_true_2 by done.
      destruct (Hline h0) as [h' ->]. cbn [mbind option_bind]. apply IH.
Qed.

Lemma scanTSVHeader_missing_value_witness :
  files.scanTSVHeader Sample.world
    ([(EmptyString, false); ("#fields a b"%string, false)]
     ++ ("#path"%string, false) :: [("1.5 a"%string, false)]) = None.
Proof.
  apply (scanTSVHeader_missing_value Sample.world
           [(EmptyString, false); ("#fields a b"%string, false)]
           "#path"%string "#path"%string "path"%string [("1.5 a"%string, false)]).
  - constructor; [split; [reflexivity|left; reflexivity]|].
    constructor; [|constructor].
    split; [reflexivity|]. right. split; [reflexivity|].
    intros h. eexists. reflexivity.
  - reflexivity.
  - reflexivity.
  - reflexivity.
  - vm_compute. do 4 apply list_elem_of_further. apply list_elem_of_here.
Defined.

Section struct_fields.
Import files.

Lemma len_eq_0 (s : string) : (strings.len s =? 0) = bool_decide (s = EmptyString).
Proof.
  unfold strings.len. destruct s as [|c s]; simpl String.length.
  - reflexivity.
  - destruct (Z.eqb_spec (Z.of_nat (S (String.length s))) 0); [lia|].
    symmetry. by apply bool_decide_eq_false_2.
Qed.

Lemma walkFields_incomplete (fields : list structField) i ft tr :
  Exists (fun f => ~ (bro f = EmptyString <-> brotype f = EmptyString)) fields ->
  walkFields i fields ft tr = inr "incomplete bro variable"%string.
Proof.
  intros Hex. revert i ft tr.
  induction fields as [|f fields IH]; intros i ft tr; [by inversion Hex|].
  cbn [walkFields]. rewrite !len_eq_0.
  destruct (decide (bro f = EmptyString)) as [Hn|Hn],
           (decide (brotype f = EmptyString)) as [Ht|Ht];
    rewrite ?(bool_decide_eq_true_2 _ Hn), ?(bool_decide_eq_false_2 _ Hn),
            ?(bool_decide_eq_true_2 _ Ht), ?(bool_decide_eq_false_2 _ Ht);
    cbn [andb orb]; try reflexivity.
  - apply IH. inversion Hex as [? ? Hf|]; subst; [|done]. exfalso. apply Hf. done.
  - apply IH. inversion Hex as [? ? Hf|]; subst; [|done]. exfalso. apply Hf.
    split; intros; done.
Qed.

(** what the first loop leaves in its two maps *)
Lemma walkFields_complete (fields : list structField) :
  Forall (fun f => bro f = EmptyString <-> brotype f = EmptyString) fields ->
  forall i ft tr,
  exists ft' tr',
    walkFields i fields ft tr = inl (ft', tr') /\
    (forall name,
       (forall f, f ∈ fields -> bro f = name -> name = EmptyString) ->
       ft' !! name = ft !! name /\ tr' !! name = tr !! name) /\
    (forall (k : nat) f,
       fields !! k = Some f -> bro f <> EmptyString ->
       (forall (j : nat) f', (k < j)%nat -> fields !! j = Some f' -> bro f' <> bro f) ->
       ft' !! bro f = Some (mkLookup (brotype f) (i + Z.of_nat k)) /\
       tr' !! bro f = Some (i + Z.of_nat k)).
Proof.
  induction 1 as [|f fields Hf _ IH]; intros i ft tr.
  - exists ft, tr. split; [reflexivity|]. split; [done|]. intros k f Hk. done.
  - cbn [walkFields]. rewrite !len_eq_0.
    destruct (decide (bro f = EmptyString)) as [Hn|Hn].
    + assert (Ht : brotype f = EmptyString) by (by apply Hf).
      rewrite (bool_decide_eq_true_2 _ Hn), (bool_decide_eq_true_2 _ Ht). cbn [andb].
      destruct (IH (i + 1) ft tr) as (ft' & tr' & Hrun & HA & HB).
      exists ft', tr'. split; [exact Hrun|]. split.
      * intros name Hname. apply HA. intros f' Hf'. apply Hname. by right.
      * intros [|k] f' Hk Hne Hlast.
        -- simpl in Hk. injection Hk as <-. done.
        -- simpl in Hk. destruct (HB k f' Hk Hne) as [-> ->].
           ++ intros j f'' Hj Hf''. apply (Hlast (S j)); [lia|done].
           ++ replace (i + 1 + Z.of_nat k) with (i + Z.of_nat (S k)) by lia. done.
    + assert (Ht : brotype f <> EmptyString) by (intros E; apply Hn; by apply Hf).
      rewrite (bool_decide_eq_false_2 _ Hn), (bool_decide_eq_false_2 _ Ht). cbn [andb orb].
      destruct (IH (i + 1) (<[bro f := mkLookup (brotype f) i]> ft)
                  (<[bro f := i]> tr)) as (ft' & tr' & Hrun & HA & HB).
      exists ft', tr'. split; [exact Hrun|]. split.
      * intros name Hname.
        assert (Hneq : bro f <> name).
        { intros E. apply Hn. rewrite E. apply (Hname f); [by left|done]. }
        destruct (HA name) as [-> ->].
        { intros f' Hf'. apply Hname. by right. }
        by rewrite !lookup_insert_ne.
      * intros [|k] f' Hk Hne Hlast.
        -- simpl in Hk. injection Hk as <-.
           destruct (HA (bro f)) as [-> ->].
           { intros f' Hf' E. exfalso.
             apply list_elem_of_lookup_1 in Hf' as [j Hj].
             by apply (Hlast (S j) f' ltac:(lia) Hj). }
           rewrite !lookup_insert_eq. change (Z.of_nat 0) with 0.
           rewrite Z.add_0_r. done.
        -- simpl in Hk. destruct (HB k f' Hk Hne) as [-> ->].
           ++ intros j f'' Hj Hf''. apply (Hlast (S j)); [lia|done].
           ++ replace (i + 1 + Z.of_nat k) with (i + Z.of_nat (S k)) by lia. done.
Qed.

(** a name that some field carries is carried by a last one *)
Lemma last_field (fields : list structField) (name : string) :
  (exists f, f ∈ fields /\ bro f = name) ->
  exists (k : nat) f, fields !! k = Some f /\ bro f = name /\
    forall (j : nat) f', (k < j)%nat -> fields !! j = Some f' -> bro f' <> name.
Proof.
  induction fields as [|f0 fields IH]; intros (f & Hin & Hf).
  - by apply elem_of_nil in Hin.
  - destruct (decide (Exists (fun f' => bro f' = name) fields)) as [Hex|Hno].
    + apply Exists_exists in Hex.
      destruct (IH Hex) as (k & f' & Hk & Hb & Hlast).
      exists (S k), f'. split; [done|]. split; [done|].
      intros [|j] f'' Hj Hf''; [lia|]. simpl in Hf''. apply (Hlast j); [lia|done].
    + assert (bro f0 = name).
      { apply elem_of_cons in Hin as [->|Hin]; [done|].
        exfalso. apply Hno, Exists_exists. eauto. }
      exists 0%nat, f0. split; [done|]. split; [done|].
      intros [|j] f'' Hj Hf''; [lia|]. simpl in Hf''.
      intros E. apply Hno, Exists_exists. exists f''. split; [|done].
      eapply list_elem_of_lookup_2, Hf''.
Qed.

(** what the second loop checks when it ends without an error *)
Lemma walkNames_ok (header : BroHeader) (ft : gmap string lookupT)
    (names : list string) :
  forall index logs logs',
  0 <= index ->
  walkNames header ft index names logs = Some (None, logs') ->
  logs' = logs ++ (Info "the log contains a field with no candidate in the data structure"
                     <$> filter (fun name => ft !! name = None) names) /\
  forall (j : nat) name lu,
    names !! j = Some name -> ft !! name = Some lu ->
    Types header !! (Z.to_nat index + j)%nat = Some (broType lu).
Proof.
  induction names as [|name names IH]; intros index logs logs' Hidx H;
    cbn [walkNames] in H.
  - injection H as <-. split; [by rewrite app_nil_r|]. intros j ? ? Hj. done.
  - rewrite filter_cons. destruct (ft !! name) as [lu|] eqn:Elu.
    + destruct (Go.index (Types header) index) as [t|] eqn:Et; [|discriminate H].
      cbn [mbind option_bind] in H. case_bool_decide as Hne; [discriminate H|].
      destruct (IH (index + 1) _ _ ltac:(lia) H) as [-> Hall].
      rewrite decide_False by done. split; [done|].
      intros [|j] name' lu' Hj Hlu.
      * simpl in Hj. injection Hj as <-. rewrite Elu in Hlu. injection Hlu as <-.
        apply ListFacts.index_Some in Et as [_ Et].
        rewrite Nat.add_0_r, Et. f_equal.
        destruct (decide (t = broType lu)); [done|by destruct Hne].
      * simpl in Hj. specialize (Hall j name' lu' Hj Hlu).
        rewrite <- Hall. f_equal. lia.
    + destruct (IH (index + 1) _ _ ltac:(lia) H) as [-> Hall].
      rewrite decide_True by done. split.
      * rewrite fmap_cons, <- app_assoc. done.
      * intros [|j] name' lu' Hj Hlu.
        -- simpl in Hj. injection Hj as <-. congruence.
        -- simpl in Hj. specialize (Hall j name' lu' Hj Hlu).
           rewrite <- Hall. f_equal. lia.
Qed.

(** the second loop does not panic when every name has a type *)
Lemma walkNames_total (header : BroHeader) (ft : gmap string lookupT)
    (names : list string) :
  forall index logs,
  0 <= index ->
  (Z.to_nat index + length names <= length (Types header))%nat ->
  is_Some (walkNames header ft index names logs).
Proof.
  induction names as [|name names IH]; intros index logs Hidx Hlen;
    cbn [walkNames].
  - done.
  - simpl in Hlen. destruct (ft !! name) as [lu|].
    + destruct (lookup_lt_is_Some_2 (Types header) (Z.to_nat index) ltac:(lia))
        as [t Ht].
      rewrite (proj2 (ListFacts.index_Some (Types header) index t)) by done.
      cbn [mbind option_bind]. case_bool_decide; [done|].
      apply IH; lia.
    + apply IH; lia.
Qed.

End struct_fields.

(** X21. When mapBroHeaderToParserType returns a map, every field of the
    struct has both tags or none; the map sends a name to an index exactly
    when the field at that index is the last one tagged with this name, so
    of two fields with the same name the later one wins; for every name of
    the header that the map knows, the type the header gives at the same
    position is the brotype of that field; and the log has one line for
    each name of the header that the map does not know, in the order of the
    header. *)
Theorem mapBroHeader_index_map (header : files.BroHeader)
    (fields : list files.structField) (m : gmap string Z)
    (logs : list files.logLine) :
  files.mapBroHeaderToParserType header fields = Some (inl m, logs) ->
  Forall (fun f => files.bro f = EmptyString <-> files.brotype f = EmptyString)
         fields /\
  (forall name i,
     m !! name = Some i <->
     exists (k : nat) f,
       i = Z.of_nat k /\ fields !! k = Some f /\ files.bro f = name /\
       name <> EmptyString /\
       forall (j : nat) f', (k < j)%nat -> fields !! j = Some f' ->
                            files.bro f' <> name) /\
  (forall (index k : nat) name f,
     files.Names header !! index = Some name ->
     m !! name = Some (Z.of_nat k) -> fields !! k = Some f ->
     files.Types header !! index = Some (files.brotype f)) /\
  logs = (files.Info "the log contains a field with no candidate in the data structure"
            <$> filter (fun name => m !! name = None) (files.Names header)).
Proof.
  unfold files.mapBroHeaderToParserType. intros Hrun.
  destruct (decide (Forall (fun f => files.bro f = EmptyString
                                     <-> files.brotype f = EmptyString) fields))
    as [Hall|Hno].
  2:{ apply not_Forall_Exists in Hno; [|apply _].
      rewrite (walkFields_incomplete fields 0 ∅ ∅ Hno) in Hrun. discriminate Hrun. }
  destruct (walkFields_complete fields Hall 0 ∅ ∅) as (ft & tr & Hwalk & HA & HB).
  rewrite Hwalk in Hrun.
  destruct (files.walkNames header ft 0 (files.Names header) [])
    as [[[e|] logs']|] eqn:Hnames; cbn [mbind option_bind] in Hrun;
    try discriminate Hrun.
  injection Hrun as -> ->.
  destruct (walkNames_ok header ft (files.Names header) 0 [] logs ltac:(lia) Hnames)
    as [Hlogs Htypes].
  assert (Hmap : forall name i,
            m !! name = Some i <->
            exists (k : nat) f,
              i = Z.of_nat k /\ fields !! k = Some f /\ files.bro f = name /\
              name <> EmptyString /\
              forall (j : nat) f', (k < j)%nat -> fields !! j = Some f' ->
                                   files.bro f' <> name).
  { intros name i. split.
    - intros Hm.
      destruct (decide (Exists (fun f => files.bro f = name) fields)) as [Hex|Hno].
      + apply Exists_exists in Hex.
        destruct (last_field fields name Hex) as (k & f & Hk & Hb & Hlast).
        destruct (decide (name = EmptyString)) as [Hempty|Hne].
        * destruct (HA name) as [_ E]; [intros; done|].
          rewrite E, lookup_empty in Hm. discriminate Hm.
        * destruct (HB k f Hk ltac:(congruence)) as [_ E].
          { intros j f' Hj Hf'. rewrite Hb. by apply (Hlast j). }
          rewrite Hb, Hm in E. injection E as ->.
          exists k, f. split_and!; try done; lia.
      + destruct (HA name) as [_ E].
        { intros f Hf Hb. exfalso. apply Hno, Exists_exists. eauto. }
        rewrite E, lookup_empty in Hm. discriminate Hm.
    - intros (k & f & -> & Hk & Hb & Hne & Hlast).
      destruct (HB k f Hk ltac:(congruence)) as [_ E].
      { intros j f' Hj Hf'. rewrite Hb. by apply (Hlast j). }
      rewrite Hb in E. rewrite E. f_equal; lia. }
  assert (Hdom : forall name, ft !! name = None <-> m !! name = None).
  { intros name.
    destruct (decide (Exists (fun f => files.bro f = name) fields)) as [Hex|Hno].
    - apply Exists_exists in Hex.
      destruct (last_field fields name Hex) as (k & f & Hk & Hb & Hlast).
      destruct (decide (name = EmptyString)) as [Hempty|Hne].
      + destruct (HA name) as [-> ->]; [intros; done|]. by rewrite !lookup_empty.
      + destruct (HB k f Hk ltac:(congruence)) as [E1 E2].
        { intros j f' Hj Hf'. rewrite Hb. by apply (Hlast j). }
        rewrite Hb in E1, E2. rewrite E1, E2. done.
    - destruct (HA name) as [-> ->].
      { intros f Hf Hb. exfalso. apply Hno, Exists_exists. eauto. }
      by rewrite !lookup_empty. }
  split_and!.
  - exact Hall.
  - exact Hmap.
  - intros index k name f Hname Hm Hk.
    apply Hmap in Hm as (k' & f' & Hkk & Hk' & Hb & Hne & Hlast).
    assert (k' = k) as -> by lia. rewrite Hk in Hk'. injection Hk' as <-.
    destruct (HB k f Hk ltac:(congruence)) as [E _].
    { intros j f' Hj Hf'. rewrite Hb. by apply (Hlast j). }
    rewrite Hb in E.
    specialize (Htypes index name _ Hname E). exact Htypes.
  - rewrite Hlogs. cbn [app]. f_equal. apply list_filter_iff. exact Hdom.
Qed.

Lemma mapBroHeader_index_map_witness :
  Forall (fun f => files.bro f = EmptyString <-> files.brotype f = EmptyString)
         Sample.fields /\
  (forall name i,
     Sample.index_map !! name = Some i <->
     exists (k : nat) f,
       i = Z.of_nat k /\ Sample.fields !! k = Some f /\ files.bro f = name /\
       name <> EmptyString /\
       forall (j : nat) f', (k < j)%nat -> Sample.fields !! j = Some f' ->
                            files.bro f' <> name) /\
  (forall (index k : nat) name f,
     files.Names Sample.header !! index = Some name ->
     Sample.index_map !! name = Some (Z.of_nat k) -> Sample.fields !! k = Some f ->
     files.Types Sample.header !! index = Some (files.brotype f)) /\
  Sample.unmatched
  = (files.Info "the log contains a field with no candidate in the data structure"
       <$> filter (fun name => Sample.index_map !! name = None)
                  (files.Names Sample.header)).
Proof.
  apply (mapBroHeader_index_map Sample.header Sample.fields Sample.index_map
           Sample.unmatched).
  vm_compute. reflexivity.
Defined.

(** X22. The header of a successful scan never makes
    mapBroHeaderToParserType panic: the index into the types of the header
    is always inside, because the scan has checked that there are as many
    types as names. *)
Theorem scanned_header_maps (w : files.world) (fileScanner rest : files.scanner)
    (h : files.BroHeader) (fields : list files.structField) :
  files.scanTSVHeader w fileScanner = Some (h, None, rest) ->
  is_Some (files.mapBroHeaderToParserType h fields).
Proof.
  intros Hscan. unfold files.scanTSVHeader in Hscan.
  pose proof (scanLoop_balanced w _ _ _ _ Hscan) as Hlen.
  unfold files.mapBroHeaderToParserType.
  destruct (files.walkFields 0 fields ∅ ∅) as [[ft tr]|e]; [|done].
  destruct (walkNames_total h ft (files.Names h) 0 [] ltac:(lia)) as [[[e|] logs] ->].
  - change (Z.to_nat 0) with 0%nat. lia.
  - done.
  - done.
Qed.

Lemma scanned_header_maps_witness :
  is_Some (files.mapBroHeaderToParserType Sample.header Sample.fields).
Proof.
  apply (scanned_header_maps Sample.spaced Sample.log_tokens []).
  vm_compute. reflexivity.
Defined.

(** X23. A struct with a field that has one of the two tags and not the
    other is refused with "incomplete bro variable", whatever the header
    says, and nothing is logged. *)
Theorem mapBroHeader_incomplete_field (header : files.BroHeader)
    (fields : list files.structField) :
  Exists (fun f => ~ (files.bro f = EmptyString <-> files.brotype f = EmptyString))
         fields ->
  files.mapBroHeaderToParserType header fields
  = Some (inr "incomplete bro variable"%string, []).
Proof.
  intros Hex. unfold files.mapBroHeaderToParserType.
  by rewrite (walkFields_incomplete fields 0 ∅ ∅ Hex).
Qed.

Lemma mapBroHeader_incomplete_field_witness :
  files.mapBroHeaderToParserType Sample.header
    [files.mkStructField "ts" EmptyString]
  = Some (inr "incomplete bro variable"%string, []).
Proof.
  apply (mapBroHeader_incomplete_field Sample.header
           [files.mkStructField "ts" EmptyString]).
  apply Exists_cons_hd. simpl. intros [_ H]. discriminate (H eq_refl).
Defined.
